(** * A shallow embedding of mdp.py: the MDP solver, the betting game and
      the bias inference machine.

    Numbers: numpy's float64 values are idealised as real numbers ([R]).
    Where the source divides by a quantity that can be zero, and where it
    exponentiates, the result is taken in [npfloat], which adds the IEEE
    special values to the reals: a division by zero and the overflow of
    [np.exp] give an infinity or NaN, as they do in the program.
    Arrays are lists indexed from 0; an index out of range raises
    [IndexError], as numpy does.  Indices are naturals: the solver only
    indexes with [range] values, never with negative numbers. *)

From Stdlib Require Import Reals Lra Lia ZArith.
From stdpp Require Import base tactics option list.

Open Scope R_scope.

(** ** Python exceptions and the error monad *)

(** [UnobservableEvidence] is the error the specification names for a
    degenerate likelihood; the others are the built-in exceptions that the
    numpy operations of the source raise. *)
Inductive pyerror : Set :=
  | IndexError
  | ValueError
  | TypeError
  | UnobservableEvidence.

Inductive result (A : Type) : Type :=
  | Ok (a : A)
  | Raise (e : pyerror).
Arguments Ok {A} a.
Arguments Raise {A} e.

Global Instance result_ret : MRet result := fun A a => Ok a.
Global Instance result_bind : MBind result := fun A B f m =>
  match m with
  | Ok a => f a
  | Raise e => Raise e
  end.

(** [l[i]] for a numpy array or a Python list and a non-negative index. *)
Definition index {A} (l : list A) (i : nat) : result A :=
  match l !! i with
  | Some x => Ok x
  | None => Raise IndexError
  end.

(** Monadic map, left to right. *)
Fixpoint mapR {A B} (f : A -> result B) (l : list A) : result (list B) :=
  match l with
  | [] => Ok []
  | x :: l' => y ← f x; ys ← mapR f l'; Ok (y :: ys)
  end.

(** Monadic left fold: a [for] loop whose body may raise. *)
Fixpoint foldR {A S} (f : S -> A -> result S) (l : list A) (s : S) : result S :=
  match l with
  | [] => Ok s
  | x :: l' => s' ← f s x; foldR f l' s'
  end.

(** ** numpy reductions and products on real vectors *)

Definition Rsum (l : list R) : R := foldr Rplus 0 l.

(** [np.max]: raises [ValueError] on a zero-size array. *)
Definition np_max (l : list R) : result R :=
  match l with
  | [] => Raise ValueError
  | x :: l' => Ok (foldl Rmax x l')
  end.

(** Inner product of two vectors; numpy raises [ValueError] when the shapes
    are not aligned. *)
Definition dot (u v : list R) : result R :=
  if decide (length u = length v)
  then Ok (Rsum (zip_with Rmult u v))
  else Raise ValueError.

(** [np.dot(M, v)] for a matrix [M] (a list of rows) and a vector [v]. *)
Definition np_dot (M : list (list R)) (v : list R) : result (list R) :=
  mapR (fun row => dot row v) M.

(** ** float64 with its special values *)

Inductive npfloat : Type :=
  | Real (x : R)
  | PInf
  | NInf
  | NaN.

Definition Rltb (x y : R) : bool := if Rlt_dec x y then true else false.
Definition Reqb (x y : R) : bool := if Req_dec_T x y then true else false.

Definition inf (neg : bool) : npfloat := if neg then NInf else PInf.

Definition fadd (a b : npfloat) : npfloat :=
  match a, b with
  | NaN, _ | _, NaN => NaN
  | Real x, Real y => Real (x + y)
  | PInf, NInf | NInf, PInf => NaN
  | PInf, _ | _, PInf => PInf
  | NInf, _ | _, NInf => NInf
  end.

Definition fmul (a b : npfloat) : npfloat :=
  match a, b with
  | NaN, _ | _, NaN => NaN
  | Real x, Real y => Real (x * y)
  | PInf, Real y | Real y, PInf =>
      if Reqb y 0 then NaN else inf (Rltb y 0)
  | NInf, Real y | Real y, NInf =>
      if Reqb y 0 then NaN else inf (negb (Rltb y 0))
  | PInf, PInf | NInf, NInf => PInf
  | PInf, NInf | NInf, PInf => NInf
  end.

(** Division.  Signed zeros are not modelled: a zero divisor counts as +0. *)
Definition fdiv (a b : npfloat) : npfloat :=
  match a, b with
  | NaN, _ | _, NaN => NaN
  | Real x, Real y =>
      if Reqb y 0
      then (if Reqb x 0 then NaN else inf (Rltb x 0))
      else Real (x / y)
  | Real _, (PInf | NInf) => Real 0
  | PInf, Real y => inf (Rltb y 0)
  | NInf, Real y => inf (negb (Rltb y 0))
  | (PInf | NInf), (PInf | NInf) => NaN
  end.

(** The largest float64 whose exponential is finite, to fifteen digits;
    above it [np.exp] overflows to [inf]. *)
Definition exp_max : R := 709782712893384 / 1000000000000.

(** [np.exp].  The overflow above [exp_max] is kept: it changes the kind
    of value that the program goes on with, [inf / inf] being NaN.  The
    underflow belongs to the rounding that the reals idealise: far below
    zero [np.exp] returns a subnormal number or 0.0 where the model keeps
    [exp x], a positive real below 2.3e-308. *)
Definition fexp (a : npfloat) : npfloat :=
  match a with
  | Real x => if Rltb exp_max x then PInf else Real (exp x)
  | PInf => PInf
  | NInf => Real 0
  | NaN => NaN
  end.

(** [ndarray.sum()] *)
Definition fsum (l : list npfloat) : npfloat := foldr fadd (Real 0) l.

Definition is_nan (a : npfloat) : bool :=
  match a with NaN => true | _ => false end.

(** ** numpy's random choice *)

(** The tolerance of [np.random.choice] on the sum of the probabilities:
    the square root of the float64 machine epsilon, 2^-26. *)
Definition atol : R := / 2 ^ 26.

(** [p.cumsum()], from the running sum [acc]. *)
Fixpoint cumsum (acc : R) (p : list R) : list R :=
  match p with
  | [] => []
  | x :: p' => (acc + x) :: cumsum (acc + x) p'
  end.

(** [cdf.searchsorted(u, side='right')] on a non-decreasing array: the
    index of the first entry above [u], the length when there is none. *)
Fixpoint searchsorted_right (cdf : list R) (u : R) : nat :=
  match cdf with
  | [] => 0
  | c :: cdf' => if Rlt_dec u c then 0 else S (searchsorted_right cdf' u)
  end.

(** [np.random.choice(a, p=p)] for one sample.  The generator draws one
    uniform number [u] from [0, 1), which is made a parameter here.  numpy
    raises [ValueError] when [a] is empty, when [a] and [p] differ in size,
    when an entry of [p] is negative and when the entries of [p] do not
    sum to 1 within [atol]; otherwise it normalises the cumulative sums by
    the last of them and returns the element of [a] at the place of [u]
    among them. *)
Definition choice {A} (a : list A) (p : list R) (u : R) : result A :=
  if decide (length a = 0%nat) then Raise ValueError
  else if decide (length p = length a) then
    if existsb (fun x => Rltb x 0) p then Raise ValueError
    else if Rltb atol (Rabs (Rsum p - 1)) then Raise ValueError
    else
      let cdf := cumsum 0 p in
      let cdf := (fun c => c / default 0 (last cdf)) <$> cdf in
      index a (searchsorted_right cdf u)
  else Raise ValueError.

(** [np.random.choice(a)] for one sample, without probabilities: numpy
    raises [ValueError] when [a] is empty and returns the element at an
    integer that the generator draws below the size of [a]; the draw [k]
    is a parameter, reduced to that range. *)
Definition choice_uniform {A} (a : list A) (k : nat) : result A :=
  if decide (length a = 0%nat) then Raise ValueError
  else index a (k mod length a).

(** The reals of an array that holds no special value. *)
Fixpoint finite (v : list npfloat) : option (list R) :=
  match v with
  | [] => Some []
  | Real x :: v' => cons x <$> finite v'
  | _ :: _ => None
  end.

(** [np.random.choice(a, p=p)] for probabilities computed in float64.  An
    infinite entry is negative or makes the sum infinite, which raises
    [ValueError]; so does a NaN in the versions of numpy that check for
    it. *)
Definition choice_float {A} (a : list A) (p : list npfloat) (u : R)
    : result A :=
  match finite p with
  | Some p' => choice a p' u
  | None => Raise ValueError
  end.

(** [x == y] on float64: NaN equals nothing. *)
Definition feqb (a b : npfloat) : bool :=
  match a, b with
  | Real x, Real y => Reqb x y
  | PInf, PInf | NInf, NInf => true
  | _, _ => false
  end.

(** [np.where(row == v)], from the index [j] of the head of [row]. *)
Fixpoint where_eq (row : list npfloat) (v : npfloat) (j : nat) : list nat :=
  match row with
  | [] => []
  | x :: row' =>
      if feqb x v then j :: where_eq row' v (S j) else where_eq row' v (S j)
  end.

(** [np.where(s == state)[0][0]]: the first index at which [s] holds
    [state]; [IndexError] when there is none. *)
Fixpoint where_first (s : list Z) (state : Z) : result nat :=
  match s with
  | [] => Raise IndexError
  | z :: s' =>
      if (z =? state)%Z then Ok 0%nat
      else i ← where_first s' state; Ok (S i)
  end.

(** [l[i]] for an integer that may be negative: Python counts a negative
    index from the end. *)
Definition subscript {A} (l : list A) (i : Z) : result A :=
  if (0 <=? i)%Z then index l (Z.to_nat i)
  else if (- Z.of_nat (length l) <=? i)%Z
       then index l (Z.to_nat (Z.of_nat (length l) + i))
       else Raise IndexError.

(** ** class MDP *)

Module MDP.

Record model : Type := mk {
  s : list Z;
  a : list Z;
  r : list R;
  t : list (list (list R));
  discount : R;
  values : option (list R);
  policy : option (list (list npfloat))
}.

(** [MDP.__init__]: the discount is fixed to .95; values and policy are
    [None] until the solver runs. *)
Definition init (states actions : list Z) (rewards : list R)
    (transitions : list (list (list R))) : model :=
  mk states actions rewards transitions (95 / 100) None None.

Definition set_values (m : model) (v : list R) : model :=
  mk (s m) (a m) (r m) (t m) (discount m) (Some v) (policy m).

Definition set_policy (m : model) (p : list (list npfloat)) : model :=
  mk (s m) (a m) (r m) (t m) (discount m) (values m) (Some p).

(** [getTransitionStatesAndProbs]: [self.t[state][action][:]] *)
Definition getTransitionStatesAndProbs (m : model) (state action : nat)
    : result (list R) :=
  ts ← index (t m) state; index ts action.

(** [getReward]: [self.r[state]] *)
Definition getReward (m : model) (state : nat) : result R :=
  index (r m) state.

(** [takeAction]:
    [np.random.choice(self.s, p=self.getTransitionStatesAndProbs(state, action))],
    with the uniform draw [u] of the generator as an argument. *)
Definition takeAction (m : model) (state action : nat) (u : R) : result Z :=
  p ← getTransitionStatesAndProbs m state action; choice (s m) p u.

(** The right-hand side of the assignment in the sweep of
    [valueIteration]:
    [self.r[i] + np.max(self.discount * np.dot(self.t[i][:][:], self.values))] *)
Definition backup (m : model) (V : list R) (i : nat) : result R :=
  ri ← index (r m) i;
  ti ← index (t m) i;
  q ← np_dot ti V;
  mx ← np_max (Rmult (discount m) <$> q);
  Ok (ri + mx).

(** The [for i in range(len(self.s)-1)] loop: each value is overwritten in
    place, so later states of the same sweep read it.  Assigning past the
    end of the array raises [IndexError]. *)
Definition sweep_body (m : model) (V : list R) (i : nat) : result (list R) :=
  v ← backup m V i;
  if decide (i < length V)%nat then Ok (<[i:=v]> V) else Raise IndexError.

Definition sweep (m : model) (V : list R) : result (list R) :=
  foldR (sweep_body m) (seq 0 (length (s m) - 1)) V.

(** [np.max(np.abs(self.values - oldValues))] *)
Definition delta (V old : list R) : result R :=
  np_max (Rabs <$> zip_with Rminus V old).

(** The [while True] loop, with a bound on the number of sweeps: [None]
    when the bound is reached before the loop breaks. *)
Fixpoint vi_loop (fuel : nat) (m : model) (epsilon : R) (V : list R)
    : option (result (list R)) :=
  match fuel with
  | O => None
  | S fuel' =>
      match sweep m V with
      | Raise e => Some (Raise e)
      | Ok V' =>
          match delta V' V with
          | Raise e => Some (Raise e)
          | Ok d =>
              if Rle_dec d epsilon then Some (Ok V')
              else vi_loop fuel' m epsilon V'
          end
      end
  end.

(** [valueIteration(self, epsilon=.1)]; [None] for [epsilon] is the call
    without the argument. *)
Definition valueIteration (fuel : nat) (m : model) (epsilon : option R)
    : option (result model) :=
  let eps := default (1 / 10) epsilon in
  match vi_loop fuel m eps (replicate (length (s m)) 0) with
  | None => None
  | Some (Raise e) => Some (Raise e)
  | Some (Ok V) => Some (Ok (set_values m V))
  end.

(** The body of the loop of [extractPolicy] for state [i]: the action
    values, shifted by their maximum, divided by [float(tau)],
    exponentiated and divided by their sum. *)
Definition softmax_row (tau : R) (q : list R) : result (list npfloat) :=
  mx ← np_max q;
  let shifted := (fun x => x - mx) <$> q in
  let e := (fun x => fexp (fdiv (Real x) (Real tau))) <$> shifted in
  let total := fsum e in
  Ok ((fun x => fdiv x total) <$> e).

Definition state_policy (m : model) (tau : R) (i : nat) : result (list npfloat) :=
  ri ← index (r m) i;
  ti ← index (t m) i;
  V ← from_option Ok (Raise TypeError) (values m);
  d ← np_dot ti V;
  softmax_row tau ((fun x => ri + discount m * x) <$> d).

(** [self.policy[i] = state_policy]: the row must have the policy's row
    shape, or one element, which numpy broadcasts. *)
Definition assign_row (width : nat) (P : list (list npfloat)) (i : nat)
    (row : list npfloat) : result (list (list npfloat)) :=
  if decide (length row = width) then Ok (<[i:=row]> P)
  else match row with
       | [x] => Ok (<[i:=replicate width x]> P)
       | _ => Raise ValueError
       end.

Definition policy_body (m : model) (tau : R) (P : list (list npfloat)) (i : nat)
    : result (list (list npfloat)) :=
  row ← state_policy m tau i; assign_row (length (a m)) P i row.

(** [extractPolicy(self, tau=.1)]; [None] for [tau] is the call without
    the argument. *)
Definition extractPolicy (m : model) (tau : option R) : result model :=
  let tau := default (1 / 10) tau in
  let P0 := replicate (length (s m)) (replicate (length (a m)) (Real 0)) in
  P ← foldR (policy_body m tau) (seq 0 (length (s m) - 1)) P0;
  Ok (set_policy m P).

(** What the generator draws in one turn of the loop of [simulate]: the
    uniform number behind the choice of a policy value, the integer behind
    the choice among the actions that have this value, and the uniform
    number behind the move. *)
Record draws : Type := mk_draws { pick : R; tie : nat; move : R }.

(** The body of the loop of [simulate] up to the [print]: the action and
    the next state that it prints. *)
Definition simulate_step (m : model) (state : Z) (d : draws)
    : result (Z * Z) :=
  stateIndex ← where_first (s m) state;
  P ← from_option Ok (Raise TypeError) (policy m);
  row ← index P stateIndex;
  let p_policy := (fun x => fdiv x (fsum row)) <$> row in
  policyChoice ← choice_float row p_policy (pick d);
  row' ← subscript P state;
  actionIndex ← choice_uniform (where_eq row' policyChoice 0) (tie d);
  nextState ← takeAction m stateIndex actionIndex (move d);
  action ← index (a m) actionIndex;
  Ok (action, nextState).

(** The [while] loop of [simulate] from a state that is not terminal, one
    turn for each element of [ds]: the lines printed, as triples of a
    state, an action and the next state, and the terminal state returned;
    [None] when the draws run out before a terminal state is reached. *)
Fixpoint simulate_loop (isTerminal : Z → bool) (m : model) (state : Z)
    (ds : list draws) : option (result (list (Z * Z * Z) * Z)) :=
  match ds with
  | [] => None
  | d :: ds' =>
      match simulate_step m state d with
      | Raise e => Some (Raise e)
      | Ok (action, next) =>
          if isTerminal next then Some (Ok ([(state, action, next)], next))
          else match simulate_loop isTerminal m next ds' with
               | Some (Ok (lines, final)) =>
                   Some (Ok ((state, action, next) :: lines, final))
               | other => other
               end
      end
  end.

(** [simulate(self, state)], with [isTerminal] of the subclass: from a
    terminal state the loop is not entered and Python returns [None]. *)
Definition simulate (isTerminal : Z → bool) (m : model) (state : Z)
    (ds : list draws) : option (result (list (Z * Z * Z) * option Z)) :=
  if isTerminal state then Some (Ok ([], None))
  else match simulate_loop isTerminal m state ds with
       | Some (Ok (lines, final)) => Some (Ok (lines, Some final))
       | Some (Raise e) => Some (Raise e)
       | None => None
       end.

End MDP.

(** ** class BettingGame(MDP) *)

Module BettingGame.

(** [tHelper].  The source compares the integers with [is]; the operands
    are indices below 102 and their sums, which CPython keeps as shared
    small-integer objects, so [is] decides equality here.  The branch on
    [x - y] is reached only with [y <= x]. *)
Definition tHelper (x y z : Z) (pHeads : R) : R :=
  if ((x + y =? z) && (y =? 0))%Z then 1
  else if ((y >? x) && negb (x =? z))%Z then 0
  else if ((y >? x) && (x =? z))%Z then 1
  else if (x - y =? z)%Z then 1 - pHeads
  else if (x + y =? z)%Z then pHeads
  else if ((x + y >? z) && (z =? 100))%Z then pHeads
  else 0.

(** [np.arange(n)] *)
Definition arange (n : nat) : list Z := Z.of_nat <$> seq 0 n.

(** [np.zeros(len(self.s))] with entry 101 set to 1.0 *)
Definition dead_row : list R := <[101%nat:=1]> (replicate 102 0).

(** The tensor filled by [tHelper] over every index of [temp]. *)
Definition tensor (pHeads : R) : list (list (list R)) :=
  (fun x => (fun y => (fun z => tHelper x y z pHeads) <$> arange 102)
              <$> arange 101) <$> arange 102.

(** One round of the loop that sends the end-game states to the dead
    state. *)
Definition redirect (T : list (list (list R))) (x : nat)
    : list (list (list R)) :=
  alter (<[x:=dead_row]>) 0%nat (alter (<[x:=dead_row]>) 100%nat T).

Definition rewards : list R :=
  <[100%nat:=100]> (<[0%nat:=-10]> (replicate 101 0)).

Record model : Type := mk { mdp : MDP.model; pHeads : R }.

(** [setBettingGame]: the fields [discount], [values] and [policy] are
    those of the MDP it is called on. *)
Definition setBettingGame (m : MDP.model) (pHeads : R) : model :=
  mk (MDP.mk (arange 102) (arange 101) rewards
             (foldl redirect (tensor pHeads) (seq 0 101))
             (MDP.discount m) (MDP.values m) (MDP.policy m))
     pHeads.

(** [isTerminal]: [True if state is 101 else False] *)
Definition isTerminal (state : Z) : bool := (state =? 101)%Z.

(** [BettingGame.__init__(self, pHeads=.5, epsilon=.01, tau=1)]: both
    solver calls are made without arguments. *)
Definition init (fuel : nat) (pHeads : option R) (epsilon tau : option R)
    : option (result model) :=
  let pHeads := default (1 / 2) pHeads in
  let _epsilon := default (1 / 100) epsilon in
  let _tau := default 1 tau in
  let g := setBettingGame (MDP.init [] [] [] []) pHeads in
  match MDP.valueIteration fuel (mdp g) None with
  | None => None
  | Some (Raise e) => Some (Raise e)
  | Some (Ok m) =>
      Some (m' ← MDP.extractPolicy m None; Ok (mk m' pHeads))
  end.

End BettingGame.

(** ** class InferenceMachine *)

Module InferenceMachine.

(** [np.arange(0, 1.01, .01)]: 101 values [0 + i * .01]. *)
Definition bias_grid : list R := (fun i => INR i * (1 / 100)) <$> seq 0 101.

(** [np.linspace(start, stop, num)] *)
Definition linspace (start stop : R) (num : nat) : list R :=
  (fun i => start + INR i * ((stop - start) / INR (num - 1))) <$> seq 0 num.

(** [np.linspace(.01, 1.0, 101)], the abscissae of the prior, of the
    plots and of the expectation. *)
Definition prior_grid : list R := linspace (1 / 100) 1 101.

Section Beta.

(** The value of the Beta function at the two shape parameters, the
    normalising constant of [scipy.stats.beta.pdf]. *)
Variable B : R.

(** [scipy.stats.beta.pdf(x, a, b)] for shape parameters above 1: the
    density is 0 at both ends of [0, 1] and outside of it. *)
Definition beta_pdf (a b x : R) : R :=
  if Rlt_dec 0 x then
    if Rlt_dec x 1 then Rpower x (a - 1) * Rpower (1 - x) (b - 1) / B
    else 0
  else 0.

Record machine : Type := mk {
  sims : list BettingGame.model;
  likelihood : option (list npfloat);
  posterior : option (list npfloat);
  prior : option (list npfloat)
}.

(** [buildBiasEngine]: one solved betting game for each bias of the
    grid. *)
Fixpoint build (fuel : nat) (grid : list R)
    : option (result (list BettingGame.model)) :=
  match grid with
  | [] => Some (Ok [])
  | p :: grid' =>
      match BettingGame.init fuel (Some p) None None with
      | None => None
      | Some (Raise e) => Some (Raise e)
      | Some (Ok g) =>
          match build fuel grid' with
          | None => None
          | Some (Raise e) => Some (Raise e)
          | Some (Ok gs) => Some (Ok (g :: gs))
          end
      end
  end.

Definition buildBiasEngine (fuel : nat) : option (result machine) :=
  match build fuel bias_grid with
  | None => None
  | Some (Raise e) => Some (Raise e)
  | Some (Ok gs) => Some (Ok (mk gs None None None))
  end.

(** [self.sims[i].policy[state][action]] *)
Definition policy_entry (state action : nat) (g : BettingGame.model)
    : result npfloat :=
  P ← from_option Ok (Raise TypeError) (MDP.policy (BettingGame.mdp g));
  row ← index P state;
  index row action.

Definition inferLikelihood (m : machine) (state action : nat) : result machine :=
  l ← mapR (policy_entry state action) (sims m);
  Ok (mk (sims m) (Some l) (posterior m) (prior m)).

(** [v /= v.sum()] *)
Definition normalize (v : list npfloat) : list npfloat :=
  let total := fsum v in (fun x => fdiv x total) <$> v.

(** The density values on the grid, before they are divided by their sum,
    and after, as reals. *)
Definition weights : list R := beta_pdf (19 / 10) (19 / 10) <$> prior_grid.

Definition prior_reals : list R := (fun x => x / Rsum weights) <$> weights.

(** The prior of [inferPosterior]: the Beta(1.9, 1.9) density on
    [prior_grid], divided by its sum. *)
Definition prior_vector : list npfloat :=
  normalize ((fun x => Real (beta_pdf (19 / 10) (19 / 10) x)) <$> prior_grid).

(** [self.likelihood * self.prior] for a Python list and an array:
    elementwise when the lengths agree, broadcast when the list has one
    element, [ValueError] otherwise; a likelihood that is still [None]
    gives [TypeError]. *)
Definition times (lik : option (list npfloat)) (pr : list npfloat)
    : result (list npfloat) :=
  match lik with
  | None => Raise TypeError
  | Some l =>
      if decide (length l = length pr) then Ok (zip_with fmul l pr)
      else match l with
           | [x] => Ok (fmul x <$> pr)
           | _ => Raise ValueError
           end
  end.

Definition inferPosterior (m : machine) (state action : nat) : result machine :=
  let pr := prior_vector in
  post ← times (likelihood m) pr;
  Ok (mk (sims m) (likelihood m) (Some (normalize post)) (Some pr)).

(** [expectedPosterior]: the loop [expectation += posterior[i] * x[i]]
    over [range(len(self.posterior))]. *)
Definition expect_body (post : list npfloat) (x : list R) (acc : npfloat)
    (i : nat) : result npfloat :=
  p ← index post i;
  xi ← index x i;
  Ok (fadd acc (fmul p (Real xi))).

Definition expectedPosterior (m : machine) : result npfloat :=
  post ← from_option Ok (Raise TypeError) (posterior m);
  foldR (expect_body post prior_grid) (seq 0 (length post)) (Real 0).

(** [inferSummary]: the likelihood and the posterior are stored and the
    expectation is printed; the result holds the machine and the number
    printed.  The figure that [plotDistributions] then draws from the
    stored vectors is left out. *)
Definition inferSummary (m : machine) (state action : nat)
    : result (machine * npfloat) :=
  m1 ← inferLikelihood m state action;
  m2 ← inferPosterior m1 state action;
  e ← expectedPosterior m2;
  Ok (m2, e).

End Beta.

End InferenceMachine.

(** ** The solver as the specification words it *)

Module Spec.

(** [mx] is the largest element of [l]. *)
Definition is_max (mx : R) (l : list R) : Prop :=
  mx ∈ l ∧ ∀ x, x ∈ l → x <= mx.

(** Σ_{s'} T(s,a,s') · V(s') for the row T(s,a,·). *)
Definition expected (V row : list R) : R := Rsum (zip_with Rmult row V).

(** [v] = r(s) + γ · max_a Σ_{s'} T(s,a,s') · W(s') at state [i]. *)
Inductive bellman (m : MDP.model) (W : list R) (i : nat) : R → Prop :=
  | bellman_intro (ri : R) (ti : list (list R)) (mx : R) :
      MDP.r m !! i = Some ri →
      MDP.t m !! i = Some ti →
      Forall (fun row => length row = length W) ti →
      is_max mx (expected W <$> ti) →
      bellman m W i (ri + MDP.discount m * mx).

(** One in-place sweep from [V] to [V']: every state but the last gets
    its Bellman value, computed from the values already updated in this
    sweep (those before it) and the old values of the others. *)
Definition gauss_seidel (m : MDP.model) (V V' : list R) : Prop :=
  length V' = length V ∧
  (length (MDP.s m) - 1 <= length V)%nat ∧
  (∀ i, (i < length (MDP.s m) - 1)%nat →
        ∃ v, V' !! i = Some v ∧ bellman m (take i V' ++ drop i V) i v) ∧
  (∀ i, (length (MDP.s m) - 1 <= i)%nat → V' !! i = V !! i).

(** [d] = max_s |V'(s) − V(s)|. *)
Definition max_change (V' V : list R) (d : R) : Prop :=
  is_max d (Rabs <$> zip_with Rminus V' V).

(** [run m eps V k V'']: from [V], [k] sweeps whose change exceeds [eps]
    are followed by one whose change does not, which ends in [V'']. *)
Inductive run (m : MDP.model) (eps : R) : list R → nat → list R → Prop :=
  | run_stop V V' d :
      gauss_seidel m V V' → max_change V' V d → d <= eps →
      run m eps V 0 V'
  | run_step V V' d k V'' :
      gauss_seidel m V V' → max_change V' V d → ¬ d <= eps →
      run m eps V' k V'' →
      run m eps V (S k) V''.

(** The stabilised softmax of the action values [q] at temperature [tau]:
    exp((q_a − max q)/τ) / Σ_b exp((q_b − max q)/τ). *)
Definition softmax (tau mx : R) (q : list R) : list R :=
  let e := (fun x => exp ((x - mx) / tau)) <$> q in
  (fun x => x / Rsum e) <$> e.

(** Q(s,a) = r(s) + γ · Σ_{s'} T(s,a,s') · V(s') for every action. *)
Definition action_values (m : MDP.model) (V : list R) (ri : R)
    (ti : list (list R)) : list R :=
  (fun row => ri + MDP.discount m * expected V row) <$> ti.

End Spec.

(** The shapes the solver relies on: a reward and a transition block for
    every state but the last, every block with one row per action and every
    row with one entry per state. *)
Definition shaped (m : MDP.model) : Prop :=
  (1 <= length (MDP.a m))%nat ∧
  (length (MDP.s m) - 1 <= length (MDP.r m))%nat ∧
  (length (MDP.s m) - 1 <= length (MDP.t m))%nat ∧
  ∀ i ti, (i < length (MDP.s m) - 1)%nat → MDP.t m !! i = Some ti →
    length ti = length (MDP.a m) ∧
    Forall (fun row => length row = length (MDP.s m)) ti.

(** ** A small model to run the solver on

    Three states and two actions.  State 0 pays 1 and leads to the last
    state under both actions; state 1 pays nothing and leads to state 0
    under action 0 and to the last state under action 1; the last state is
    the absorbing one. *)
Definition toy : MDP.model :=
  MDP.init [0; 1; 2]%Z [0; 1]%Z [1; 0; 0]
    [ [[0; 0; 1]; [0; 0; 1]];
      [[1; 0; 0]; [0; 0; 1]];
      [[0; 0; 1]; [0; 0; 1]] ].

(** Its values after value iteration. *)
Definition toy_solved : MDP.model := MDP.set_values toy [1; 95 / 100; 0].

(** The policy of the small model at temperature [tau]. *)
Definition toy_policy (tau : R) : list (list npfloat) :=
  [ Real <$> Spec.softmax tau 1 [1; 1];
    Real <$> Spec.softmax tau (95 / 100) [95 / 100; 0];
    [Real 0; Real 0] ].

(** The model that [BettingGame.__init__] hands to the solver. *)
Definition game (pHeads : R) : MDP.model :=
  BettingGame.mdp (BettingGame.setBettingGame (MDP.init [] [] [] []) pHeads).

(** State [i] is left out of the backup loop: no sweep changes its value. *)
Definition excluded_from_backup (m : MDP.model) (i : nat) : Prop :=
  ∀ V V', length V = length (MDP.s m) → MDP.sweep m V = Ok V' →
          V' !! i = V !! i.

(** A transition block of the betting game: 101 rows of 102 entries. *)
Definition block_ok (ti : list (list R)) : Prop :=
  length ti = 101%nat ∧ Forall (fun row => length row = 102%nat) ti.

(** A machine whose likelihood has been set, with no games attached. *)
Definition machine_with (lik : list npfloat) : InferenceMachine.machine :=
  InferenceMachine.mk [] (Some lik) None None.

(** The likelihood that is 1 at the last grid point and 0 elsewhere. *)
Definition last_point : list R := replicate 100 0 ++ [1].

(** A likelihood of 101 non-negative values, not all of them zero. *)
Definition nondegenerate (l : list R) : Prop :=
  length l = 101%nat ∧ Forall (fun x => 0 <= x) l ∧
  ∃ i x, l !! i = Some x ∧ x ≠ 0.

(** A machine whose posterior has been set, with no games attached. *)
Definition machine_with_posterior (post : list npfloat) : InferenceMachine.machine :=
  InferenceMachine.mk [] None (Some post) None.

(** The posterior that puts all its mass on the first hypothesis, the one
    whose game was built with [pHeads = 0]. *)
Definition first_point : list R := 1 :: replicate 100 0.

(** ** The outcomes of [tHelper]

    [tHelper] returns one of four values; [outcome] names them, so that the
    rows of the tensor can be inspected by computation. *)
Inductive outcome : Set := Never | Surely | Lose | Win.

Definition probability (pHeads : R) (o : outcome) : R :=
  match o with
  | Never => 0
  | Surely => 1
  | Lose => 1 - pHeads
  | Win => pHeads
  end.

(** The branch of [tHelper] taken at [x], [y], [z]. *)
Definition branch (x y z : Z) : outcome :=
  if ((x + y =? z) && (y =? 0))%Z then Surely
  else if ((y >? x) && negb (x =? z))%Z then Never
  else if ((y >? x) && (x =? z))%Z then Surely
  else if (x - y =? z)%Z then Lose
  else if (x + y =? z)%Z then Win
  else if ((x + y >? z) && (z =? 100))%Z then Win
  else Never.

(** How often each outcome other than [Never] occurs in a row. *)
Fixpoint tally (os : list outcome) : nat * nat * nat :=
  match os with
  | [] => (0, 0, 0)%nat
  | o :: os' =>
      let '(s, l, w) := tally os' in
      match o with
      | Never => (s, l, w)
      | Surely => (S s, l, w)
      | Lose => (s, S l, w)
      | Win => (s, l, S w)
      end
  end.

Global Instance outcome_eq_dec : EqDecision outcome.
Proof. solve_decision. Defined.

(** The states to which [tHelper] can give a probability other than 0 from
    state [x] under action [y], among the first [n] states. *)
Definition targets (n : nat) (x y : Z) : list Z :=
  filter (fun z => (0 <= z < Z.of_nat n)%Z)
         (remove_dups [x; (x - y)%Z; (x + y)%Z; 100%Z]).

(** The outcomes of state [x] and action [y] at those states. *)
Definition outcomes (n x y : nat) : list outcome :=
  branch (Z.of_nat x) (Z.of_nat y) <$> targets n (Z.of_nat x) (Z.of_nat y).

(** A row is a distribution for every [pHeads] when it holds one sure
    outcome, or one losing and one winning outcome. *)
Definition distribution_tally (c : nat * nat * nat) : bool :=
  match c with
  | (1, 0, 0)%nat | (0, 1, 1)%nat => true
  | _ => false
  end.

(** Its mass is at most 1 when it holds one sure outcome, or at most one
    losing and at most one winning outcome. *)
Definition subdistribution_tally (c : nat * nat * nat) : bool :=
  match c with
  | (1, 0, 0)%nat => true
  | (0, l, w)%nat => (l <=? 1)%nat && (w <=? 1)%nat
  | _ => false
  end.

(** The pairs of a state and an action whose row [tHelper] fills wrongly:
    a stake that would bring the gambler to exactly 101, and the first
    two actions of the dead state. *)
Definition overshoots (x y : nat) : bool :=
  ((x + y =? 101) && (1 <=? y) && (y <=? x))%nat
  || ((x =? 101) && (y <=? 1))%nat.

(** ** Conditions under which value iteration converges *)

(** A row of non-negative entries whose mass on the states other than the
    last one is at most 1. *)
Definition row_ok (n : nat) (row : list R) : Prop :=
  Forall (fun x => 0 <= x) row ∧ Rsum (take (n - 1) row) <= 1.

Definition substochastic (m : MDP.model) : Prop :=
  ∀ i ti, (i < length (MDP.s m) - 1)%nat → MDP.t m !! i = Some ti →
    Forall (row_ok (length (MDP.s m))) ti.

(** Two value vectors of length [n] that differ by at most [D] on every
    state but the last, where they agree. *)
Definition close (n : nat) (D : R) (X Y : list R) : Prop :=
  length X = n ∧ length Y = n ∧
  ∀ j x y, X !! j = Some x → Y !! j = Some y →
    Rabs (x - y) <= if decide (j < n - 1)%nat then D else 0.

(** A probability vector as [np.random.choice] accepts it for [n]
    elements. *)
Definition accepted (n : nat) (p : list R) : Prop :=
  n ≠ 0%nat ∧ length p = n ∧ Forall (fun x => 0 <= x) p ∧
  Rabs (Rsum p - 1) <= atol.

(** ** The moves of the betting game *)

Definition tally_is (c d : nat * nat * nat) : bool :=
  match c, d with
  | (s, l, w), (s', l', w') => ((s =? s') && (l =? l') && (w =? w'))%nat
  end.

(** A stake the gambler can cover, from a state whose row [tHelper] fills
    as intended and that the loop of [setBettingGame] leaves alone. *)
Definition coverable (x y : nat) : bool :=
  ((1 <=? y) && (y <=? x) && negb (x =? 100))%nat && negb (overshoots x y).

(** Where a coverable stake loses and where it wins. *)
Definition loss (x y : nat) : nat := (x - y)%nat.
Definition gain (x y : nat) : nat := Nat.min (x + y) 100.

(** The row of a coverable stake holds nothing before the state of the
    loss, the losing outcome there, nothing more before the state of the
    gain and the winning outcome there. *)
Definition stake_row (x y : nat) : bool :=
  tally_is (tally (outcomes (loss x y) x y)) (0, 0, 0)%nat
  && tally_is (tally (outcomes (S (loss x y)) x y)) (0, 1, 0)%nat
  && tally_is (tally (outcomes (gain x y) x y)) (0, 1, 0)%nat
  && tally_is (tally (outcomes (S (gain x y)) x y)) (0, 1, 1)%nat.

(** The rows of the pairs in [overshoots] hold a losing and two winning
    outcomes, a sure and a winning one, or a losing one alone. *)
Definition overshoot_row (x y : nat) : bool :=
  let c := tally (outcomes 102 x y) in
  tally_is c (0, 1, 2)%nat || tally_is c (1, 0, 1)%nat
  || tally_is c (0, 1, 0)%nat.

(** No stake, or a stake the gambler cannot cover, in a state where the
    game goes on. *)
Definition idle (x y : nat) : bool :=
  ((1 <=? x) && (x <=? 99) && ((y =? 0) || (x <? y)))%nat.

(** The row of such a pair holds the sure outcome at the state itself and
    nothing before it. *)
Definition idle_row (x y : nat) : bool :=
  tally_is (tally (outcomes x x y)) (0, 0, 0)%nat
  && tally_is (tally (outcomes (S x) x y)) (1, 0, 0)%nat.

(** ** The games of the inference machine *)

(** A game as the constructor leaves it: values, and a policy of 102
    rows, the rows of the states 0 to 100 with 101 finite entries in
    (0, 1] each, the row of the dead state all zeros. *)
Definition solved (g : BettingGame.model) : Prop :=
  is_Some (MDP.values (BettingGame.mdp g)) ∧
  ∃ P, MDP.policy (BettingGame.mdp g) = Some P ∧ length P = 102%nat ∧
    (∀ i, (i < 101)%nat →
       ∃ row, P !! i = Some (Real <$> row) ∧ length row = 101%nat ∧
              Forall (fun x => 0 < x <= 1) row) ∧
    P !! 101%nat = Some (replicate 101 (Real 0)).

(** * Properties *)


(** ** The error monad *)

Lemma bind_Ok {A B} (f : A → result B) (x : result A) (b : B) :
  x ≫= f = Ok b ↔ ∃ a, x = Ok a ∧ f a = Ok b.
Proof.
  destruct x as [a|e]; simpl.
  - split; [eauto | by intros (? & [= <-] & ?)].
  - split; [done | by intros (? & ? & ?)].
Qed.

Lemma index_Ok {A} (l : list A) (i : nat) (x : A) :
  index l i = Ok x ↔ l !! i = Some x.
Proof. unfold index. destruct (l !! i); split; congruence. Qed.

Lemma mapR_Ok {A B} (f : A → result B) (l : list A) (k : list B) :
  mapR f l = Ok k ↔ Forall2 (fun x y => f x = Ok y) l k.
Proof.
  revert k. induction l as [|x l IH]; intros k; simpl.
  - split; [intros [= <-]; constructor | by inversion 1].
  - rewrite bind_Ok. split.
    + intros (y & Hy & H). apply bind_Ok in H as (ys & Hys & [= <-]).
      constructor; [done | by apply IH].
    + inversion 1 as [|? y ? ys Hy Hys]; subst. exists y. split; [done|].
      apply bind_Ok. exists ys. split; [by apply IH | done].
Qed.

(** ** Maxima *)

Lemma foldl_Rmax_is_max (l : list R) (x : R) :
  Spec.is_max (foldl Rmax x l) (x :: l).
Proof.
  revert x. induction l as [|y l IH]; intros x; simpl.
  - split; [by left | intros z ->%list_elem_of_singleton; lra].
  - destruct (IH (Rmax x y)) as [Hin Hle]. split.
    + apply elem_of_cons in Hin as [->|Hin].
      * unfold Rmax. destruct (Rle_dec x y); [right; left | left].
      * by do 2 right.
    + intros z Hz.
      assert (Rmax x y <= foldl Rmax (Rmax x y) l) by (apply Hle; left).
      apply elem_of_cons in Hz as [->|Hz].
      * pose proof (Rmax_l x y). lra.
      * apply elem_of_cons in Hz as [->|Hz].
        -- pose proof (Rmax_r x y). lra.
        -- apply Hle. by right.
Qed.

Lemma is_max_unique (l : list R) (a b : R) :
  Spec.is_max a l → Spec.is_max b l → a = b.
Proof.
  intros [Ha Hla] [Hb Hlb]. apply Hla in Hb. apply Hlb in Ha. lra.
Qed.

Lemma np_max_Ok (l : list R) (mx : R) :
  np_max l = Ok mx ↔ Spec.is_max mx l.
Proof.
  destruct l as [|x l]; simpl.
  - split; [done | intros [H _]; by apply elem_of_nil in H].
  - split.
    + intros [= <-]. apply foldl_Rmax_is_max.
    + intros H. f_equal. eapply is_max_unique; [apply foldl_Rmax_is_max | done].
Qed.

Lemma is_max_scale (c mx : R) (l : list R) :
  0 <= c → Spec.is_max mx l → Spec.is_max (c * mx) (Rmult c <$> l).
Proof.
  intros Hc [Hin Hle]. split.
  - apply list_elem_of_fmap. eauto.
  - intros x (y & -> & Hy)%list_elem_of_fmap. apply Hle in Hy. nra.
Qed.

Lemma is_max_exists (l : list R) : l ≠ [] → ∃ mx, Spec.is_max mx l.
Proof.
  destruct l as [|x l]; [done|]. intros _. eexists. apply foldl_Rmax_is_max.
Qed.

(** ** Products *)

Lemma dot_Ok (u v : list R) (x : R) :
  dot u v = Ok x ↔ length u = length v ∧ x = Spec.expected v u.
Proof.
  unfold dot, Spec.expected. case_decide; split.
  - by intros [= <-].
  - by intros [_ ->].
  - done.
  - by intros [? _].
Qed.

Lemma np_dot_Ok (M : list (list R)) (v q : list R) :
  np_dot M v = Ok q ↔
  Forall (fun row => length row = length v) M ∧ q = Spec.expected v <$> M.
Proof.
  unfold np_dot. rewrite mapR_Ok. revert q.
  induction M as [|row M IH]; intros q.
  - split; [inversion 1; by split | intros [_ ->]; constructor].
  - split.
    + inversion 1 as [|? y ? ys Hy Hys]; subst.
      apply dot_Ok in Hy as [? ->]. apply IH in Hys as [? ->].
      split; [by constructor | done].
    + intros [HF ->]. inversion HF; subst. constructor.
      * by apply dot_Ok.
      * by apply IH.
Qed.

(** ** The Bellman backup and the sweep *)

Lemma backup_Ok (m : MDP.model) (W : list R) (i : nat) (v : R) :
  0 <= MDP.discount m →
  MDP.backup m W i = Ok v ↔ Spec.bellman m W i v.
Proof.
  intros Hd. unfold MDP.backup. split.
  - intros (ri & Hri%index_Ok & H)%bind_Ok.
    apply bind_Ok in H as (ti & Hti%index_Ok & H).
    apply bind_Ok in H as (q & [HF ->]%np_dot_Ok & H).
    apply bind_Ok in H as (mx & Hmx%np_max_Ok & [= <-]).
    destruct (is_max_exists (Spec.expected W <$> ti)) as [mx' Hmx'].
    { intros Hnil. rewrite Hnil in Hmx. destruct Hmx as [Hin _].
      by apply elem_of_nil in Hin. }
    rewrite (is_max_unique _ _ _ Hmx (is_max_scale _ _ _ Hd Hmx')).
    by econstructor.
  - intros [ri ti mx Hri Hti HF Hmx].
    apply bind_Ok. exists ri. split; [by apply index_Ok|].
    apply bind_Ok. exists ti. split; [by apply index_Ok|].
    apply bind_Ok. eexists. split; [by apply np_dot_Ok|].
    apply bind_Ok. eexists. split; [|done].
    apply np_max_Ok. by apply is_max_scale.
Qed.

Lemma bellman_unique (m : MDP.model) (W : list R) (i : nat) (v v' : R) :
  Spec.bellman m W i v → Spec.bellman m W i v' → v = v'.
Proof.
  intros [ri ti mx Hri Hti _ Hmx] [ri' ti' mx' Hri' Hti' _ Hmx'].
  simplify_eq. by rewrite (is_max_unique _ _ _ Hmx Hmx').
Qed.

Lemma sweep_body_Ok (m : MDP.model) (V V1 : list R) (i : nat) :
  MDP.sweep_body m V i = Ok V1 ↔
  ∃ v, MDP.backup m V i = Ok v ∧ (i < length V)%nat ∧ V1 = <[i:=v]> V.
Proof.
  unfold MDP.sweep_body. rewrite bind_Ok. split.
  - intros (v & Hv & H). case_decide; [|done]. injection H as <-. eauto.
  - intros (v & Hv & Hi & ->). exists v. split; [done|]. by case_decide.
Qed.

(** The loop over the states [a, a+1, ..., a+k-1]. *)
Lemma sweep_range (m : MDP.model) (k a : nat) (V V' : list R) :
  0 <= MDP.discount m →
  foldR (MDP.sweep_body m) (seq a k) V = Ok V' ↔
    length V' = length V ∧
    (k = 0%nat ∨ a + k <= length V)%nat ∧
    (∀ i, (a <= i < a + k)%nat →
          ∃ v, V' !! i = Some v ∧ Spec.bellman m (take i V' ++ drop i V) i v) ∧
    (∀ i, ¬ (a <= i < a + k)%nat → V' !! i = V !! i).
Proof.
  intros Hd. revert a V. induction k as [|k IH]; intros a V; simpl.
  - split.
    + intros [= <-]. split_and!; [done | by left | lia | done].
    + intros (Hlen & _ & _ & Hout). f_equal. symmetry.
      apply list_eq. intros i. apply Hout. lia.
  - rewrite bind_Ok. split.
    + intros (V1 & (v & Hv & Ha & ->)%sweep_body_Ok & H).
      apply IH in H as (Hlen & Hk & Hin & Hout).
      rewrite length_insert in Hlen, Hk.
      assert (Hpre : take a V' = take a V).
      { apply list_eq. intros j. destruct (decide (j < a)%nat).
        - rewrite !lookup_take_lt by done. rewrite Hout by lia.
          by rewrite list_lookup_insert_ne by lia.
        - by rewrite !lookup_take_ge by lia. }
      split_and!; [done | right; lia | |].
      * intros i Hi. destruct (decide (i = a)) as [->|Hne].
        -- exists v. split.
           ++ rewrite Hout by lia. by rewrite list_lookup_insert_eq.
           ++ rewrite Hpre, take_drop. by apply backup_Ok.
        -- destruct (Hin i) as (w & Hw & Hb); [lia|]. exists w. split; [done|].
           by rewrite drop_insert_lt in Hb by lia.
      * intros i Hi. rewrite Hout by lia.
        by rewrite list_lookup_insert_ne by lia.
    + intros (Hlen & Hk & Hin & Hout).
      destruct (Hin a) as (v & Hv & Hb); [lia|].
      assert (Hpre : take a V' = take a V).
      { apply list_eq. intros j. destruct (decide (j < a)%nat).
        - rewrite !lookup_take_lt by done. apply Hout. lia.
        - by rewrite !lookup_take_ge by lia. }
      rewrite Hpre, take_drop in Hb.
      exists (<[a:=v]> V). split.
      { apply sweep_body_Ok. exists v. split_and!; [by apply backup_Ok | lia | done]. }
      apply IH. rewrite length_insert. split_and!; [done | lia | |].
      * intros i Hi. destruct (Hin i) as (w & Hw & Hbw); [lia|].
        exists w. split; [done|]. by rewrite drop_insert_lt by lia.
      * intros i Hi. destruct (decide (i = a)) as [->|Hne].
        -- rewrite list_lookup_insert_eq by lia. done.
        -- rewrite list_lookup_insert_ne by lia. apply Hout. lia.
Qed.

Lemma sweep_Ok (m : MDP.model) (V V' : list R) :
  0 <= MDP.discount m →
  MDP.sweep m V = Ok V' ↔ Spec.gauss_seidel m V V'.
Proof.
  intros Hd. unfold MDP.sweep, Spec.gauss_seidel. rewrite sweep_range by done.
  split.
  - intros (Hlen & Hk & Hin & Hout). split_and!; [done | lia | |].
    + intros i Hi. apply Hin. lia.
    + intros i Hi. apply Hout. lia.
  - intros (Hlen & Hk & Hin & Hout). split_and!; [done | lia | |].
    + intros i Hi. apply Hin. lia.
    + intros i Hi. apply Hout. lia.
Qed.

Lemma gauss_seidel_unique (m : MDP.model) (V V1 V2 : list R) :
  0 <= MDP.discount m →
  Spec.gauss_seidel m V V1 → Spec.gauss_seidel m V V2 → V1 = V2.
Proof.
  intros Hd H1%sweep_Ok H2%sweep_Ok; [|done..]. congruence.
Qed.

Lemma delta_Ok (V' V : list R) (d : R) :
  MDP.delta V' V = Ok d ↔ Spec.max_change V' V d.
Proof. apply np_max_Ok. Qed.

(** ** The loop of value iteration *)

Lemma vi_loop_Ok (m : MDP.model) (eps : R) (fuel : nat) (V V'' : list R) :
  0 <= MDP.discount m →
  MDP.vi_loop fuel m eps V = Some (Ok V'') ↔
  ∃ k, (k < fuel)%nat ∧ Spec.run m eps V k V''.
Proof.
  intros Hd. revert V. induction fuel as [|fuel IH]; intros V; simpl.
  - split; [done | intros (k & ? & _); lia].
  - destruct (MDP.sweep m V) as [V'|e] eqn:Hs.
    + apply sweep_Ok in Hs; [|done].
      destruct (MDP.delta V' V) as [d|e] eqn:Hdl.
      * apply delta_Ok in Hdl. destruct (Rle_dec d eps) as [Hle|Hgt].
        -- split.
           ++ intros [= <-]. exists 0%nat. split; [lia|]. by econstructor.
           ++ intros (k & _ & Hrun). inversion Hrun as [? V1 d1 Hg1 Hm1 Hd1|? V1 d1 ? ? Hg1 Hm1 Hd1 Hr1]; subst.
              ** by rewrite (gauss_seidel_unique _ _ _ _ Hd Hs Hg1).
              ** rewrite <- (gauss_seidel_unique _ _ _ _ Hd Hs Hg1) in Hm1.
                 rewrite (is_max_unique _ _ _ Hdl Hm1) in Hle. done.
        -- rewrite IH. split.
           ++ intros (k & Hk & Hrun). exists (S k). split; [lia|].
              by econstructor.
           ++ intros (k & Hk & Hrun). inversion Hrun as [? V1 d1 Hg1 Hm1 Hd1|? V1 d1 k' ? Hg1 Hm1 Hd1 Hr1]; subst.
              ** rewrite <- (gauss_seidel_unique _ _ _ _ Hd Hs Hg1) in Hm1.
                 rewrite (is_max_unique _ _ _ Hdl Hm1) in Hgt. done.
              ** exists k'. split; [lia|].
                 by rewrite (gauss_seidel_unique _ _ _ _ Hd Hs Hg1).
      * split; [done|]. intros (k & _ & Hrun).
        assert (∃ d, Spec.max_change V' V d) as [d Hd'].
        { inversion Hrun as [? V1 d1 Hg1 Hm1 Hd1|? V1 d1 ? ? Hg1 Hm1 Hd1 Hr1]; subst;
            rewrite (gauss_seidel_unique _ _ _ _ Hd Hs Hg1); eauto. }
        apply delta_Ok in Hd'. congruence.
    + split; [done|]. intros (k & _ & Hrun).
      assert (∃ V', Spec.gauss_seidel m V V') as [V' HV'].
      { inversion Hrun; eauto. }
      apply sweep_Ok in HV'; [|done]. congruence.
Qed.

(** C2: [valueIteration] starts from the all-zero value vector and returns
    exactly when some number of in-place (Gauss–Seidel) sweeps, each
    assigning r(s) + γ · max_a Σ_{s'} T(s,a,s') · V(s') to the states it
    visits, is followed by a sweep whose largest absolute change against the
    vector from before that sweep is at most ε; every earlier sweep changed
    some value by more than ε, and ε is 0.1 when the argument is omitted. *)
Theorem valueIteration_gauss_seidel (m : MDP.model) (fuel : nat)
    (epsilon : option R) (m' : MDP.model) :
  0 <= MDP.discount m →
  MDP.valueIteration fuel m epsilon = Some (Ok m') ↔
  ∃ k V, (k < fuel)%nat ∧
    Spec.run m (default (1 / 10) epsilon)
      (replicate (length (MDP.s m)) 0) k V ∧
    m' = MDP.set_values m V.
Proof.
  intros Hd. unfold MDP.valueIteration.
  destruct (MDP.vi_loop fuel m _ _) as [[V|e]|] eqn:Hloop.
  - apply vi_loop_Ok in Hloop as (k & Hk & Hrun); [|done]. split.
    + intros [= <-]. eauto.
    + intros (k' & V' & Hk' & Hrun' & ->). do 3 f_equal.
      assert (MDP.vi_loop fuel m (default (1 / 10) epsilon)
                (replicate (length (MDP.s m)) 0) = Some (Ok V')) as H'
        by (apply vi_loop_Ok; eauto).
      assert (MDP.vi_loop fuel m (default (1 / 10) epsilon)
                (replicate (length (MDP.s m)) 0) = Some (Ok V)) as H
        by (apply vi_loop_Ok; eauto).
      congruence.
  - split; [done|]. intros (k & V & Hk & Hrun & _).
    assert (MDP.vi_loop fuel m (default (1 / 10) epsilon)
              (replicate (length (MDP.s m)) 0) = Some (Ok V)) as H
      by (apply vi_loop_Ok; eauto).
    congruence.
  - split; [done|]. intros (k & V & Hk & Hrun & _).
    assert (MDP.vi_loop fuel m (default (1 / 10) epsilon)
              (replicate (length (MDP.s m)) 0) = Some (Ok V)) as H
      by (apply vi_loop_Ok; eauto).
    congruence.
Qed.

(** ** float64 on finite values *)

Lemma Reqb_false (x y : R) : x ≠ y → Reqb x y = false.
Proof. intros H. unfold Reqb. by destruct (Req_dec_T x y). Qed.

Lemma Reqb_true (x : R) : Reqb x x = true.
Proof. unfold Reqb. by destruct (Req_dec_T x x). Qed.

Lemma fdiv_Real (x y : R) : y ≠ 0 → fdiv (Real x) (Real y) = Real (x / y).
Proof. intros H. simpl. by rewrite Reqb_false. Qed.

Lemma fsum_Real (l : list R) : fsum (Real <$> l) = Real (Rsum l).
Proof.
  induction l as [|x l IH]; [done|].
  unfold fsum, Rsum in *. rewrite fmap_cons. simpl. by rewrite IH.
Qed.

Lemma Rsum_pos (l : list R) :
  l ≠ [] → Forall (fun x => 0 < x) l → 0 < Rsum l.
Proof.
  intros Hne HF. destruct HF as [|x l Hx HF]; [done|]. clear Hne.
  unfold Rsum. simpl. enough (0 <= foldr Rplus 0 l) by lra.
  induction HF as [|y l Hy _ IH]; simpl; lra.
Qed.

Lemma Rsum_scale (c : R) (l : list R) :
  Rsum ((fun x => x / c) <$> l) = Rsum l / c.
Proof.
  unfold Rsum. induction l as [|x l IH]; csimpl.
  - unfold Rdiv. lra.
  - rewrite IH. unfold Rdiv. lra.
Qed.

Lemma normalize_Real (l : list R) :
  Rsum l ≠ 0 →
  (fun x => fdiv x (fsum (Real <$> l))) <$> (Real <$> l)
  = Real <$> ((fun x => x / Rsum l) <$> l).
Proof.
  intros H. rewrite fsum_Real, <- !list_fmap_compose.
  apply list_fmap_ext. intros _ x _. simpl. by rewrite Reqb_false.
Qed.

(** ** The softmax *)

Lemma softmax_sum (tau mx : R) (q : list R) :
  q ≠ [] → Rsum (Spec.softmax tau mx q) = 1.
Proof.
  intros Hq. unfold Spec.softmax. rewrite Rsum_scale.
  assert (0 < Rsum ((fun x => exp ((x - mx) / tau)) <$> q)).
  { apply Rsum_pos.
    - by destruct q.
    - apply Forall_fmap, Forall_forall. intros x _. apply exp_pos. }
  field. lra.
Qed.

Lemma exp_max_pos : 0 < exp_max.
Proof. unfold exp_max. lra. Qed.

Lemma Rltb_false (x y : R) : y <= x → Rltb x y = false.
Proof. intros H. unfold Rltb. destruct (Rlt_dec x y); [lra | done]. Qed.

Lemma Rltb_true (x y : R) : x < y → Rltb x y = true.
Proof. intros H. unfold Rltb. destruct (Rlt_dec x y); [done | lra]. Qed.

(** The exponential of a quotient that stays below the overflow. *)
Lemma fexp_fdiv_Real (x tau : R) :
  tau ≠ 0 → x / tau <= exp_max →
  fexp (fdiv (Real x) (Real tau)) = Real (exp (x / tau)).
Proof.
  intros Htau Hx. cbn [fdiv]. rewrite Reqb_false by done.
  cbn [fexp]. by rewrite Rltb_false.
Qed.

(** After the maximum is subtracted and the temperature is positive no
    exponent is above 0. *)
Lemma shifted_nonpos (tau mx : R) (q : list R) :
  0 < tau → Spec.is_max mx q → Forall (fun x => (x - mx) / tau <= 0) q.
Proof.
  intros Htau [_ Hmx]. apply Forall_forall. intros x Hx.
  specialize (Hmx x Hx). simpl.
  assert (0 < / tau) by (by apply Rinv_0_lt_compat). unfold Rdiv. nra.
Qed.

(** The row that [softmax_row] computes when no exponential overflows. *)
Lemma softmax_row_finite (tau mx : R) (q : list R) :
  tau ≠ 0 → Spec.is_max mx q →
  Forall (fun x => (x - mx) / tau <= exp_max) q →
  MDP.softmax_row tau q = Ok (Real <$> Spec.softmax tau mx q).
Proof.
  intros Htau Hmx HF. unfold MDP.softmax_row.
  apply np_max_Ok in Hmx as Hmx'. rewrite Hmx'. cbn [mbind result_bind]. f_equal.
  assert (Hq : q ≠ []).
  { intros ->. destruct Hmx as [Hin _]. by apply elem_of_nil in Hin. }
  assert (He : (fun x => fexp (fdiv (Real x) (Real tau)))
               <$> ((fun x => x - mx) <$> q)
             = Real <$> ((fun x => exp ((x - mx) / tau)) <$> q)).
  { rewrite <- !list_fmap_compose. apply list_fmap_ext. intros i x Hx.
    cbn [compose]. apply fexp_fdiv_Real; [done|].
    by apply (Forall_lookup_1 _ _ _ _ HF Hx). }
  rewrite He. unfold Spec.softmax. apply normalize_Real.
  apply Rgt_not_eq, Rlt_gt, Rsum_pos.
  - by destruct q.
  - apply Forall_fmap, Forall_forall. intros x _. apply exp_pos.
Qed.

Lemma softmax_row_Ok (tau mx : R) (q : list R) :
  0 < tau → Spec.is_max mx q →
  MDP.softmax_row tau q = Ok (Real <$> Spec.softmax tau mx q).
Proof.
  intros Htau Hmx. apply softmax_row_finite; [lra | done |].
  eapply Forall_impl; [by apply shifted_nonpos|].
  intros x Hx. simpl in Hx. pose proof exp_max_pos. lra.
Qed.

Lemma state_policy_Ok (m : MDP.model) (V : list R) (tau : R) (i : nat) :
  shaped m → MDP.values m = Some V → length V = length (MDP.s m) →
  0 < tau → (i < length (MDP.s m) - 1)%nat →
  ∃ ri ti mx,
    MDP.r m !! i = Some ri ∧ MDP.t m !! i = Some ti ∧
    length ti = length (MDP.a m) ∧
    Spec.is_max mx (Spec.action_values m V ri ti) ∧
    MDP.state_policy m tau i
    = Ok (Real <$> Spec.softmax tau mx (Spec.action_values m V ri ti)).
Proof.
  intros (HA & Hr & Ht & Hrows) HV Hlen Htau Hi.
  destruct (lookup_lt_is_Some_2 (MDP.r m) i) as [ri Hri]; [lia|].
  destruct (lookup_lt_is_Some_2 (MDP.t m) i) as [ti Hti]; [lia|].
  destruct (Hrows i ti Hi Hti) as [Hlti HF].
  destruct (is_max_exists (Spec.action_values m V ri ti)) as [mx Hmx].
  { unfold Spec.action_values. destruct ti; [simpl in Hlti; lia | done]. }
  exists ri, ti, mx. split_and!; [done..|].
  unfold MDP.state_policy.
  apply index_Ok in Hri as ->. apply index_Ok in Hti as ->. rewrite HV.
  cbn [mbind result_bind from_option].
  assert (Hdot : np_dot ti V = Ok (Spec.expected V <$> ti)).
  { apply np_dot_Ok. split; [|done]. by rewrite Hlen. }
  rewrite Hdot. cbn [mbind result_bind]. rewrite <- list_fmap_compose.
  by apply softmax_row_Ok.
Qed.

(** The loop of [extractPolicy] over the states [a, ..., a+k-1]. *)
Lemma policy_range (m : MDP.model) (tau : R) (k a : nat)
    (P0 : list (list npfloat)) :
  (a + k <= length P0)%nat →
  (∀ i, (a <= i < a + k)%nat →
     ∃ row, MDP.state_policy m tau i = Ok row ∧
            length row = length (MDP.a m)) →
  ∃ P, foldR (MDP.policy_body m tau) (seq a k) P0 = Ok P ∧
       length P = length P0 ∧
       (∀ i, (a <= i < a + k)%nat →
          ∃ row, MDP.state_policy m tau i = Ok row ∧ P !! i = Some row) ∧
       (∀ i, ¬ (a <= i < a + k)%nat → P !! i = P0 !! i).
Proof.
  revert a P0. induction k as [|k IH]; intros a P0 Hlen Hrows; cbn [foldR seq].
  - exists P0. split_and!; [done | done | lia | done].
  - destruct (Hrows a) as (row & Hrow & Hlrow); [lia|].
    destruct (IH (S a) (<[a:=row]> P0)) as (P & HP & HlP & Hin & Hout).
    { rewrite length_insert. lia. }
    { intros i Hi. apply Hrows. lia. }
    exists P. rewrite length_insert in HlP. split_and!; [|done| |].
    + assert (MDP.policy_body m tau P0 a = Ok (<[a:=row]> P0)) as ->; [|done].
      unfold MDP.policy_body. rewrite Hrow. cbn [mbind result_bind].
      unfold MDP.assign_row. by rewrite decide_True by done.
    + intros i Hi. destruct (decide (i = a)) as [->|Hne].
      * exists row. split; [done|]. rewrite Hout by lia.
        apply list_lookup_insert_eq. lia.
      * apply Hin. lia.
    + intros i Hi. rewrite Hout by lia. apply list_lookup_insert_ne. lia.
Qed.

Lemma extractPolicy_total (m : MDP.model) (V : list R) (tau : R) :
  shaped m → MDP.values m = Some V → length V = length (MDP.s m) →
  0 < tau →
  ∃ P, MDP.extractPolicy m (Some tau) = Ok (MDP.set_policy m P) ∧
    length P = length (MDP.s m) ∧
    ∀ i, (i < length (MDP.s m) - 1)%nat →
      ∃ row, MDP.state_policy m tau i = Ok row ∧ P !! i = Some row.
Proof.
  intros Hsh HV Hlen Htau.
  destruct (policy_range m tau (length (MDP.s m) - 1) 0
              (replicate (length (MDP.s m))
                 (replicate (length (MDP.a m)) (Real 0))))
    as (P & HP & HlP & Hin & _).
  { rewrite length_replicate. lia. }
  { intros i Hi.
    destruct (state_policy_Ok m V tau i) as (ri & ti & mx & _ & _ & Hl & _ & ->);
      [done.. | lia |].
    eexists. split; [done|].
    unfold Spec.softmax, Spec.action_values. by rewrite !length_fmap. }
  rewrite length_replicate in HlP.
  exists P. split_and!; [|done|].
  - unfold MDP.extractPolicy. simpl. by rewrite HP.
  - intros i Hi. apply Hin. lia.
Qed.

(** C7: with values in place and a positive temperature, [extractPolicy]
    returns, and the policy it stores holds, for every state it processes
    (every state but the last one, the state for which the betting game's
    [isTerminal] holds), the softmax of
    Q(s,a) = r(s) + γ · Σ_{s'} T(s,a,s') · V(s'), stabilised by subtracting
    the maximum: no exponent is above 0, so that [np.exp] cannot overflow
    however large the action values are, every entry is finite and each
    such row sums to 1. *)
Theorem extractPolicy_softmax (m : MDP.model) (V : list R) (tau : R) :
  shaped m → MDP.values m = Some V → length V = length (MDP.s m) →
  0 < tau →
  ∃ m2 P, MDP.extractPolicy m (Some tau) = Ok m2 ∧
    MDP.policy m2 = Some P ∧ MDP.values m2 = Some V ∧
    length P = length (MDP.s m) ∧
    ∀ i, (i < length (MDP.s m) - 1)%nat →
      ∃ ri ti mx row,
        MDP.r m !! i = Some ri ∧ MDP.t m !! i = Some ti ∧
        Spec.is_max mx (Spec.action_values m V ri ti) ∧
        Forall (fun q => (q - mx) / tau <= 0)
          (Spec.action_values m V ri ti) ∧
        P !! i = Some row ∧
        row = Real <$> Spec.softmax tau mx (Spec.action_values m V ri ti) ∧
        fsum row = Real 1.
Proof.
  intros Hsh HV Hlen Htau.
  destruct (extractPolicy_total m V tau) as (P & HP & HlP & Hrows); [done..|].
  exists (MDP.set_policy m P), P. split_and!; [done..|]. intros i Hi.
  destruct (state_policy_Ok m V tau i)
    as (ri & ti & mx & Hri & Hti & Hl & Hmx & Hsp); [done..|].
  destruct (Hrows i Hi) as (row & Hrow & HPi).
  exists ri, ti, mx, row. rewrite Hsp in Hrow. injection Hrow as <-.
  split_and!; [done | done | done | by apply shifted_nonpos | done | done |].
  rewrite fsum_Real, softmax_sum; [done|].
  unfold Spec.action_values. destruct ti; [|done].
  destruct Hsh as (HA & _). simpl in Hl. lia.
Qed.

(** The subtraction of the maximum shows in the result: for the action
    values 800 and 0 at temperature 1 the row is finite and sums to 1,
    whereas the exponentials of the values as they are sum to [inf]. *)
Lemma softmax_shift_matters :
  (∃ row, MDP.softmax_row 1 [800; 0] = Ok (Real <$> row) ∧ Rsum row = 1) ∧
  fsum ((fun x => fexp (fdiv (Real x) (Real 1))) <$> [800; 0]) = PInf.
Proof.
  split.
  - exists (Spec.softmax 1 800 [800; 0]). split.
    + apply softmax_row_Ok; [lra|]. split; [by left|].
      intros z [->|[->|[]%elem_of_nil]%elem_of_cons]%elem_of_cons; lra.
    + by apply softmax_sum.
  - cbn [fmap list_fmap fdiv]. rewrite !Reqb_false by lra. cbn [fexp].
    rewrite Rltb_true by (unfold exp_max; lra).
    rewrite Rltb_false by (unfold exp_max; lra). done.
Qed.

(** ** Running the solver on the small model *)

Ltac eval_Rmax :=
  repeat match goal with
  | |- context [Rabs ?x] =>
      first [rewrite (Rabs_right x) by lra | rewrite (Rabs_left x) by lra]
  | |- context [Rmax ?x ?y] =>
      first [rewrite (Rmax_left x y) by lra | rewrite (Rmax_right x y) by lra]
  | |- context [Rle_dec ?x ?y] =>
      destruct (Rle_dec x y); [try lra | try lra]
  end.

Lemma toy_sweep (a b : R) :
  MDP.sweep toy [a; b; 0] = Ok [1; 95 / 100; 0].
Proof.
  unfold MDP.sweep, MDP.sweep_body, MDP.backup. simpl.
  unfold dot. simpl. unfold Rsum; simpl.
  repeat f_equal; eval_Rmax; lra.
Qed.

Lemma toy_valueIteration :
  MDP.valueIteration 2 toy None = Some (Ok toy_solved).
Proof.
  unfold MDP.valueIteration. simpl length. simpl replicate. simpl default.
  unfold MDP.vi_loop. rewrite !toy_sweep.
  unfold MDP.delta. simpl. by eval_Rmax.
Qed.

Lemma toy_shaped : shaped toy_solved.
Proof.
  split_and!; simpl; [lia..|].
  intros i ti Hi Hti.
  destruct i as [|[|i]]; [| |lia]; injection Hti as <-;
    (split; [done | by repeat constructor]).
Qed.

Lemma valueIteration_witness :
  0 <= MDP.discount toy ∧
  (MDP.valueIteration 2 toy None = Some (Ok toy_solved) ↔
   ∃ k V, (k < 2)%nat ∧
     Spec.run toy (1 / 10) (replicate (length (MDP.s toy)) 0) k V ∧
     toy_solved = MDP.set_values toy V).
Proof.
  assert (H : 0 <= MDP.discount toy) by (simpl; lra).
  split; [exact H|].
  exact (valueIteration_gauss_seidel toy 2 None toy_solved H).
Defined.

Lemma extractPolicy_witness :
  ∃ m2 P, MDP.extractPolicy toy_solved (Some (1 / 10)) = Ok m2 ∧
    MDP.policy m2 = Some P ∧ MDP.values m2 = Some [1; 95 / 100; 0] ∧
    length P = length (MDP.s toy_solved) ∧
    ∀ i, (i < length (MDP.s toy_solved) - 1)%nat →
      ∃ ri ti mx row,
        MDP.r toy_solved !! i = Some ri ∧ MDP.t toy_solved !! i = Some ti ∧
        Spec.is_max mx
          (Spec.action_values toy_solved [1; 95 / 100; 0] ri ti) ∧
        Forall (fun q => (q - mx) / (1 / 10) <= 0)
          (Spec.action_values toy_solved [1; 95 / 100; 0] ri ti) ∧
        P !! i = Some row ∧
        row = Real <$> Spec.softmax (1 / 10) mx
                (Spec.action_values toy_solved [1; 95 / 100; 0] ri ti) ∧
        fsum row = Real 1.
Proof.
  apply (extractPolicy_softmax toy_solved [1; 95 / 100; 0] (1 / 10)).
  - exact toy_shaped.
  - reflexivity.
  - reflexivity.
  - lra.
Defined.

(** ** What the loops leave alone *)

Lemma sweep_frame (m : MDP.model) (k a : nat) (V V' : list R) (i : nat) :
  foldR (MDP.sweep_body m) (seq a k) V = Ok V' →
  ¬ (a <= i < a + k)%nat → V' !! i = V !! i.
Proof.
  revert a V. induction k as [|k IH]; intros a V; cbn [foldR seq].
  - by intros [= <-].
  - intros (V1 & (v & _ & _ & ->)%sweep_body_Ok & H)%bind_Ok Hi.
    rewrite (IH _ _ H) by lia. apply list_lookup_insert_ne. lia.
Qed.

Lemma sweep_length (m : MDP.model) (k a : nat) (V V' : list R) :
  foldR (MDP.sweep_body m) (seq a k) V = Ok V' → length V' = length V.
Proof.
  revert a V. induction k as [|k IH]; intros a V; cbn [foldR seq].
  - by intros [= <-].
  - intros (V1 & (v & _ & _ & ->)%sweep_body_Ok & H)%bind_Ok.
    rewrite (IH _ _ H). apply length_insert.
Qed.

Lemma sweep_last (m : MDP.model) (V V' : list R) :
  MDP.sweep m V = Ok V' →
  V' !! (length (MDP.s m) - 1)%nat = V !! (length (MDP.s m) - 1)%nat.
Proof. intros H. apply (sweep_frame _ _ _ _ _ _ H). lia. Qed.

Lemma vi_loop_last (m : MDP.model) (eps : R) (fuel : nat) (V V' : list R) (x : R) :
  MDP.vi_loop fuel m eps V = Some (Ok V') →
  V !! (length (MDP.s m) - 1)%nat = Some x →
  V' !! (length (MDP.s m) - 1)%nat = Some x.
Proof.
  revert V. induction fuel as [|fuel IH]; intros V; simpl; [done|].
  destruct (MDP.sweep m V) as [V1|e] eqn:Hs; [|done].
  destruct (MDP.delta V1 V) as [d|e]; [|done].
  apply sweep_last in Hs. destruct (Rle_dec d eps).
  - intros [= <-] HV. by rewrite Hs.
  - intros H HV. apply (IH _ H). by rewrite Hs.
Qed.

Lemma vi_loop_length (m : MDP.model) (eps : R) (fuel : nat) (V V' : list R) :
  MDP.vi_loop fuel m eps V = Some (Ok V') → length V' = length V.
Proof.
  revert V. induction fuel as [|fuel IH]; intros V; simpl; [done|].
  destruct (MDP.sweep m V) as [V1|e] eqn:Hs; [|done].
  destruct (MDP.delta V1 V) as [d|e]; [|done].
  apply sweep_length in Hs. destruct (Rle_dec d eps).
  - by intros [= <-].
  - intros H. by rewrite (IH _ H).
Qed.

Lemma assign_row_Ok (w : nat) (P P' : list (list npfloat)) (i : nat)
    (row : list npfloat) :
  MDP.assign_row w P i row = Ok P' → ∃ row', P' = <[i:=row']> P.
Proof.
  unfold MDP.assign_row. case_decide.
  - intros [= <-]. eauto.
  - destruct row as [|x [|y row]]; [done | | done]. intros [= <-]. eauto.
Qed.

Lemma policy_frame (m : MDP.model) (tau : R) (k a : nat)
    (P0 P : list (list npfloat)) (i : nat) :
  foldR (MDP.policy_body m tau) (seq a k) P0 = Ok P →
  ¬ (a <= i < a + k)%nat → P !! i = P0 !! i.
Proof.
  revert a P0. induction k as [|k IH]; intros a P0; cbn [foldR seq].
  - by intros [= <-].
  - intros (P1 & H1 & H)%bind_Ok Hi.
    unfold MDP.policy_body in H1.
    apply bind_Ok in H1 as (row & _ & (row' & ->)%assign_row_Ok).
    rewrite (IH _ _ H) by lia. apply list_lookup_insert_ne. lia.
Qed.

Lemma valueIteration_last (m m1 : MDP.model) (fuel : nat) (eps : option R) :
  MDP.valueIteration fuel m eps = Some (Ok m1) →
  ∃ V, m1 = MDP.set_values m V ∧ length V = length (MDP.s m) ∧
       (1 <= length (MDP.s m))%nat ∧
       V !! (length (MDP.s m) - 1)%nat = Some 0.
Proof.
  unfold MDP.valueIteration.
  destruct (MDP.vi_loop _ _ _ _) as [[V|e]|] eqn:Hl; [|done..].
  intros [= <-]. exists V.
  pose proof (vi_loop_length _ _ _ _ _ Hl) as Hlen.
  rewrite length_replicate in Hlen.
  assert (1 <= length (MDP.s m))%nat as Hn.
  { destruct (decide (length (MDP.s m) = 0%nat)) as [Hn|]; [|lia]. exfalso.
    destruct fuel; [done|]. cbn [MDP.vi_loop] in Hl.
    unfold MDP.sweep in Hl. rewrite Hn in Hl. simpl in Hl. done. }
  split_and!; [done..|].
  apply (vi_loop_last _ _ _ _ _ _ Hl). apply lookup_replicate_2. lia.
Qed.

Lemma extractPolicy_last (m m2 : MDP.model) (tau : option R) :
  MDP.extractPolicy m tau = Ok m2 →
  ∃ P, m2 = MDP.set_policy m P ∧
       ((1 <= length (MDP.s m))%nat →
        P !! (length (MDP.s m) - 1)%nat
        = Some (replicate (length (MDP.a m)) (Real 0))).
Proof.
  unfold MDP.extractPolicy.
  intros (P & HP & [= <-])%bind_Ok. exists P. split; [done|]. intros Hn.
  rewrite (policy_frame _ _ _ _ _ _ _ HP) by lia.
  apply lookup_replicate_2. lia.
Qed.

Lemma is_max_pair_l (x y : R) : y <= x → Spec.is_max x [x; y].
Proof.
  intros H. split; [by left|].
  intros z [->|[->|[]%elem_of_nil]%elem_of_cons]%elem_of_cons; lra.
Qed.

Lemma toy_state_policy_0 (tau : R) :
  0 < tau →
  MDP.state_policy toy_solved tau 0 = Ok (Real <$> Spec.softmax tau 1 [1; 1]).
Proof.
  intros Htau.
  rewrite <- (softmax_row_Ok tau 1 [1; 1]) by (done || apply is_max_pair_l; lra).
  unfold MDP.state_policy. cbn -[MDP.softmax_row]. unfold dot.
  cbn -[MDP.softmax_row]. f_equal. unfold Rsum. simpl. repeat f_equal; lra.
Qed.

Lemma toy_state_policy_1 (tau : R) :
  0 < tau →
  MDP.state_policy toy_solved tau 1
  = Ok (Real <$> Spec.softmax tau (95 / 100) [95 / 100; 0]).
Proof.
  intros Htau.
  rewrite <- (softmax_row_Ok tau (95 / 100) [95 / 100; 0])
    by (done || apply is_max_pair_l; lra).
  unfold MDP.state_policy. cbn -[MDP.softmax_row]. unfold dot.
  cbn -[MDP.softmax_row]. f_equal. unfold Rsum. simpl. repeat f_equal; lra.
Qed.

Lemma toy_extractPolicy (tau : R) :
  0 < tau →
  MDP.extractPolicy toy_solved (Some tau)
  = Ok (MDP.set_policy toy_solved (toy_policy tau)).
Proof.
  intros Htau. unfold MDP.extractPolicy.
  cbn [default length MDP.s MDP.a toy_solved toy MDP.set_values MDP.init
       Nat.sub seq replicate foldR].
  unfold MDP.policy_body.
  rewrite toy_state_policy_0, toy_state_policy_1 by done.
  reflexivity.
Qed.

(** ** The default temperature *)

(** C8, as the code has it: [extractPolicy] called without a temperature
    computes the softmax of every processed state with τ = 0.1. *)
Theorem extractPolicy_default_tau (m : MDP.model) (V : list R) :
  shaped m → MDP.values m = Some V → length V = length (MDP.s m) →
  MDP.extractPolicy m None = MDP.extractPolicy m (Some (1 / 10)) ∧
  ∃ P, MDP.extractPolicy m None = Ok (MDP.set_policy m P) ∧
    ∀ i, (i < length (MDP.s m) - 1)%nat →
      ∃ ri ti mx,
        MDP.r m !! i = Some ri ∧ MDP.t m !! i = Some ti ∧
        Spec.is_max mx (Spec.action_values m V ri ti) ∧
        P !! i = Some (Real <$> Spec.softmax (1 / 10) mx
                                  (Spec.action_values m V ri ti)).
Proof.
  intros Hsh HV Hlen. split; [done|].
  destruct (extractPolicy_total m V (1 / 10)) as (P & HP & _ & Hrows);
    [done.. | lra |].
  exists P. split; [done|]. intros i Hi.
  destruct (state_policy_Ok m V (1 / 10) i)
    as (ri & ti & mx & Hri & Hti & _ & Hmx & Hsp); [done.. | lra | done |].
  destruct (Hrows i Hi) as (row & Hrow & HPi).
  rewrite Hsp in Hrow. injection Hrow as <-. by exists ri, ti, mx.
Qed.

Lemma extractPolicy_default_tau_witness :
  MDP.extractPolicy toy_solved None
  = MDP.extractPolicy toy_solved (Some (1 / 10)) ∧
  ∃ P, MDP.extractPolicy toy_solved None = Ok (MDP.set_policy toy_solved P) ∧
    ∀ i, (i < length (MDP.s toy_solved) - 1)%nat →
      ∃ ri ti mx,
        MDP.r toy_solved !! i = Some ri ∧ MDP.t toy_solved !! i = Some ti ∧
        Spec.is_max mx
          (Spec.action_values toy_solved [1; 95 / 100; 0] ri ti) ∧
        P !! i = Some (Real <$> Spec.softmax (1 / 10) mx
                         (Spec.action_values toy_solved [1; 95 / 100; 0] ri ti)).
Proof.
  apply (extractPolicy_default_tau toy_solved [1; 95 / 100; 0]).
  - exact toy_shaped.
  - reflexivity.
  - reflexivity.
Defined.

(** C8 as stated fails: on the small model the call without a temperature
    and the call with τ = 1 give different policies. *)
Lemma default_tau_is_not_one :
  MDP.extractPolicy toy_solved None ≠ MDP.extractPolicy toy_solved (Some 1).
Proof.
  change (MDP.extractPolicy toy_solved None)
    with (MDP.extractPolicy toy_solved (Some (1 / 10))).
  rewrite !toy_extractPolicy by lra. intros H.
  apply (f_equal (fun res => match res with
                             | Ok m =>
                                 P ← MDP.policy m;
                                 row ← (P : list (list npfloat)) !! 1%nat;
                                 (row : list npfloat) !! 0%nat
                             | Raise _ => None
                             end)) in H.
  unfold Spec.softmax, Rsum in H. simpl in H. injection H as H.
  replace ((95 / 100 - 95 / 100) / (1 / 10)) with 0 in H by lra.
  replace ((95 / 100 - 95 / 100) / 1) with 0 in H by lra.
  rewrite exp_0 in H.
  assert (Hlt : exp ((0 - 95 / 100) / (1 / 10)) < exp ((0 - 95 / 100) / 1))
    by (apply exp_increasing; lra).
  pose proof (exp_pos ((0 - 95 / 100) / (1 / 10))) as H1.
  pose proof (exp_pos ((0 - 95 / 100) / 1)) as H2.
  set (e1 := exp ((0 - 95 / 100) / (1 / 10))) in *.
  set (e2 := exp ((0 - 95 / 100) / 1)) in *.
  assert (1 + (e1 + 0) = 1 + (e2 + 0)); [|lra].
  apply Rinv_eq_reg. unfold Rdiv in H. lra.
Qed.

(** ** The betting game *)

Lemma dead_row_length : length BettingGame.dead_row = 102%nat.
Proof. unfold BettingGame.dead_row. by rewrite length_insert, length_replicate. Qed.

Lemma tensor_shape (p : R) :
  length (BettingGame.tensor p) = 102%nat ∧ Forall block_ok (BettingGame.tensor p).
Proof.
  unfold BettingGame.tensor, BettingGame.arange. split.
  - by rewrite !length_fmap, length_seq.
  - apply Forall_fmap, Forall_forall. intros x _. split.
    + by rewrite !length_fmap, length_seq.
    + apply Forall_fmap, Forall_forall. intros y _. unfold compose.
      by rewrite !length_fmap, length_seq.
Qed.

Lemma insert_dead_row_ok (ti : list (list R)) (x : nat) :
  block_ok ti → block_ok (<[x:=BettingGame.dead_row]> ti).
Proof.
  intros [Hl HF]. split.
  - by rewrite length_insert.
  - apply Forall_insert; [done | apply dead_row_length].
Qed.

Lemma redirect_shape (T : list (list (list R))) (x : nat) :
  Forall block_ok T → Forall block_ok (BettingGame.redirect T x).
Proof.
  intros HF. unfold BettingGame.redirect.
  apply Forall_alter; [apply Forall_alter; [done|] |];
    intros ti _ Hti; by apply insert_dead_row_ok.
Qed.

Lemma redirect_all_shape (l : list nat) (T : list (list (list R))) :
  Forall block_ok T →
  length (foldl BettingGame.redirect T l) = length T ∧
  Forall block_ok (foldl BettingGame.redirect T l).
Proof.
  revert T. induction l as [|x l IH]; intros T HF; [done|]. simpl.
  destruct (IH (BettingGame.redirect T x)) as [Hl HF'].
  { by apply redirect_shape. }
  split; [|done]. rewrite Hl. unfold BettingGame.redirect.
  by rewrite !length_alter.
Qed.

Lemma game_lengths (p : R) :
  length (MDP.s (game p)) = 102%nat ∧ length (MDP.a (game p)) = 101%nat ∧
  length (MDP.r (game p)) = 101%nat ∧ length (MDP.t (game p)) = 102%nat.
Proof.
  unfold game.
  cbn [BettingGame.mdp BettingGame.setBettingGame MDP.s MDP.a MDP.r MDP.t].
  unfold BettingGame.arange, BettingGame.rewards.
  rewrite !length_fmap, !length_seq, !length_insert, length_replicate.
  split_and!; [done..|].
  destruct (tensor_shape p) as [Hl HF].
  destruct (redirect_all_shape (seq 0 101) _ HF) as [-> _]. done.
Qed.

Lemma game_shaped (p : R) (V : option (list R)) :
  shaped (MDP.mk (MDP.s (game p)) (MDP.a (game p)) (MDP.r (game p))
            (MDP.t (game p)) (MDP.discount (game p)) V None).
Proof.
  destruct (game_lengths p) as (Hs & Ha & Hr & Ht).
  unfold shaped. cbn [MDP.s MDP.a MDP.r MDP.t]. rewrite Hs, Ha, Hr, Ht.
  split_and!; [lia..|]. intros i ti Hi Hti.
  destruct (tensor_shape p) as [_ HF].
  destruct (redirect_all_shape (seq 0 101) _ HF) as [_ HF'].
  rewrite Forall_lookup in HF'. by destruct (HF' i ti Hti).
Qed.

Lemma redirect_other (l : list nat) (T : list (list (list R))) (x : nat) :
  x ≠ 0%nat → x ≠ 100%nat →
  foldl BettingGame.redirect T l !! x = T !! x.
Proof.
  intros H0 H100. revert T. induction l as [|y l IH]; intros T; [done|].
  simpl. rewrite IH. unfold BettingGame.redirect.
  by rewrite !list_lookup_alter_ne by done.
Qed.

Lemma tensor_lookup (p : R) (x : nat) :
  (x < 102)%nat →
  BettingGame.tensor p !! x
  = Some ((fun y => (fun z => BettingGame.tHelper (Z.of_nat x) y z p)
                      <$> BettingGame.arange 102) <$> BettingGame.arange 101).
Proof.
  intros Hx. unfold BettingGame.tensor, BettingGame.arange at 3.
  rewrite !list_lookup_fmap, lookup_seq_lt by done. done.
Qed.

(** The transition row of state [x] and action [y], for a state other than
    the two end-game ones. *)
Lemma game_row (p : R) (x y : nat) :
  x ≠ 0%nat → x ≠ 100%nat → (x < 102)%nat → (y < 101)%nat →
  MDP.getTransitionStatesAndProbs (game p) x y
  = Ok ((fun z => BettingGame.tHelper (Z.of_nat x) (Z.of_nat y) z p)
          <$> BettingGame.arange 102).
Proof.
  intros H0 H100 Hx Hy. unfold MDP.getTransitionStatesAndProbs, index.
  cbn [game BettingGame.mdp BettingGame.setBettingGame MDP.t].
  rewrite redirect_other, tensor_lookup by done. cbn [mbind result_bind].
  unfold BettingGame.arange at 2.
  rewrite !list_lookup_fmap, lookup_seq_lt by done. done.
Qed.

Lemma dead_state_rows (pHeads : R) :
  (∃ row, MDP.getTransitionStatesAndProbs (game pHeads) 101 0 = Ok row ∧
          Rsum row = 1 + pHeads) ∧
  (∃ row, MDP.getTransitionStatesAndProbs (game pHeads) 101 1 = Ok row ∧
          Rsum row = 1 - pHeads).
Proof.
  split; (eexists; split; [apply game_row; lia|]);
    vm_compute BettingGame.arange; cbn [fmap list_fmap];
    unfold BettingGame.tHelper; simpl; unfold Rsum; simpl; lra.
Qed.

(** ** Sweeps that cannot fail *)

Lemma backup_total (m : MDP.model) (V : list R) (i : nat) :
  shaped m → length V = length (MDP.s m) →
  (i < length (MDP.s m) - 1)%nat →
  ∃ v, MDP.backup m V i = Ok v.
Proof.
  intros (HA & Hr & Ht & Hrows) Hlen Hi.
  destruct (lookup_lt_is_Some_2 (MDP.r m) i) as [ri Hri]; [lia|].
  destruct (lookup_lt_is_Some_2 (MDP.t m) i) as [ti Hti]; [lia|].
  destruct (Hrows i ti Hi Hti) as [Hlti HF].
  unfold MDP.backup.
  apply index_Ok in Hri as ->. apply index_Ok in Hti as ->.
  cbn [mbind result_bind].
  assert (Hdot : np_dot ti V = Ok (Spec.expected V <$> ti)).
  { apply np_dot_Ok. split; [|done]. by rewrite Hlen. }
  rewrite Hdot. cbn [mbind result_bind].
  destruct ti as [|row ti]; [simpl in Hlti; lia|].
  rewrite !fmap_cons. cbn [np_max mbind result_bind]. eauto.
Qed.

Lemma sweep_range_total (m : MDP.model) (k a : nat) (V : list R) :
  shaped m → length V = length (MDP.s m) →
  (a + k <= length (MDP.s m) - 1)%nat →
  ∃ V', foldR (MDP.sweep_body m) (seq a k) V = Ok V'.
Proof.
  intros Hsh. revert a V. induction k as [|k IH]; intros a V Hlen Hk;
    cbn [foldR seq]; [eauto|].
  destruct (backup_total m V a) as [v Hv]; [done | done | lia |].
  assert (MDP.sweep_body m V a = Ok (<[a:=v]> V)) as ->.
  { apply sweep_body_Ok. exists v. split_and!; [done | lia | done]. }
  cbn [mbind result_bind]. apply IH; [by rewrite length_insert | lia].
Qed.

Lemma sweep_total (m : MDP.model) (V : list R) :
  shaped m → length V = length (MDP.s m) → ∃ V', MDP.sweep m V = Ok V'.
Proof. intros Hsh Hlen. apply sweep_range_total; [done | done | lia]. Qed.

Lemma expected_zeros (n : nat) (row : list R) :
  Spec.expected (replicate n 0) row = 0.
Proof.
  unfold Spec.expected, Rsum. revert n.
  induction row as [|x row IH]; intros [|n]; simpl; try done.
  rewrite IH. lra.
Qed.

(** ** Which states the solver leaves out *)

(** C3 as stated fails: state 0 of the betting game is not left out of the
    backup loop; the first sweep takes its value from 0 to -10. *)
Lemma end_states_swept : ¬ excluded_from_backup (game (1 / 2)) 0.
Proof.
  intros Hex. pose proof (game_shaped (1 / 2) None) as Hsh.
  destruct (game_lengths (1 / 2)) as (Hs & Ha & Hr & Ht).
  destruct (sweep_total (game (1 / 2)) (replicate 102 0)) as [V' HV'];
    [done | by rewrite length_replicate, Hs |].
  pose proof (Hex _ _ (eq_trans (length_replicate _ _) (eq_sym Hs)) HV') as H0.
  apply sweep_Ok in HV' as (_ & _ & Hin & _); [|simpl; lra].
  destruct (Hin 0%nat) as (v & Hv & Hb); [rewrite Hs; lia|].
  rewrite Hv, lookup_replicate_2 in H0 by lia. injection H0 as H0.
  destruct Hb as [ri ti mx Hri Hti HF [Hmx _]].
  injection Hri as <-.
  apply list_elem_of_fmap in Hmx as (row & Hrow & _).
  rewrite take_0, drop_0, app_nil_l in Hrow. rewrite expected_zeros in Hrow.
  rewrite Hrow in H0. simpl in H0. lra.
Qed.

(** ** The rewards of the betting game *)

(** C9 as stated fails: 101 is a state of the betting game, and reading its
    reward raises [IndexError]. *)
Lemma no_reward_for_dead_state :
  MDP.s (game (1 / 2)) !! 101%nat = Some 101%Z ∧
  MDP.getReward (game (1 / 2)) 101 = Raise IndexError.
Proof. split; reflexivity. Qed.

(** C9, as the code has it: the reward array has an entry for each of the
    states 0 to 100, -10 for state 0, 100 for state 100 and 0 for the
    others, and none for the last state, 101. *)
Theorem rewards_defined_below_101 (pHeads : R) (state : nat) :
  length (MDP.s (game pHeads)) = 102%nat ∧
  length (MDP.r (game pHeads)) = 101%nat ∧
  ((state < 101)%nat →
     MDP.getReward (game pHeads) state
     = Ok (if decide (state = 0%nat) then -10
           else if decide (state = 100%nat) then 100 else 0)) ∧
  ((101 <= state)%nat →
     MDP.getReward (game pHeads) state = Raise IndexError).
Proof.
  destruct (game_lengths pHeads) as (Hs & _ & Hr & _).
  split_and!; [done | done | |].
  - intros Hst. unfold MDP.getReward. apply index_Ok.
    cbn [game BettingGame.mdp BettingGame.setBettingGame MDP.r].
    unfold BettingGame.rewards.
    repeat case_decide; subst.
    + done.
    + rewrite list_lookup_insert_eq; [done|].
      by rewrite length_insert, length_replicate.
    + rewrite !list_lookup_insert_ne by done.
      by apply lookup_replicate_2.
  - intros Hst. unfold MDP.getReward, index.
    by rewrite lookup_ge_None_2 by lia.
Qed.

(** ** The inference machine *)

Lemma Rsum_nonneg (l : list R) : Forall (fun x => 0 <= x) l → 0 <= Rsum l.
Proof. unfold Rsum. induction 1; simpl; lra. Qed.

Lemma Rsum_pos_elem (l : list R) (i : nat) (x : R) :
  Forall (fun x => 0 <= x) l → l !! i = Some x → 0 < x → 0 < Rsum l.
Proof.
  intros HF. revert i. induction HF as [|y l Hy HF IH]; intros i Hi Hx; [done|].
  unfold Rsum in *. simpl. destruct i as [|i]; simpl in Hi.
  - injection Hi as ->. pose proof (Rsum_nonneg l HF). unfold Rsum in *. lra.
  - specialize (IH i Hi Hx). lra.
Qed.

Lemma Rsum_zero (l : list R) : Forall (fun x => x = 0) l → Rsum l = 0.
Proof. unfold Rsum. induction 1; simpl; lra. Qed.

Lemma zip_with_fmul_Real (l k : list R) :
  zip_with fmul (Real <$> l) (Real <$> k) = Real <$> zip_with Rmult l k.
Proof.
  revert k. induction l as [|x l IH]; intros [|y k]; csimpl; try done.
  by rewrite IH.
Qed.

Lemma normalize_Real_ne (q : list R) :
  Rsum q ≠ 0 →
  InferenceMachine.normalize (Real <$> q) = Real <$> ((fun x => x / Rsum q) <$> q).
Proof. apply normalize_Real. Qed.

Lemma normalize_zero (q : list R) :
  Forall (fun x => x = 0) q →
  InferenceMachine.normalize (Real <$> q) = replicate (length q) NaN.
Proof.
  intros HF. unfold InferenceMachine.normalize. rewrite fsum_Real, (Rsum_zero q HF).
  induction HF as [|x q -> HF IH]; [done|]. csimpl.
  rewrite IH. simpl. by rewrite Reqb_true.
Qed.

(** The abscissae of the prior. *)
Lemma prior_grid_lookup (i : nat) :
  (i < 101)%nat →
  InferenceMachine.prior_grid !! i = Some (1 / 100 + INR i * (99 / 10000)).
Proof.
  intros Hi. unfold InferenceMachine.prior_grid, InferenceMachine.linspace.
  rewrite list_lookup_fmap, lookup_seq_lt by done. simpl. do 2 f_equal.
  change (INR (101 - 1)) with (INR 100).
  replace (INR 100) with 100 by (rewrite INR_IZR_INZ; done). lra.
Qed.

Lemma bias_grid_lookup (i : nat) :
  (i < 101)%nat → InferenceMachine.bias_grid !! i = Some (INR i * (1 / 100)).
Proof.
  intros Hi. unfold InferenceMachine.bias_grid.
  by rewrite list_lookup_fmap, lookup_seq_lt by done.
Qed.

Section Prior.

Variable B : R.
Hypothesis B_pos : 0 < B.

Lemma beta_pdf_nonneg (a b x : R) : 0 <= InferenceMachine.beta_pdf B a b x.
Proof.
  unfold InferenceMachine.beta_pdf. destruct (Rlt_dec 0 x); [|lra]. destruct (Rlt_dec x 1); [|lra].
  unfold Rpower. pose proof (exp_pos ((a - 1) * ln x)).
  pose proof (exp_pos ((b - 1) * ln (1 - x))).
  apply Rlt_le, Rdiv_lt_0_compat; [nra | done].
Qed.

Lemma beta_pdf_pos (a b x : R) : 0 < x < 1 → 0 < InferenceMachine.beta_pdf B a b x.
Proof.
  intros [H0 H1]. unfold InferenceMachine.beta_pdf.
  destruct (Rlt_dec 0 x); [|lra]. destruct (Rlt_dec x 1); [|lra].
  unfold Rpower. pose proof (exp_pos ((a - 1) * ln x)).
  pose proof (exp_pos ((b - 1) * ln (1 - x))).
  apply Rdiv_lt_0_compat; [nra | done].
Qed.

Lemma beta_pdf_one (a b : R) : InferenceMachine.beta_pdf B a b 1 = 0.
Proof.
  unfold InferenceMachine.beta_pdf. destruct (Rlt_dec 0 1); [|done].
  destruct (Rlt_dec 1 1); [lra | done].
Qed.

Lemma weights_sum_pos : 0 < Rsum (InferenceMachine.weights B).
Proof.
  apply (Rsum_pos_elem _ 0 (InferenceMachine.beta_pdf B (19 / 10) (19 / 10) (1 / 100))).
  - apply Forall_fmap, Forall_forall. intros x _. apply beta_pdf_nonneg.
  - unfold InferenceMachine.weights. rewrite list_lookup_fmap, prior_grid_lookup by lia.
    simpl. do 2 f_equal. lra.
  - apply beta_pdf_pos. lra.
Qed.

Lemma prior_vector_Real : InferenceMachine.prior_vector B = Real <$> (InferenceMachine.prior_reals B).
Proof.
  unfold InferenceMachine.prior_vector, InferenceMachine.prior_reals.
  rewrite (list_fmap_compose (InferenceMachine.beta_pdf B (19 / 10) (19 / 10)) Real).
  apply normalize_Real_ne. pose proof weights_sum_pos. lra.
Qed.

Lemma prior_reals_length : length (InferenceMachine.prior_reals B) = 101%nat.
Proof.
  unfold InferenceMachine.prior_reals, InferenceMachine.weights, InferenceMachine.prior_grid, InferenceMachine.linspace.
  by rewrite !length_fmap, length_seq.
Qed.

Lemma prior_reals_sum : Rsum (InferenceMachine.prior_reals B) = 1.
Proof.
  unfold InferenceMachine.prior_reals. rewrite Rsum_scale. pose proof weights_sum_pos.
  field. lra.
Qed.

Lemma prior_reals_lookup (i : nat) :
  (i < 101)%nat →
  ∃ w, (InferenceMachine.prior_reals B) !! i = Some w ∧ 0 <= w ∧
       ((i < 100)%nat → 0 < w) ∧ (i = 100%nat → w = 0).
Proof.
  intros Hi. pose proof weights_sum_pos as HS.
  unfold InferenceMachine.prior_reals, InferenceMachine.weights.
  rewrite !list_lookup_fmap, prior_grid_lookup by done. simpl.
  eexists. split; [done|]. split_and!.
  - pose proof (beta_pdf_nonneg (19 / 10) (19 / 10)
                  (1 / 100 + INR i * (99 / 10000))).
    apply Rmult_le_pos; [done|]. apply Rlt_le, Rinv_0_lt_compat, HS.
  - intros Hlt. apply Rdiv_lt_0_compat; [|done]. apply beta_pdf_pos.
    assert (0 <= INR i) by apply pos_INR.
    assert (INR i <= 99).
    { replace 99 with (INR 99) by (rewrite INR_IZR_INZ; done).
      apply le_INR. lia. }
    lra.
  - intros ->. replace (INR 100) with 100 by (rewrite INR_IZR_INZ; done).
    replace (1 / 100 + 100 * (99 / 10000)) with 1 by lra.
    rewrite beta_pdf_one. lra.
Qed.

End Prior.

Lemma times_Real (l pr : list R) :
  length l = length pr →
  InferenceMachine.times (Some (Real <$> l)) (Real <$> pr)
  = Ok (Real <$> zip_with Rmult l pr).
Proof.
  intros Hlen. unfold InferenceMachine.times.
  rewrite decide_True by (by rewrite !length_fmap).
  by rewrite zip_with_fmul_Real.
Qed.

Lemma inferPosterior_Real (B : R) (m : InferenceMachine.machine) (l : list R)
    (state action : nat) :
  0 < B → InferenceMachine.likelihood m = Some (Real <$> l) →
  length l = 101%nat →
  InferenceMachine.inferPosterior B m state action
  = Ok (InferenceMachine.mk (InferenceMachine.sims m)
          (InferenceMachine.likelihood m)
          (Some (InferenceMachine.normalize
                   (Real <$> zip_with Rmult l (InferenceMachine.prior_reals B))))
          (Some (Real <$> InferenceMachine.prior_reals B))).
Proof.
  intros HB Hlik Hlen. unfold InferenceMachine.inferPosterior.
  rewrite prior_vector_Real, Hlik by done.
  rewrite times_Real by (by rewrite prior_reals_length).
  done.
Qed.

Lemma products_sum_pos (B : R) (l : list R) (i : nat) (x : R) :
  0 < B → length l = 101%nat → Forall (fun x => 0 <= x) l →
  (i < 100)%nat → l !! i = Some x → 0 < x →
  0 < Rsum (zip_with Rmult l (InferenceMachine.prior_reals B)).
Proof.
  intros HB Hlen HF Hi Hl Hx.
  destruct (prior_reals_lookup B HB i) as (w & Hw & _ & Hpos & _); [lia|].
  apply (Rsum_pos_elem _ i (x * w)).
  - apply Forall_lookup. intros j y Hy.
    apply lookup_zip_with_Some in Hy as (a & b & -> & Ha & Hb).
    rewrite Forall_lookup in HF. specialize (HF j a Ha).
    destruct (prior_reals_lookup B HB j) as (w' & Hw' & Hnn & _).
    { apply lookup_lt_Some in Hb. by rewrite prior_reals_length in Hb. }
    rewrite Hw' in Hb. injection Hb as <-. by apply Rmult_le_pos.
  - rewrite lookup_zip_with, Hl, Hw. done.
  - apply Rmult_lt_0_compat; [done | by apply Hpos].
Qed.

Lemma last_point_products (B : R) :
  0 < B →
  Forall (fun x => x = 0)
    (zip_with Rmult last_point (InferenceMachine.prior_reals B)).
Proof.
  intros HB. apply Forall_lookup. intros j y Hy.
  apply lookup_zip_with_Some in Hy as (a & b & -> & Ha & Hb).
  assert (j < 101)%nat as Hj.
  { apply lookup_lt_Some in Hb. by rewrite prior_reals_length in Hb. }
  destruct (prior_reals_lookup B HB j Hj) as (w & Hw & _ & _ & Hz).
  rewrite Hw in Hb. injection Hb as <-. unfold last_point in Ha.
  destruct (decide (j < 100)%nat) as [Hlt|Hge].
  - rewrite lookup_app_l in Ha by (by rewrite length_replicate).
    apply lookup_replicate in Ha as [-> _]. lra.
  - rewrite Hz by lia. lra.
Qed.

(** ** The posterior *)

Opaque InferenceMachine.prior_reals InferenceMachine.normalize.

(** C4 as stated fails: the likelihood that is 1 at the last grid point and
    0 elsewhere is not all-zero, but the prior is 0 at that point (the
    density vanishes at 1.0), every product is 0 and the posterior is 101
    times NaN. *)
Lemma last_point_posterior_is_nan :
  ¬ (∀ (B : R) (l : list R), 0 < B → nondegenerate l →
       ∃ m' post,
         InferenceMachine.inferPosterior B (machine_with (Real <$> l)) 0 0
         = Ok m' ∧
         InferenceMachine.posterior m' = Some post ∧ fsum post = Real 1).
Proof.
  intros H. destruct (H 1 last_point) as (m' & post & Hm' & Hpost & Hsum).
  { lra. }
  { split_and!.
    - done.
    - unfold last_point. apply Forall_app. split.
      + apply Forall_replicate. lra.
      + repeat constructor. lra.
    - exists 100%nat, 1. split; [done | lra]. }
  pose proof (inferPosterior_Real 1 (machine_with (Real <$> last_point))
                last_point 0 0 ltac:(lra) eq_refl eq_refl) as Hi.
  remember (InferenceMachine.normalize
              (Real <$> zip_with Rmult last_point
                          (InferenceMachine.prior_reals 1))) as N eqn:HN.
  rewrite Hi in Hm'. injection Hm' as <-.
  cbn [InferenceMachine.posterior] in Hpost. injection Hpost as <-.
  rewrite normalize_zero in HN by (apply last_point_products; lra).
  rewrite length_zip_with, prior_reals_length in HN by lra.
  subst N. cbn [last_point length replicate app Nat.min fsum foldr fadd] in Hsum.
  done.
Qed.

(** C4, as the code has it: the posterior is the elementwise product of the
    likelihood and the prior, divided by the sum of the products; for a
    likelihood of 101 non-negative values that is positive at some grid
    point other than the last one, its entries sum to 1. *)
Theorem posterior_sums_to_one (B : R) (m : InferenceMachine.machine) (l : list R)
    (state action i : nat) (x : R) :
  0 < B → InferenceMachine.likelihood m = Some (Real <$> l) →
  length l = 101%nat → Forall (fun x => 0 <= x) l →
  (i < 100)%nat → l !! i = Some x → 0 < x →
  ∃ m' prior product,
    InferenceMachine.inferPosterior B m state action = Ok m' ∧
    InferenceMachine.prior m' = Some (Real <$> prior) ∧ Rsum prior = 1 ∧
    product = zip_with Rmult l prior ∧
    InferenceMachine.posterior m'
    = Some (Real <$> ((fun y => y / Rsum product) <$> product)) ∧
    fsum (Real <$> ((fun y => y / Rsum product) <$> product)) = Real 1.
Proof.
  intros HB Hlik Hlen HF Hi Hl Hx.
  pose proof (products_sum_pos B l i x HB Hlen HF Hi Hl Hx) as Hpos.
  eexists _, (InferenceMachine.prior_reals B), _.
  split_and!; [by apply inferPosterior_Real | done | by apply prior_reals_sum
              | done | |].
  - cbn [InferenceMachine.posterior]. f_equal. apply normalize_Real_ne. lra.
  - rewrite fsum_Real, Rsum_scale. f_equal. field. lra.
Qed.

Lemma posterior_sums_to_one_witness :
  ∃ m' prior product,
    InferenceMachine.inferPosterior 1
      (machine_with (Real <$> replicate 101 1)) 0 0 = Ok m' ∧
    InferenceMachine.prior m' = Some (Real <$> prior) ∧ Rsum prior = 1 ∧
    product = zip_with Rmult (replicate 101 1) prior ∧
    InferenceMachine.posterior m'
    = Some (Real <$> ((fun y => y / Rsum product) <$> product)) ∧
    fsum (Real <$> ((fun y => y / Rsum product) <$> product)) = Real 1.
Proof.
  apply (posterior_sums_to_one 1 (machine_with (Real <$> replicate 101 1))
           (replicate 101 1) 0 0 0 1).
  - lra.
  - reflexivity.
  - reflexivity.
  - apply Forall_replicate. lra.
  - lia.
  - reflexivity.
  - lra.
Defined.

(** C6 as stated fails: with an all-zero likelihood [inferPosterior] does
    not raise [UnobservableEvidence]. *)
Lemma degenerate_likelihood_not_raised :
  ¬ (∀ B : R, 0 < B →
       InferenceMachine.inferPosterior B
         (machine_with (Real <$> replicate 101 0)) 0 0
       = Raise UnobservableEvidence).
Proof.
  intros H. specialize (H 1 ltac:(lra)).
  pose proof (inferPosterior_Real 1 (machine_with (Real <$> replicate 101 0))
                (replicate 101 0) 0 0 ltac:(lra) eq_refl eq_refl) as Hi.
  rewrite Hi in H. discriminate H.
Qed.

(** C6, as the code has it: with an all-zero likelihood [inferPosterior]
    raises nothing; the normalisation divides zero by zero and every entry
    of the posterior it stores is NaN. *)
Theorem degenerate_likelihood_gives_nan (B : R) (m : InferenceMachine.machine)
    (state action : nat) :
  0 < B →
  InferenceMachine.likelihood m = Some (Real <$> replicate 101 0) →
  ∃ m', InferenceMachine.inferPosterior B m state action = Ok m' ∧
        InferenceMachine.posterior m' = Some (replicate 101 NaN).
Proof.
  intros HB Hlik. eexists. split.
  - apply inferPosterior_Real; [done | done | by rewrite length_replicate].
  - cbn [InferenceMachine.posterior]. f_equal. rewrite normalize_zero.
    + by rewrite length_zip_with, length_replicate, prior_reals_length.
    + apply Forall_lookup. intros j y Hy.
      apply lookup_zip_with_Some in Hy as (a & b & -> & Ha & _).
      apply lookup_replicate in Ha as [-> _]. lra.
Qed.

Lemma degenerate_likelihood_gives_nan_witness :
  ∃ m', InferenceMachine.inferPosterior 1
          (machine_with (Real <$> replicate 101 0)) 0 0 = Ok m' ∧
        InferenceMachine.posterior m' = Some (replicate 101 NaN).
Proof.
  apply (degenerate_likelihood_gives_nan 1
           (machine_with (Real <$> replicate 101 0)) 0 0).
  - lra.
  - reflexivity.
Defined.

(** ** The expectation *)

Lemma expect_range (p x : list R) (k a : nat) (acc : R) :
  (a + k <= length p)%nat → (a + k <= length x)%nat →
  foldR (InferenceMachine.expect_body (Real <$> p) x) (seq a k) (Real acc)
  = Ok (Real (acc + Rsum (zip_with Rmult (take k (drop a p))
                                          (take k (drop a x))))).
Proof.
  revert a acc. induction k as [|k IH]; intros a acc Hp Hx; cbn [foldR seq].
  - rewrite !take_0. unfold Rsum. simpl. do 2 f_equal. lra.
  - destruct (lookup_lt_is_Some_2 p a) as [pa Hpa]; [lia|].
    destruct (lookup_lt_is_Some_2 x a) as [xa Hxa]; [lia|].
    assert (InferenceMachine.expect_body (Real <$> p) x (Real acc) a
            = Ok (Real (acc + pa * xa))) as ->.
    { unfold InferenceMachine.expect_body, index.
      by rewrite list_lookup_fmap, Hpa, Hxa. }
    cbn [mbind result_bind]. rewrite IH by lia.
    rewrite (drop_S p pa a Hpa), (drop_S x xa a Hxa).
    cbn [firstn]. unfold Rsum. csimpl. do 2 f_equal. lra.
Qed.

(** [expectedPosterior] returns Σᵢ posterior[i] · x[i], with [x] the grid
    of the prior. *)
Lemma expectedPosterior_Real (m : InferenceMachine.machine) (p : list R) :
  InferenceMachine.posterior m = Some (Real <$> p) → length p = 101%nat →
  InferenceMachine.expectedPosterior m
  = Ok (Real (Rsum (zip_with Rmult p InferenceMachine.prior_grid))).
Proof.
  intros Hp Hlen. unfold InferenceMachine.expectedPosterior. rewrite Hp.
  cbn [from_option mbind result_bind]. rewrite length_fmap.
  assert (Hx : length InferenceMachine.prior_grid = 101%nat).
  { unfold InferenceMachine.prior_grid, InferenceMachine.linspace.
    by rewrite length_fmap, length_seq. }
  rewrite expect_range by lia. rewrite !drop_0.
  rewrite !take_ge by lia. do 2 f_equal. lra.
Qed.

Lemma Rsum_first_point (x0 : R) (x : list R) :
  length x = 100%nat →
  Rsum (zip_with Rmult first_point (x0 :: x)) = x0.
Proof.
  intros Hx. unfold first_point.
  change (Rsum (zip_with Rmult (1 :: replicate 100 0) (x0 :: x)))
    with (1 * x0 + Rsum (zip_with Rmult (replicate 100 0) x)).
  rewrite Rsum_zero; [lra|].
  apply Forall_lookup. intros j y Hy.
  apply lookup_zip_with_Some in Hy as (a & b & -> & Ha & _).
  apply lookup_replicate in Ha as [-> _]. lra.
Qed.

(** C5 fails on the code: the games are built on the grid 0, 0.01, ..., 1
    but the expectation weighs the posterior with the grid of the prior,
    0.01, 0.0199, ..., 1.  The two grids differ at every point but the
    last; a posterior that puts all its mass on the first hypothesis,
    bias 0, has expectation 0.01. *)
Theorem expectation_uses_prior_grid :
  (∀ i, (i < 101)%nat →
     InferenceMachine.bias_grid !! i = Some (INR i * (1 / 100)) ∧
     InferenceMachine.prior_grid !! i
     = Some (1 / 100 + INR i * (99 / 10000))) ∧
  InferenceMachine.bias_grid !! 0%nat = Some 0 ∧
  InferenceMachine.expectedPosterior
    (machine_with_posterior (Real <$> first_point))
  = Ok (Real (1 / 100)).
Proof.
  split_and!.
  - intros i Hi. split; [by apply bias_grid_lookup | by apply prior_grid_lookup].
  - rewrite bias_grid_lookup by lia. simpl. f_equal. lra.
  - rewrite (expectedPosterior_Real _ first_point) by done.
    do 2 f_equal.
    unfold InferenceMachine.prior_grid, InferenceMachine.linspace.
    change (seq 0 101) with (0%nat :: seq 1 100). rewrite fmap_cons.
    rewrite Rsum_first_point by (by rewrite length_fmap, length_seq).
    simpl. lra.
Qed.

(** ** The rows of the tensor, by computation *)

Lemma tHelper_branch (x y z : Z) (p : R) :
  BettingGame.tHelper x y z p = probability p (branch x y z).
Proof.
  unfold BettingGame.tHelper, branch.
  repeat match goal with
  | |- context [if ?b then _ else _] => destruct b
  end; reflexivity.
Qed.

Lemma Rsum_tally (p : R) (os : list outcome) :
  Rsum (probability p <$> os)
  = let '(s, l, w) := tally os in INR s + INR l * (1 - p) + INR w * p.
Proof.
  induction os as [|o os IH]; [simpl; unfold Rsum; simpl; lra|].
  rewrite fmap_cons. change (Rsum (?x :: ?l)) with (x + Rsum l). rewrite IH.
  cbn [tally]. destruct (tally os) as [[s l] w].
  destruct o; rewrite ?S_INR; simpl; lra.
Qed.

Lemma branch_targets (x y z : Z) :
  branch x y z ≠ Never → z ∈ [x; (x - y)%Z; (x + y)%Z; 100%Z].
Proof.
  unfold branch. intros H.
  repeat match type of H with
  | context [if ?b then _ else _] => destruct b eqn:?
  end; try done;
  repeat match goal with
  | H : (_ && _)%bool = true |- _ => apply andb_true_iff in H as [? ?]
  | H : (_ =? _)%Z = true |- _ => apply Z.eqb_eq in H
  end; rewrite !elem_of_cons; lia.
Qed.

Lemma Rsum_perm (l k : list R) : l ≡ₚ k → Rsum l = Rsum k.
Proof.
  induction 1 as [|x l k _ IH|x y l|l k j _ IH1 _ IH2].
  - done.
  - change (x + Rsum l = x + Rsum k). by rewrite IH.
  - change (y + (x + Rsum l) = x + (y + Rsum l)). lra.
  - by rewrite IH1.
Qed.

Lemma Rsum_filter {A} (f : A → R) (P : A → Prop) `{∀ a, Decision (P a)}
    (l : list A) :
  (∀ a, ¬ P a → f a = 0) → Rsum (f <$> l) = Rsum (f <$> filter P l).
Proof.
  intros Hz. induction l as [|a l IH]; [done|].
  rewrite filter_cons. destruct (decide (P a)) as [Ha|Ha].
  - rewrite !fmap_cons. change (f a + Rsum (f <$> l)
                                = f a + Rsum (f <$> filter P l)). by rewrite IH.
  - rewrite fmap_cons. change (f a + Rsum (f <$> l) = Rsum (f <$> filter P l)).
    rewrite (Hz a Ha), IH. lra.
Qed.

(** The mass of a row sits on its targets. *)
Lemma row_mass (p : R) (n x y : nat) :
  Rsum ((fun z => BettingGame.tHelper (Z.of_nat x) (Z.of_nat y) z p)
          <$> BettingGame.arange n)
  = Rsum (probability p <$> outcomes n x y).
Proof.
  set (f := fun z => BettingGame.tHelper (Z.of_nat x) (Z.of_nat y) z p).
  set (P := fun z => branch (Z.of_nat x) (Z.of_nat y) z ≠ Never).
  assert (Hz : ∀ z, ¬ P z → f z = 0).
  { intros z Hz. unfold f, P in *. rewrite tHelper_branch.
    destruct (branch _ _ z); (done || by destruct Hz). }
  unfold outcomes. rewrite <- list_fmap_compose.
  assert ((probability p ∘ branch (Z.of_nat x) (Z.of_nat y))
            <$> targets n (Z.of_nat x) (Z.of_nat y)
          = f <$> targets n (Z.of_nat x) (Z.of_nat y)) as ->.
  { apply list_fmap_ext. intros _ z _. symmetry. apply tHelper_branch. }
  rewrite (Rsum_filter f P (BettingGame.arange n) Hz).
  rewrite (Rsum_filter f P (targets n _ _) Hz).
  apply Rsum_perm, fmap_Permutation, NoDup_Permutation.
  - apply NoDup_filter, NoDup_fmap_2, NoDup_seq. apply Nat2Z.inj'.
  - apply NoDup_filter, NoDup_filter, NoDup_remove_dups.
  - intros z. unfold targets, BettingGame.arange.
    rewrite !list_elem_of_filter, elem_of_remove_dups, list_elem_of_fmap.
    setoid_rewrite elem_of_seq. split.
    + intros [HP (i & -> & Hi)]. split_and!; [done | lia | lia | by apply branch_targets].
    + intros (HP & Hr & _). split; [done|]. exists (Z.to_nat z). lia.
Qed.

(** Every row of the tensor is a distribution, for every [pHeads], except
    those of the pairs in [overshoots]. *)
Lemma tally_all :
  forallb (fun x => forallb (fun y =>
      eqb (distribution_tally (tally (outcomes 102 x y)))
          (negb (overshoots x y)))
    (seq 0 101)) (seq 0 102) = true.
Proof. vm_compute. reflexivity. Qed.

(** Towards the states other than the last, every row has mass at most 1. *)
Lemma tally_sub_all :
  forallb (fun x => forallb (fun y =>
      subdistribution_tally (tally (outcomes 101 x y)))
    (seq 0 101)) (seq 0 102) = true.
Proof. vm_compute. reflexivity. Qed.

(** ** Value iteration contracts *)

Lemma expected_cons (x r : R) (X row : list R) :
  Spec.expected (x :: X) (r :: row) = r * x + Spec.expected X row.
Proof. reflexivity. Qed.

Lemma expected_diff_bound (row X Y Ds : list R) :
  length X = length row → length Y = length row → length Ds = length row →
  Forall (fun x => 0 <= x) row →
  (∀ j x y d, X !! j = Some x → Y !! j = Some y → Ds !! j = Some d →
              Rabs (x - y) <= d) →
  Rabs (Spec.expected X row - Spec.expected Y row) <= Spec.expected Ds row.
Proof.
  revert X Y Ds. induction row as [|r row IH]; intros X Y Ds HX HY HD HF Hb.
  - destruct X, Y, Ds; try done. unfold Spec.expected, Rsum. simpl.
    rewrite Rminus_diag, Rabs_R0. lra.
  - destruct X as [|x X], Y as [|y Y], Ds as [|d Ds]; try done.
    simpl in HX, HY, HD. inversion HF as [|? ? Hr HF']; subst.
    rewrite !expected_cons.
    specialize (IH X Y Ds ltac:(lia) ltac:(lia) ltac:(lia) HF').
    assert (Rabs (Spec.expected X row - Spec.expected Y row)
            <= Spec.expected Ds row) as Htl.
    { apply IH. intros j. apply (Hb (S j)). }
    assert (Rabs (x - y) <= d) as Hhd by (by apply (Hb 0%nat)).
    replace (r * x + Spec.expected X row - (r * y + Spec.expected Y row))
      with (r * (x - y) + (Spec.expected X row - Spec.expected Y row)) by lra.
    eapply Rle_trans; [apply Rabs_triang|].
    rewrite Rabs_mult, (Rabs_right r) by lra. nra.
Qed.

Lemma expected_bound_vector (D : R) (k : nat) (row : list R) :
  length row = S k →
  Spec.expected (replicate k D ++ [0]) row = D * Rsum (take k row).
Proof.
  revert row. induction k as [|k IH]; intros row Hlen.
  - destruct row as [|r [|? ?]]; try done. unfold Spec.expected, Rsum.
    simpl. lra.
  - destruct row as [|r row]; [done|]. simpl in Hlen.
    change (replicate (S k) D ++ [0]) with (D :: (replicate k D ++ [0])).
    rewrite expected_cons, IH by lia.
    change (take (S k) (r :: row)) with (r :: take k row).
    change (Rsum (r :: take k row)) with (r + Rsum (take k row)). lra.
Qed.

Lemma bound_vector_lookup (D : R) (k j : nat) (d : R) :
  (replicate k D ++ [0]) !! j = Some d →
  d = if decide (j < k)%nat then D else 0.
Proof.
  intros H. case_decide as Hj.
  - rewrite lookup_app_l in H by (by rewrite length_replicate).
    by apply lookup_replicate in H as [-> _].
  - rewrite lookup_app_r in H by (rewrite length_replicate; lia).
    rewrite length_replicate in H.
    destruct (j - k)%nat; simpl in H; [congruence | done].
Qed.

Lemma Rabs_bounds (x c : R) : Rabs x <= c → - c <= x <= c.
Proof. unfold Rabs. destruct (Rcase_abs x); lra. Qed.

Lemma is_max_close (A : Type) (f g : A → R) (l : list A) (mf mg c : R) :
  Spec.is_max mf (f <$> l) → Spec.is_max mg (g <$> l) →
  (∀ a, a ∈ l → Rabs (f a - g a) <= c) →
  Rabs (mf - mg) <= c.
Proof.
  intros [Hf Hfle] [Hg Hgle] Hc.
  apply list_elem_of_fmap in Hf as (a & -> & Ha).
  apply list_elem_of_fmap in Hg as (b & -> & Hb).
  assert (f b <= f a) by (apply Hfle, list_elem_of_fmap; eauto).
  assert (g a <= g b) by (apply Hgle, list_elem_of_fmap; eauto).
  pose proof (Hc a Ha) as H1. pose proof (Hc b Hb) as H2.
  apply Rabs_le. apply Rabs_bounds in H1, H2. lra.
Qed.

Lemma bellman_lipschitz (m : MDP.model) (X Y : list R) (i : nat)
    (v w D : R) :
  substochastic m → 0 <= MDP.discount m →
  (1 <= length (MDP.s m))%nat → (i < length (MDP.s m) - 1)%nat →
  close (length (MDP.s m)) D X Y →
  Spec.bellman m X i v → Spec.bellman m Y i w →
  Rabs (v - w) <= MDP.discount m * D.
Proof.
  intros Hsub Hd Hn Hi (HlX & HlY & Hclose)
    [ri ti mx Hri Hti HFX Hmx] [ri' ti' my Hri' Hti' HFY Hmy].
  simplify_eq.
  replace (ri + MDP.discount m * mx - (ri + MDP.discount m * my))
    with (MDP.discount m * (mx - my)) by lra.
  rewrite Rabs_mult, (Rabs_right (MDP.discount m)) by lra.
  apply Rmult_le_compat_l; [done|].
  apply (is_max_close _ _ _ _ _ _ _ Hmx Hmy). intros row Hrow.
  specialize (Hsub i ti Hi Hti). rewrite Forall_forall in Hsub.
  destruct (Hsub row Hrow) as [Hnn Hmass].
  rewrite Forall_forall in HFX, HFY.
  pose proof (HFX row Hrow) as HrX. pose proof (HFY row Hrow) as HrY.
  eapply Rle_trans.
  - apply (expected_diff_bound row X Y
             (replicate (length (MDP.s m) - 1) D ++ [0]));
      [lia | lia | rewrite length_app, length_replicate; simpl; lia | done |].
    intros j x y d Hx Hy Hdj. apply bound_vector_lookup in Hdj as ->.
    by apply (Hclose j).
  - rewrite expected_bound_vector by lia.
    assert (0 <= D) as HD.
    { destruct (lookup_lt_is_Some_2 X 0) as [x0 Hx0]; [lia|].
      destruct (lookup_lt_is_Some_2 Y 0) as [y0 Hy0]; [lia|].
      pose proof (Hclose 0%nat x0 y0 Hx0 Hy0) as H0.
      pose proof (Rabs_pos (x0 - y0)). case_decide; [lra|].
      lia. }
    nra.
Qed.

Lemma mixed_close (n j : nat) (D c : R) (V V' W W' : list R) :
  (j < n - 1)%nat → 0 <= c <= D →
  close n D V W → length V' = n → length W' = n →
  (∀ k x y, (k < j)%nat → V' !! k = Some x → W' !! k = Some y →
            Rabs (x - y) <= c) →
  close n D (take j V' ++ drop j V) (take j W' ++ drop j W).
Proof.
  intros Hj Hc (HlV & HlW & Hclose) HlV' HlW' Hlow. split_and!.
  - rewrite length_app, length_take, length_drop. lia.
  - rewrite length_app, length_take, length_drop. lia.
  - intros k x y Hx Hy. destruct (decide (k < j)%nat) as [Hk|Hk].
    + rewrite lookup_app_l in Hx, Hy by (rewrite length_take; lia).
      rewrite lookup_take_lt in Hx, Hy by done.
      rewrite decide_True by lia.
      pose proof (Hlow k x y Hk Hx Hy). lra.
    + rewrite lookup_app_r in Hx, Hy by (rewrite length_take; lia).
      rewrite length_take in Hx, Hy. rewrite lookup_drop in Hx, Hy.
      replace (j + (k - j `min` length V'))%nat with k in Hx by lia.
      replace (j + (k - j `min` length W'))%nat with k in Hy by lia.
      by apply Hclose.
Qed.

(** One sweep brings two value vectors closer by the discount. *)
Lemma sweep_contracts (m : MDP.model) (D : R) (V V' W W' : list R) :
  substochastic m → 0 <= MDP.discount m <= 1 → 0 <= D →
  (1 <= length (MDP.s m))%nat →
  close (length (MDP.s m)) D V W →
  Spec.gauss_seidel m V V' → Spec.gauss_seidel m W W' →
  close (length (MDP.s m)) (MDP.discount m * D) V' W'.
Proof.
  intros Hsub Hd HD Hn Hcl (HlV' & _ & HinV & HoutV) (HlW' & _ & HinW & HoutW).
  pose proof Hcl as (HlV & HlW & Hclose).
  assert (Hlow : ∀ j, (j < length (MDP.s m) - 1)%nat →
            ∀ x y, V' !! j = Some x → W' !! j = Some y →
                   Rabs (x - y) <= MDP.discount m * D).
  { intros j. induction j as [j IH] using lt_wf_ind. intros Hj x y Hx Hy.
    destruct (HinV j Hj) as (x' & Hx' & Hbx).
    destruct (HinW j Hj) as (y' & Hy' & Hby). simplify_eq.
    apply (bellman_lipschitz m (take j V' ++ drop j V) (take j W' ++ drop j W)
             j x y D Hsub); [lra | done | done | | done..].
    apply (mixed_close (length (MDP.s m)) j D (MDP.discount m * D));
      [done | nra | done | lia | lia |].
    intros k a b Hk. apply IH; [done | lia]. }
  split_and!; [lia | lia |].
  intros j x y Hx Hy. case_decide as Hj.
  - by apply (Hlow j Hj x y).
  - rewrite HoutV in Hx by lia. rewrite HoutW in Hy by lia.
    pose proof (Hclose j x y Hx Hy) as H. by rewrite decide_False in H.
Qed.

(** ** Value iteration terminates *)

Lemma close_delta (n : nat) (D : R) (V' V : list R) :
  (1 <= n)%nat → 0 <= D → close n D V V' →
  ∃ d, MDP.delta V' V = Ok d ∧ d <= D.
Proof.
  intros Hn HD (HlV & HlV' & Hclose).
  destruct (is_max_exists (Rabs <$> zip_with Rminus V' V)) as [d Hd].
  { destruct V', V; simpl in *; try lia. done. }
  exists d. split; [by apply delta_Ok|].
  destruct Hd as [Hin _]. apply list_elem_of_fmap in Hin as (z & -> & Hz).
  apply list_elem_of_lookup in Hz as [j Hz].
  apply lookup_zip_with_Some in Hz as (x & y & -> & Hx & Hy).
  rewrite Rabs_minus_sym. pose proof (Hclose j y x Hy Hx) as H.
  case_decide; lra.
Qed.

Lemma vi_loop_terminates (m : MDP.model) (eps : R) (k : nat) :
  shaped m → substochastic m → 0 <= MDP.discount m <= 1 →
  (1 <= length (MDP.s m))%nat →
  ∀ (D : R) (V V' : list R),
    0 <= D → MDP.discount m ^ k * D <= eps →
    MDP.sweep m V = Ok V' → close (length (MDP.s m)) D V V' →
    ∃ V'', MDP.vi_loop (S k) m eps V = Some (Ok V'').
Proof.
  intros Hsh Hsub Hd Hn. induction k as [|k IH]; intros D V V' HD Hk Hs Hcl.
  - cbn [MDP.vi_loop]. rewrite Hs.
    destruct (close_delta _ D V' V Hn HD Hcl) as (d & -> & Hle).
    simpl in Hk. destruct (Rle_dec d eps); [eauto | lra].
  - cbn [MDP.vi_loop]. rewrite Hs.
    destruct (close_delta _ D V' V Hn HD Hcl) as (d & -> & Hle).
    destruct (Rle_dec d eps); [eauto|].
    pose proof Hcl as (HlV & HlV' & _).
    destruct (sweep_total m V' Hsh HlV') as [V'' Hs'].
    apply (IH (MDP.discount m * D) V' V''); [nra | | done |].
    + simpl in Hk. lra.
    + apply (sweep_contracts m D V V' V' V''); try done;
        apply sweep_Ok; (done || lra).
Qed.

Lemma pow_small (c D eps : R) :
  0 <= c < 1 → 0 <= D → 0 < eps → ∃ k, c ^ k * D <= eps.
Proof.
  intros Hc HD He.
  destruct (pow_lt_1_zero c) with (y := eps / (D + 1)) as [N HN].
  { rewrite Rabs_right; lra. }
  { apply Rdiv_lt_0_compat; lra. }
  exists N. specialize (HN N (Nat.le_refl N)).
  rewrite Rabs_right in HN by (apply Rle_ge, pow_le; lra).
  assert (c ^ N * (D + 1) < eps).
  { apply (Rmult_lt_compat_r (D + 1)) in HN; [|lra].
    unfold Rdiv in HN. rewrite Rmult_assoc, Rinv_l, Rmult_1_r in HN by lra.
    exact HN. }
  assert (0 <= c ^ N) by (apply pow_le; lra). nra.
Qed.

Lemma Rsum_ge_elem (l : list R) (j : nat) (z : R) :
  Forall (fun x => 0 <= x) l → l !! j = Some z → z <= Rsum l.
Proof.
  intros HF. revert j. induction HF as [|x l Hx HF IH]; intros j Hj; [done|].
  change (Rsum (x :: l)) with (x + Rsum l). destruct j as [|j]; simpl in Hj.
  - injection Hj as ->. pose proof (Rsum_nonneg l HF). lra.
  - specialize (IH j Hj). lra.
Qed.

Lemma sum_abs_close (n : nat) (V V' : list R) :
  length V = n → length V' = n → V !! (n - 1)%nat = V' !! (n - 1)%nat →
  ∃ D, 0 <= D ∧ close n D V V'.
Proof.
  intros HlV HlV' Hlast.
  exists (Rsum (Rabs <$> zip_with Rminus V V')).
  assert (HF : Forall (fun x => 0 <= x) (Rabs <$> zip_with Rminus V V')).
  { apply Forall_fmap, Forall_forall. intros x _. apply Rabs_pos. }
  split; [by apply Rsum_nonneg|]. split_and!; [done..|].
  intros j x y Hx Hy. case_decide as Hj.
  - apply (Rsum_ge_elem _ j); [done|].
    by rewrite list_lookup_fmap, lookup_zip_with, Hx, Hy.
  - assert (j = n - 1)%nat as ->.
    { apply lookup_lt_Some in Hx. lia. }
    rewrite Hx, Hy in Hlast. injection Hlast as ->.
    rewrite Rminus_diag, Rabs_R0. lra.
Qed.

(** With a discount below 1 and rows of mass at most 1, value iteration
    returns for every positive [epsilon], given enough sweeps. *)
Lemma valueIteration_terminates (m : MDP.model) (epsilon : option R) :
  shaped m → substochastic m → 0 <= MDP.discount m < 1 →
  (1 <= length (MDP.s m))%nat → 0 < default (1 / 10) epsilon →
  ∃ fuel V, MDP.valueIteration fuel m epsilon
            = Some (Ok (MDP.set_values m V)) ∧
            length V = length (MDP.s m).
Proof.
  intros Hsh Hsub Hd Hn He. unfold MDP.valueIteration.
  set (V0 := replicate (length (MDP.s m)) 0).
  assert (HlV0 : length V0 = length (MDP.s m)) by apply length_replicate.
  destruct (sweep_total m V0 Hsh HlV0) as [V1 Hs].
  pose proof (sweep_length _ _ _ _ _ Hs) as HlV1.
  destruct (sum_abs_close (length (MDP.s m)) V0 V1) as (D & HD & Hcl);
    [done | lia | symmetry; by apply sweep_last |].
  destruct (pow_small (MDP.discount m) D (default (1 / 10) epsilon))
    as [k Hk]; [done..|].
  destruct (vi_loop_terminates m (default (1 / 10) epsilon) k Hsh Hsub
              ltac:(lra) Hn D V0 V1 HD Hk Hs Hcl) as [V'' HV''].
  exists (S k), V''. rewrite HV''. split; [done|].
  by rewrite (vi_loop_length _ _ _ _ _ HV'').
Qed.

(** ** The betting game converges *)

Lemma forallb_seq (f : nat → bool) (n i : nat) :
  forallb f (seq 0 n) = true → (i < n)%nat → f i = true.
Proof.
  intros H Hi. rewrite forallb_forall in H. apply H, in_seq. lia.
Qed.

Lemma probability_nonneg (p : R) (o : outcome) :
  0 <= p <= 1 → 0 <= probability p o.
Proof. intros Hp. destruct o; simpl; lra. Qed.

Lemma dead_row_ok : row_ok 102 BettingGame.dead_row.
Proof.
  unfold BettingGame.dead_row. split.
  - apply Forall_insert; [apply Forall_replicate|]; lra.
  - change (102 - 1)%nat with 101%nat.
    rewrite take_insert_ge, take_replicate by lia.
    rewrite Rsum_zero; [lra|]. by apply Forall_replicate.
Qed.

Lemma tensor_row_ok (p : R) (x y : nat) :
  0 <= p <= 1 → (x < 102)%nat → (y < 101)%nat →
  row_ok 102 ((fun z => BettingGame.tHelper (Z.of_nat x) (Z.of_nat y) z p)
                <$> BettingGame.arange 102).
Proof.
  intros Hp Hx Hy. split.
  - apply Forall_fmap, Forall_forall. intros z _. unfold compose.
    rewrite tHelper_branch. by apply probability_nonneg.
  - change (102 - 1)%nat with 101%nat. rewrite <- fmap_take.
    assert (take 101 (BettingGame.arange 102) = BettingGame.arange 101) as ->.
    { unfold BettingGame.arange. by rewrite <- fmap_take, take_seq. }
    rewrite row_mass, Rsum_tally.
    pose proof (forallb_seq _ _ y (forallb_seq _ _ x tally_sub_all Hx) Hy) as H.
    cbn beta in H. destruct (tally (outcomes 101 x y)) as [[s l] w].
    unfold subdistribution_tally in H.
    destruct s as [|[|s]]; [| |done].
    + apply andb_true_iff in H as [Hl%Nat.leb_le Hw%Nat.leb_le].
      assert (INR l <= 1) by (apply (le_INR l 1); lia).
      assert (INR w <= 1) by (apply (le_INR w 1); lia).
      pose proof (pos_INR l). pose proof (pos_INR w). simpl. nra.
    + destruct l; [|done]. destruct w; [|done]. simpl. lra.
Qed.

Lemma tensor_rows_ok (p : R) :
  0 <= p <= 1 → Forall (Forall (row_ok 102)) (BettingGame.tensor p).
Proof.
  intros Hp. unfold BettingGame.tensor.
  apply Forall_fmap, Forall_forall.
  intros x (i & -> & Hi%elem_of_seq)%list_elem_of_fmap. unfold compose.
  apply Forall_fmap, Forall_forall.
  intros y (j & -> & Hj%elem_of_seq)%list_elem_of_fmap. unfold compose.
  apply tensor_row_ok; (done || lia).
Qed.

Lemma redirect_rows_ok (l : list nat) (T : list (list (list R))) :
  Forall (Forall (row_ok 102)) T →
  Forall (Forall (row_ok 102)) (foldl BettingGame.redirect T l).
Proof.
  revert T. induction l as [|x l IH]; intros T HF; [done|]. simpl.
  apply IH. unfold BettingGame.redirect.
  apply Forall_alter; [apply Forall_alter; [done|] |];
    intros ti _ Hti; apply Forall_insert; (done || apply dead_row_ok).
Qed.

Lemma game_substochastic (p : R) (V : option (list R)) :
  0 <= p <= 1 →
  substochastic (MDP.mk (MDP.s (game p)) (MDP.a (game p)) (MDP.r (game p))
                   (MDP.t (game p)) (MDP.discount (game p)) V None).
Proof.
  intros Hp i ti Hi Hti. cbn [MDP.s MDP.t] in *.
  destruct (game_lengths p) as (-> & _).
  pose proof (redirect_rows_ok (seq 0 101) _ (tensor_rows_ok p Hp)) as HF.
  rewrite Forall_lookup in HF. by apply (HF i).
Qed.

Lemma init_unfold (fuel : nat) (pHeads epsilon tau : option R) :
  BettingGame.init fuel pHeads epsilon tau
  = match MDP.valueIteration fuel (game (default (1 / 2) pHeads)) None with
    | None => None
    | Some (Raise e) => Some (Raise e)
    | Some (Ok m) =>
        Some (m' ← MDP.extractPolicy m (Some (1 / 10));
              Ok (BettingGame.mk m' (default (1 / 2) pHeads)))
    end.
Proof. reflexivity. Qed.

(** For a bias between 0 and 1 the constructor of the betting game returns
    a solved game, given enough sweeps. *)
Lemma init_returns (p : R) (epsilon tau : option R) :
  0 <= p <= 1 →
  ∃ fuel g, BettingGame.init fuel (Some p) epsilon tau = Some (Ok g) ∧
    BettingGame.pHeads g = p ∧
    is_Some (MDP.values (BettingGame.mdp g)) ∧
    is_Some (MDP.policy (BettingGame.mdp g)).
Proof.
  intros Hp.
  destruct (valueIteration_terminates (game p) None) as (fuel & V & HV & Hlen).
  - apply (game_shaped p None).
  - by apply (game_substochastic p None).
  - simpl. lra.
  - destruct (game_lengths p) as (-> & _). lia.
  - simpl. lra.
  - destruct (extractPolicy_total (MDP.set_values (game p) V) V (1 / 10))
      as (P & HP & _); [apply (game_shaped p (Some V)) | done | done | lra |].
    exists fuel, (BettingGame.mk (MDP.set_policy (MDP.set_values (game p) V) P) p).
    split_and!; [|done | by eexists | by eexists].
    rewrite init_unfold. change (default (1 / 2) (Some p)) with p.
    by rewrite HV, HP.
Qed.

(** ** Which rows of the betting game are distributions *)

Lemma redirect_sets (l : list nat) (T : list (list (list R))) (x y : nat) :
  x = 0%nat ∨ x = 100%nat → y ∈ l → (x < length T)%nat →
  Forall block_ok T → (y < 101)%nat →
  ∃ ti, foldl BettingGame.redirect T l !! x = Some ti ∧
        ti !! y = Some BettingGame.dead_row.
Proof.
  intros Hx. revert T. induction l as [|z l IH] using rev_ind;
    intros T Hy HlT HF Hy101; [by apply elem_of_nil in Hy|].
  rewrite foldl_app. cbn [foldl].
  destruct (redirect_all_shape l T HF) as [Hlen HF'].
  destruct (lookup_lt_is_Some_2 (foldl BettingGame.redirect T l) x)
    as [ti Hti]; [lia|].
  assert (Hbo : block_ok ti) by (rewrite Forall_lookup in HF'; eauto).
  assert (BettingGame.redirect (foldl BettingGame.redirect T l) z !! x
          = Some (<[z:=BettingGame.dead_row]> ti)) as ->.
  { unfold BettingGame.redirect at 1. destruct Hx as [->| ->].
    - by rewrite list_lookup_alter_eq, list_lookup_alter_ne, Hti by done.
    - by rewrite list_lookup_alter_ne, list_lookup_alter_eq, Hti by done. }
  eexists. split; [done|].
  destruct (decide (y = z)) as [->|Hne].
  - apply list_lookup_insert_eq. destruct Hbo as [-> _]. done.
  - rewrite list_lookup_insert_ne by done.
    apply elem_of_app in Hy as [Hy|Hy%list_elem_of_singleton]; [|done].
    destruct (IH T Hy HlT HF Hy101) as (ti' & Hti' & Hrow). by simplify_eq.
Qed.

Lemma end_state_row (p : R) (x y : nat) :
  x = 0%nat ∨ x = 100%nat → (y < 101)%nat →
  MDP.getTransitionStatesAndProbs (game p) x y = Ok BettingGame.dead_row.
Proof.
  intros Hx Hy. destruct (tensor_shape p) as [Hlen HF].
  destruct (redirect_sets (seq 0 101) (BettingGame.tensor p) x y)
    as (ti & Hti & Hrow); [done | apply elem_of_seq; lia | lia | done..|].
  unfold MDP.getTransitionStatesAndProbs, index.
  cbn [game BettingGame.mdp BettingGame.setBettingGame MDP.t].
  rewrite Hti. cbn [mbind result_bind]. by rewrite Hrow.
Qed.

Lemma dead_row_sum : Rsum BettingGame.dead_row = 1.
Proof.
  unfold BettingGame.dead_row.
  change (replicate 102 0) with (replicate 101 0 ++ [0]).
  rewrite (insert_app_r_alt (replicate 101 0) [0] 101)
    by (by rewrite length_replicate).
  rewrite length_replicate. change (<[(101 - 101)%nat:=1]> [0]) with [1].
  assert (∀ k : nat, Rsum (replicate k 0 ++ [1]) = 1) as H; [|apply H].
  induction k as [|k IH]; [unfold Rsum; simpl; lra|].
  change (Rsum (replicate (S k) 0 ++ [1]))
    with (0 + Rsum (replicate k 0 ++ [1])). lra.
Qed.

(** Apart from the pairs in [overshoots], every transition row of the
    betting game sums to 1. *)
Lemma rows_sum_to_one_elsewhere (p : R) (x y : nat) :
  (x < 102)%nat → (y < 101)%nat →
  x = 0%nat ∨ x = 100%nat ∨ overshoots x y = false →
  ∃ row, MDP.getTransitionStatesAndProbs (game p) x y = Ok row ∧
         Rsum row = 1.
Proof.
  intros Hx Hy Hcase.
  destruct (decide (x = 0%nat ∨ x = 100%nat)) as [Hend|Hmid].
  - exists BettingGame.dead_row. split; [by apply end_state_row|].
    apply dead_row_sum.
  - assert (overshoots x y = false) as Hov by (destruct Hcase as [?|[?|?]]; tauto).
    eexists. split; [apply game_row; (lia || tauto)|].
    rewrite row_mass, Rsum_tally.
    pose proof (forallb_seq _ _ y (forallb_seq _ _ x tally_all Hx) Hy) as H.
    cbn beta in H. rewrite Hov in H. cbn [negb] in H.
    apply eqb_prop in H.
    destruct (tally (outcomes 102 x y)) as [[s l] w].
    unfold distribution_tally in H.
    destruct s as [|[|s]], l as [|[|l]], w as [|[|w]]; try done; simpl; lra.
Qed.

(** ** The end-game states are backed up *)

Lemma expected_unit (k : nat) (X : list R) (d : R) :
  length X = k → Spec.expected (X ++ [d]) (replicate k 0 ++ [1]) = d.
Proof.
  revert X. induction k as [|k IH]; intros X Hlen.
  - destruct X; [|done]. unfold Spec.expected, Rsum. simpl. lra.
  - destruct X as [|x X]; [done|]. simpl in Hlen.
    change (Spec.expected (x :: (X ++ [d])) (0 :: (replicate k 0 ++ [1])) = d).
    rewrite expected_cons, IH by lia. lra.
Qed.

Lemma expected_dead_row (W : list R) (d : R) :
  length W = 102%nat → W !! 101%nat = Some d →
  Spec.expected W BettingGame.dead_row = d.
Proof.
  intros Hlen Hd.
  assert (W = take 101 W ++ [d]) as ->.
  { rewrite <- (take_drop 101 W) at 1. f_equal.
    apply list_eq. intros [|i].
    - by rewrite lookup_drop, Nat.add_0_r.
    - rewrite lookup_drop. simpl. apply lookup_ge_None_2. lia. }
  assert (BettingGame.dead_row = replicate 101 0 ++ [1]) as ->.
  { unfold BettingGame.dead_row.
    change (replicate 102 0) with (replicate 101 0 ++ [0]).
    rewrite (insert_app_r_alt (replicate 101 0) [0] 101)
      by (by rewrite length_replicate).
    by rewrite length_replicate. }
  apply expected_unit. rewrite length_take. lia.
Qed.

Lemma end_state_bellman (p : R) (W : list R) (x : nat) (d v : R) :
  x = 0%nat ∨ x = 100%nat → length W = 102%nat → W !! 101%nat = Some d →
  Spec.bellman (game p) W x v →
  ∃ ri, MDP.r (game p) !! x = Some ri ∧ v = ri + 95 / 100 * d.
Proof.
  intros Hx Hlen Hd [ri ti mx Hri Hti HF [Hmx _]].
  exists ri. split; [done|]. cbn [game BettingGame.mdp BettingGame.setBettingGame
    MDP.discount MDP.init]. do 2 f_equal.
  apply list_elem_of_fmap in Hmx as (row & -> & Hrow).
  apply list_elem_of_lookup in Hrow as [y Hy].
  assert (y < 101)%nat as Hy101.
  { destruct (tensor_shape p) as [_ HFt].
    destruct (redirect_all_shape (seq 0 101) _ HFt) as [_ HFt'].
    rewrite Forall_lookup in HFt'. destruct (HFt' x ti Hti) as [Hl _].
    apply lookup_lt_Some in Hy. lia. }
  pose proof (end_state_row p x y Hx Hy101) as Hrow.
  unfold MDP.getTransitionStatesAndProbs in Hrow.
  apply bind_Ok in Hrow as (ti' & Hti'%index_Ok & Hrow%index_Ok).
  assert (ti' = ti) as -> by congruence.
  assert (row = BettingGame.dead_row) as -> by congruence.
  by apply expected_dead_row.
Qed.

(** Every sweep recomputes the values of the states 0 and 100 of the
    betting game, from the value of the dead state. *)
Lemma end_states_backed_up (p : R) (V V' : list R) :
  length V = 102%nat → MDP.sweep (game p) V = Ok V' →
  ∃ d, V !! 101%nat = Some d ∧
       V' !! 0%nat = Some (-10 + 95 / 100 * d) ∧
       V' !! 100%nat = Some (100 + 95 / 100 * d).
Proof.
  intros Hlen Hs. destruct (game_lengths p) as (Hls & _).
  destruct (lookup_lt_is_Some_2 V 101) as [d Hd]; [lia|].
  exists d. split; [done|].
  apply sweep_Ok in Hs as (HlV' & _ & Hin & _); [|simpl; lra].
  assert (Hmix : ∀ x, (x <= 100)%nat →
            length (take x V' ++ drop x V) = 102%nat ∧
            (take x V' ++ drop x V) !! 101%nat = Some d).
  { intros x Hx. split.
    - rewrite length_app, length_take, length_drop. lia.
    - rewrite lookup_app_r by (rewrite length_take; lia).
      rewrite length_take, lookup_drop.
      replace (x + (101 - x `min` length V'))%nat with 101%nat by lia. done. }
  split.
  - destruct (Hin 0%nat) as (v & Hv & Hb); [rewrite Hls; lia|].
    destruct (Hmix 0%nat) as [Hl0 Hd0]; [lia|].
    destruct (end_state_bellman p _ 0 d v (or_introl eq_refl) Hl0 Hd0 Hb)
      as (ri & Hri & ->).
    injection Hri as <-. done.
  - destruct (Hin 100%nat) as (v & Hv & Hb); [rewrite Hls; lia|].
    destruct (Hmix 100%nat) as [Hl0 Hd0]; [lia|].
    destruct (end_state_bellman p _ 100 d v (or_intror eq_refl) Hl0 Hd0 Hb)
      as (ri & Hri & ->).
    rewrite Hv. do 2 f_equal.
    cbn [game BettingGame.mdp BettingGame.setBettingGame MDP.r] in Hri.
    unfold BettingGame.rewards in Hri.
    rewrite list_lookup_insert_eq in Hri
      by (rewrite length_insert, length_replicate; lia).
    by injection Hri as <-.
Qed.

(** ** The claims on the betting game *)

(** C1 fails on the code: for a stake that would bring the gambler to
    exactly 101, here state 51 and action 50, [tHelper] gives [pHeads] both
    to state 101 and, through the edge case for winnings over 100, to state
    100, so the row sums to 1 + pHeads.  The rows of the other pairs of a
    state and an action, those outside [overshoots], do sum to 1. *)
Theorem row_51_50_sum (pHeads : R) :
  (∃ row, MDP.getTransitionStatesAndProbs (game pHeads) 51 50 = Ok row ∧
          row !! 1%nat = Some (1 - pHeads) ∧
          row !! 100%nat = Some pHeads ∧
          row !! 101%nat = Some pHeads ∧
          Rsum row = 1 + pHeads) ∧
  (∀ x y, (x < 102)%nat → (y < 101)%nat →
     x = 0%nat ∨ x = 100%nat ∨ overshoots x y = false →
     ∃ row, MDP.getTransitionStatesAndProbs (game pHeads) x y = Ok row ∧
            Rsum row = 1).
Proof.
  split; [|apply rows_sum_to_one_elsewhere].
  eexists. split; [apply game_row; lia|].
  vm_compute BettingGame.arange. cbn [fmap list_fmap].
  unfold BettingGame.tHelper. simpl. split_and!; [done..|].
  unfold Rsum. simpl. lra.
Qed.

(** C3, as the code has it: the one state left out of the backup loop is
    the last state of the state array.  After the solver has run, its value
    is still the initial 0 and its policy row is all zeros.  In the betting
    game that state is 101, the only state for which [isTerminal] holds;
    the states 0 and 100 are backed up in every sweep. *)
Theorem last_state_excluded (m m1 m2 : MDP.model) (fuel : nat)
    (epsilon tau : option R) :
  MDP.valueIteration fuel m epsilon = Some (Ok m1) →
  MDP.extractPolicy m1 tau = Ok m2 →
  excluded_from_backup m (length (MDP.s m) - 1) ∧
  (∃ V P, MDP.values m2 = Some V ∧ MDP.policy m2 = Some P ∧
     V !! (length (MDP.s m) - 1)%nat = Some 0 ∧
     P !! (length (MDP.s m) - 1)%nat
     = Some (replicate (length (MDP.a m)) (Real 0))) ∧
  (∀ p state, BettingGame.isTerminal state = true ↔
              state = Z.of_nat (length (MDP.s (game p)) - 1)) ∧
  (∀ p V V', length V = 102%nat → MDP.sweep (game p) V = Ok V' →
     ∃ d, V !! 101%nat = Some d ∧
          V' !! 0%nat = Some (-10 + 95 / 100 * d) ∧
          V' !! 100%nat = Some (100 + 95 / 100 * d)).
Proof.
  intros Hvi Hex. split_and!.
  - intros V V' _ HV'. by apply sweep_last.
  - apply valueIteration_last in Hvi as (V & -> & Hlen & Hn & HV).
    apply extractPolicy_last in Hex as (P & -> & HP).
    exists V, P. split_and!; [done | done | done |]. by apply HP.
  - intros p state. destruct (game_lengths p) as (-> & _).
    unfold BettingGame.isTerminal. rewrite Z.eqb_eq. lia.
  - apply end_states_backed_up.
Qed.

Lemma last_state_excluded_witness :
  excluded_from_backup toy (length (MDP.s toy) - 1) ∧
  (∃ V P,
     MDP.values (MDP.set_policy toy_solved (toy_policy (1 / 10))) = Some V ∧
     MDP.policy (MDP.set_policy toy_solved (toy_policy (1 / 10))) = Some P ∧
     V !! (length (MDP.s toy) - 1)%nat = Some 0 ∧
     P !! (length (MDP.s toy) - 1)%nat
     = Some (replicate (length (MDP.a toy)) (Real 0))) ∧
  (∀ p state, BettingGame.isTerminal state = true ↔
              state = Z.of_nat (length (MDP.s (game p)) - 1)) ∧
  (∀ p V V', length V = 102%nat → MDP.sweep (game p) V = Ok V' →
     ∃ d, V !! 101%nat = Some d ∧
          V' !! 0%nat = Some (-10 + 95 / 100 * d) ∧
          V' !! 100%nat = Some (100 + 95 / 100 * d)).
Proof.
  apply (last_state_excluded toy toy_solved
           (MDP.set_policy toy_solved (toy_policy (1 / 10))) 2 None None).
  - exact toy_valueIteration.
  - apply (toy_extractPolicy (1 / 10)). lra.
Defined.

(** C10: whatever [epsilon] and [tau] the constructor of the betting game
    receives, it runs value iteration with ε = 0.1 and extracts the policy
    with τ = 0.1, so its result does not depend on them; for a bias between
    0 and 1 it does return a game with values and a policy, given enough
    sweeps. *)
Theorem init_ignores_epsilon_tau (fuel : nat) (pHeads epsilon tau : option R) :
  (∀ epsilon' tau',
     BettingGame.init fuel pHeads epsilon tau
     = BettingGame.init fuel pHeads epsilon' tau') ∧
  BettingGame.init fuel pHeads epsilon tau
  = match MDP.valueIteration fuel (game (default (1 / 2) pHeads))
            (Some (1 / 10)) with
    | None => None
    | Some (Raise e) => Some (Raise e)
    | Some (Ok m) =>
        Some (m' ← MDP.extractPolicy m (Some (1 / 10));
              Ok (BettingGame.mk m' (default (1 / 2) pHeads)))
    end ∧
  (0 <= default (1 / 2) pHeads <= 1 →
   ∃ sweeps g,
     BettingGame.init sweeps pHeads epsilon tau = Some (Ok g) ∧
     is_Some (MDP.values (BettingGame.mdp g)) ∧
     is_Some (MDP.policy (BettingGame.mdp g))).
Proof.
  split_and!; [reflexivity | reflexivity |]. intros Hp.
  destruct (init_returns (default (1 / 2) pHeads) epsilon tau Hp)
    as (sweeps & g & Hg & _ & HV & HP).
  exists sweeps, g. split_and!; [|done..].
  rewrite init_unfold in Hg |- *. exact Hg.
Qed.

(** * Further properties of the solver *)

(** ** More sweeps than needed *)

Lemma vi_loop_more (m : MDP.model) (eps : R) (fuel k : nat) (V : list R)
    (res : result (list R)) :
  MDP.vi_loop fuel m eps V = Some res →
  MDP.vi_loop (fuel + k) m eps V = Some res.
Proof.
  revert V. induction fuel as [|fuel IH]; intros V; [done|].
  cbn [MDP.vi_loop Nat.add].
  destruct (MDP.sweep m V) as [V'|e]; [|done].
  destruct (MDP.delta V' V) as [d|e]; [|done].
  destruct (Rle_dec d eps); [done|]. apply IH.
Qed.

Lemma valueIteration_more (m : MDP.model) (epsilon : option R) (fuel k : nat)
    (res : result MDP.model) :
  MDP.valueIteration fuel m epsilon = Some res →
  MDP.valueIteration (fuel + k) m epsilon = Some res.
Proof.
  unfold MDP.valueIteration. intros H.
  destruct (MDP.vi_loop fuel m _ _) as [res'|] eqn:E; [|done].
  by rewrite (vi_loop_more _ _ _ k _ _ E).
Qed.

Lemma toy_is_shaped : shaped toy.
Proof.
  split_and!; simpl; [lia..|].
  intros i ti Hi Hti.
  destruct i as [|[|i]]; [| |lia]; injection Hti as <-;
    (split; [done | by repeat constructor]).
Qed.

Lemma toy_substochastic : substochastic toy.
Proof.
  intros i ti Hi Hti. simpl in Hi.
  destruct i as [|[|i]]; [| |lia]; injection Hti as <-;
    repeat first [apply Forall_nil | apply Forall_cons; split | split];
    unfold Rsum; simpl; lra.
Qed.

(** X1: for a well-shaped model whose transition rows are non-negative
    with mass at most 1 on the states other than the last, a discount in
    [0, 1), at least one state and a positive [epsilon], value iteration
    stops after finitely many sweeps; allowing more sweeps than it needs
    does not change the values it returns. *)
Theorem valueIteration_converges (m : MDP.model) (epsilon : option R) :
  shaped m → substochastic m → 0 <= MDP.discount m < 1 →
  (1 <= length (MDP.s m))%nat → 0 < default (1 / 10) epsilon →
  ∃ sweeps V,
    length V = length (MDP.s m) ∧
    ∀ k, MDP.valueIteration (sweeps + k) m epsilon
         = Some (Ok (MDP.set_values m V)).
Proof.
  intros Hsh Hsub Hd Hn He.
  destruct (valueIteration_terminates m epsilon Hsh Hsub Hd Hn He)
    as (fuel & V & HV & Hl).
  exists fuel, V. split; [done|]. intros k. by apply valueIteration_more.
Qed.

Lemma valueIteration_converges_witness :
  ∃ sweeps V,
    length V = length (MDP.s toy) ∧
    ∀ k, MDP.valueIteration (sweeps + k) toy None
         = Some (Ok (MDP.set_values toy V)).
Proof.
  apply (valueIteration_converges toy None).
  - exact toy_is_shaped.
  - exact toy_substochastic.
  - simpl; lra.
  - simpl; lia.
  - simpl; lra.
Defined.

(** X2: a sweep is a contraction.  When two value vectors agree on the
    last state and differ by at most [D] on the others, the vectors a
    sweep makes of them differ by at most [discount * D]. *)
Theorem sweep_is_contraction (m : MDP.model) (D : R) (V V' W W' : list R) :
  substochastic m → 0 <= MDP.discount m <= 1 → 0 <= D →
  (1 <= length (MDP.s m))%nat →
  close (length (MDP.s m)) D V W →
  MDP.sweep m V = Ok V' → MDP.sweep m W = Ok W' →
  close (length (MDP.s m)) (MDP.discount m * D) V' W'.
Proof.
  intros Hsub Hd HD Hn Hcl HV HW.
  apply (sweep_contracts m D V V' W W'); try done;
    apply sweep_Ok; (done || lra).
Qed.

Lemma toy_close : close 3 1 [0; 0; 0] [1; -1; 0].
Proof.
  split_and!; [done..|]. intros j x y Hx Hy.
  destruct j as [|[|[|j]]]; simpl in *; try done;
    injection Hx as <-; injection Hy as <-; try case_decide; try lia;
    eval_Rmax; lra.
Qed.

Lemma sweep_is_contraction_witness :
  close (length (MDP.s toy)) (MDP.discount toy * 1)
    [1; 95 / 100; 0] [1; 95 / 100; 0].
Proof.
  apply (sweep_is_contraction toy 1 [0; 0; 0] _ [1; -1; 0] _).
  - exact toy_substochastic.
  - simpl; lra.
  - lra.
  - simpl; lia.
  - exact toy_close.
  - apply toy_sweep.
  - apply toy_sweep.
Defined.

(** ** The last sweep of value iteration *)

Lemma vi_loop_last_sweep (m : MDP.model) (eps : R) (fuel : nat)
    (V V'' : list R) :
  MDP.vi_loop fuel m eps V = Some (Ok V'') →
  ∃ U d, length U = length V ∧ MDP.sweep m U = Ok V'' ∧
         MDP.delta V'' U = Ok d ∧ d <= eps.
Proof.
  revert V. induction fuel as [|fuel IH]; intros V; [done|].
  cbn [MDP.vi_loop].
  destruct (MDP.sweep m V) as [V'|e] eqn:Hs; [|done].
  destruct (MDP.delta V' V) as [d|e] eqn:Hd; [|done].
  destruct (Rle_dec d eps) as [Hle|Hnle].
  - intros [= <-]. by exists V, d.
  - intros H. destruct (IH V' H) as (U & d' & Hl & HU).
    exists U, d'. split; [|done].
    rewrite Hl. by apply sweep_length in Hs.
Qed.

Lemma delta_close (n : nat) (V' V : list R) (d : R) :
  length V = n → length V' = n → V !! (n - 1)%nat = V' !! (n - 1)%nat →
  MDP.delta V' V = Ok d → 0 <= d ∧ close n d V V'.
Proof.
  intros HlV HlV' Hlast Hd. apply delta_Ok in Hd as [Hin Hmax].
  assert (Hd0 : 0 <= d).
  { apply list_elem_of_fmap in Hin as (z & -> & _). apply Rabs_pos. }
  split; [done|]. split_and!; [done..|].
  intros j x y Hx Hy. case_decide as Hj.
  - rewrite Rabs_minus_sym. apply Hmax.
    apply list_elem_of_fmap. exists (y - x). split; [done|].
    apply list_elem_of_lookup. exists j.
    by rewrite lookup_zip_with, Hy, Hx.
  - assert (j = n - 1)%nat as ->.
    { apply lookup_lt_Some in Hx. lia. }
    rewrite Hx, Hy in Hlast. injection Hlast as ->.
    rewrite Rminus_diag, Rabs_R0. lra.
Qed.

(** X3: the values that value iteration returns are nearly a fixed point
    of the sweep: one more sweep succeeds and changes no value by more
    than [discount * epsilon]. *)
Theorem valueIteration_residual (m m1 : MDP.model) (fuel : nat)
    (epsilon : option R) :
  shaped m → substochastic m → 0 <= MDP.discount m <= 1 →
  MDP.valueIteration fuel m epsilon = Some (Ok m1) →
  ∃ V V',
    MDP.values m1 = Some V ∧ MDP.sweep m V = Ok V' ∧
    ∀ j x y, V !! j = Some x → V' !! j = Some y →
      Rabs (y - x) <= MDP.discount m * default (1 / 10) epsilon.
Proof.
  intros Hsh Hsub Hd Hvi. unfold MDP.valueIteration in Hvi.
  destruct (MDP.vi_loop fuel m _ _) as [[V|e]|] eqn:E; [|done..].
  injection Hvi as <-.
  destruct (vi_loop_last_sweep _ _ _ _ _ E) as (U & d & HlU & HsU & Hdl & Hle).
  rewrite length_replicate in HlU.
  pose proof (sweep_length _ _ _ _ _ HsU) as HlV. rewrite HlU in HlV.
  assert (Hn : (1 <= length (MDP.s m))%nat).
  { destruct (MDP.s m); [|simpl; lia]. destruct U; [|done].
    destruct V; [|done]. done. }
  destruct (delta_close (length (MDP.s m)) V U d HlU HlV) as [Hd0 Hcl];
    [symmetry; by apply sweep_last | done |].
  destruct (sweep_total m V Hsh HlV) as [V' HsV].
  exists V, V'. split_and!; [done..|].
  assert (Hcl' : close (length (MDP.s m)) (MDP.discount m * d) V V').
  { apply (sweep_contracts m d U V V V'); try done;
      apply sweep_Ok; (done || lra). }
  intros j x y Hx Hy. destruct Hcl' as (_ & _ & Hcl').
  rewrite Rabs_minus_sym. pose proof (Hcl' j x y Hx Hy) as H.
  case_decide; [nra|]. assert (0 <= MDP.discount m * default (1 / 10) epsilon) by nra.
  lra.
Qed.

Lemma valueIteration_residual_witness :
  ∃ V V',
    MDP.values toy_solved = Some V ∧ MDP.sweep toy V = Ok V' ∧
    ∀ j x y, V !! j = Some x → V' !! j = Some y →
      Rabs (y - x) <= MDP.discount toy * default (1 / 10) None.
Proof.
  apply (valueIteration_residual toy toy_solved 2 None).
  - exact toy_is_shaped.
  - exact toy_substochastic.
  - simpl; lra.
  - exact toy_valueIteration.
Defined.

(** ** A negative [epsilon] *)

Lemma delta_total (V' V : list R) :
  length V' = length V → (1 <= length V)%nat →
  ∃ d, MDP.delta V' V = Ok d ∧ 0 <= d.
Proof.
  intros Hl Hn.
  destruct (is_max_exists (Rabs <$> zip_with Rminus V' V)) as [d Hd].
  { destruct V', V; simpl in *; try lia. done. }
  exists d. split; [by apply delta_Ok|].
  destruct Hd as [Hin _]. apply list_elem_of_fmap in Hin as (z & -> & _).
  apply Rabs_pos.
Qed.

Lemma vi_loop_negative (m : MDP.model) (eps : R) (fuel : nat) (V : list R) :
  shaped m → (1 <= length (MDP.s m))%nat → eps < 0 →
  length V = length (MDP.s m) →
  MDP.vi_loop fuel m eps V = None.
Proof.
  intros Hsh Hn He. revert V. induction fuel as [|fuel IH]; intros V HlV; [done|].
  cbn [MDP.vi_loop].
  destruct (sweep_total m V Hsh HlV) as [V' Hs]. rewrite Hs.
  pose proof (sweep_length _ _ _ _ _ Hs) as HlV'.
  destruct (delta_total V' V) as (d & -> & Hd0); [lia | lia |].
  destruct (Rle_dec d eps); [lra|]. apply IH. lia.
Qed.

(** X4: with a negative [epsilon] value iteration never returns on a
    well-shaped model with at least one state: the change of a sweep is a
    maximum of absolute values, never below 0, so the loop does not break,
    whatever the number of sweeps. *)
Theorem valueIteration_negative_epsilon (m : MDP.model) (eps : R) (fuel : nat) :
  shaped m → (1 <= length (MDP.s m))%nat → eps < 0 →
  MDP.valueIteration fuel m (Some eps) = None.
Proof.
  intros Hsh Hn He. unfold MDP.valueIteration.
  rewrite vi_loop_negative; [done..|]. apply length_replicate.
Qed.

Lemma valueIteration_negative_epsilon_witness :
  MDP.valueIteration 1000 toy (Some (-1)) = None.
Proof.
  apply (valueIteration_negative_epsilon toy (-1) 1000).
  - exact toy_is_shaped.
  - simpl; lia.
  - lra.
Defined.

(** X5: on a model without states the first sweep of value iteration
    changes nothing and [np.max] of the empty array of changes raises
    [ValueError]; [extractPolicy] raises nothing and stores an empty
    policy. *)
Theorem no_states (m : MDP.model) (fuel : nat) (epsilon tau : option R) :
  MDP.s m = [] →
  MDP.valueIteration (S fuel) m epsilon = Some (Raise ValueError) ∧
  MDP.extractPolicy m tau = Ok (MDP.set_policy m []).
Proof.
  intros Hs. unfold MDP.valueIteration, MDP.extractPolicy, MDP.sweep.
  cbn [MDP.vi_loop]. unfold MDP.sweep. rewrite Hs. done.
Qed.

Lemma no_states_witness :
  MDP.valueIteration 1 (MDP.init [] [] [] []) None = Some (Raise ValueError) ∧
  MDP.extractPolicy (MDP.init [] [] [] []) None
  = Ok (MDP.set_policy (MDP.init [] [] [] []) []).
Proof.
  apply (no_states (MDP.init [] [] [] []) 0 None None). reflexivity.
Defined.

(** X6: [extractPolicy] on a well-shaped model with at least two states
    whose values have not been computed raises [TypeError]: the product
    of the transition block with [None] fails at the first state. *)
Theorem extractPolicy_needs_values (m : MDP.model) (tau : option R) :
  shaped m → (2 <= length (MDP.s m))%nat → MDP.values m = None →
  MDP.extractPolicy m tau = Raise TypeError.
Proof.
  intros (_ & Hr & Ht & _) Hn Hv. unfold MDP.extractPolicy.
  destruct (length (MDP.s m) - 1)%nat as [|k] eqn:Ek; [lia|].
  assert (Hsp : ∀ tau', MDP.state_policy m tau' 0 = Raise TypeError).
  { intros tau'. unfold MDP.state_policy.
    destruct (MDP.r m) as [|r0 rs]; [simpl in Hr; lia|].
    destruct (MDP.t m) as [|t0 ts]; [simpl in Ht; lia|].
    by rewrite Hv. }
  cbn [seq foldR]. unfold MDP.policy_body. by rewrite Hsp.
Qed.

Lemma extractPolicy_needs_values_witness :
  MDP.extractPolicy toy None = Raise TypeError.
Proof.
  apply (extractPolicy_needs_values toy None).
  - exact toy_is_shaped.
  - simpl; lia.
  - reflexivity.
Defined.

(** ** The softmax at temperature 0 *)

Lemma fsum_nan (l : list npfloat) : NaN ∈ l → fsum l = NaN.
Proof.
  induction l as [|x l IH]; intros Hin; [by apply elem_of_nil in Hin|].
  apply elem_of_cons in Hin as [<-|Hin]; [done|].
  cbn [fsum foldr]. fold (fsum l). rewrite (IH Hin). by destruct x.
Qed.

Lemma fdiv_nan_all (l : list npfloat) :
  (fun x => fdiv x NaN) <$> l = replicate (length l) NaN.
Proof.
  induction l as [|x l IH]; [done|].
  cbn [fmap list_fmap length replicate]. f_equal; [by destruct x | exact IH].
Qed.

Lemma softmax_row_zero (q : list R) :
  q ≠ [] → MDP.softmax_row 0 q = Ok (replicate (length q) NaN).
Proof.
  intros Hq. destruct (is_max_exists q Hq) as [mx Hmx].
  unfold MDP.softmax_row. apply np_max_Ok in Hmx as Hmx'. rewrite Hmx'.
  cbn [mbind result_bind]. f_equal.
  rewrite fsum_nan.
  - by rewrite fdiv_nan_all, !length_fmap.
  - destruct Hmx as [Hin _].
    apply list_elem_of_fmap. exists (mx - mx). split.
    + rewrite Rminus_diag. simpl. by rewrite !Reqb_true.
    + apply list_elem_of_fmap. by exists mx.
Qed.

Lemma state_policy_zero (m : MDP.model) (V : list R) (i : nat) :
  shaped m → MDP.values m = Some V → length V = length (MDP.s m) →
  (i < length (MDP.s m) - 1)%nat →
  MDP.state_policy m 0 i = Ok (replicate (length (MDP.a m)) NaN).
Proof.
  intros (HA & Hr & Ht & Hrows) HV Hlen Hi.
  destruct (lookup_lt_is_Some_2 (MDP.r m) i) as [ri Hri]; [lia|].
  destruct (lookup_lt_is_Some_2 (MDP.t m) i) as [ti Hti]; [lia|].
  destruct (Hrows i ti Hi Hti) as [Hlti HF].
  unfold MDP.state_policy.
  apply index_Ok in Hri as ->. apply index_Ok in Hti as ->. rewrite HV.
  cbn [mbind result_bind from_option].
  assert (Hdot : np_dot ti V = Ok (Spec.expected V <$> ti)).
  { apply np_dot_Ok. split; [|done]. by rewrite Hlen. }
  rewrite Hdot. cbn [mbind result_bind].
  rewrite softmax_row_zero.
  - by rewrite !length_fmap, Hlti.
  - destruct ti; [simpl in Hlti; lia | done].
Qed.

(** X7: at temperature 0 [extractPolicy] raises nothing.  The shifted
    action values are divided by 0, the best action gives 0/0, the sum of
    the exponentials is NaN, and every policy row of a state other than
    the last is NaN throughout. *)
Theorem extractPolicy_zero_tau (m : MDP.model) (V : list R) :
  shaped m → MDP.values m = Some V → length V = length (MDP.s m) →
  ∃ P, MDP.extractPolicy m (Some 0) = Ok (MDP.set_policy m P) ∧
    length P = length (MDP.s m) ∧
    ∀ i, (i < length (MDP.s m) - 1)%nat →
      P !! i = Some (replicate (length (MDP.a m)) NaN).
Proof.
  intros Hsh HV Hlen.
  destruct (policy_range m 0 (length (MDP.s m) - 1) 0
              (replicate (length (MDP.s m))
                 (replicate (length (MDP.a m)) (Real 0))))
    as (P & HP & HlP & Hin & _).
  { rewrite length_replicate. lia. }
  { intros i Hi. eexists. split; [apply (state_policy_zero m V); (done || lia)|].
    apply length_replicate. }
  rewrite length_replicate in HlP.
  exists P. split_and!; [|done|].
  - unfold MDP.extractPolicy. simpl. by rewrite HP.
  - intros i Hi. destruct (Hin i) as (row & Hrow & ->); [lia|].
    rewrite (state_policy_zero m V) in Hrow by done. by injection Hrow as <-.
Qed.

Lemma extractPolicy_zero_tau_witness :
  ∃ P, MDP.extractPolicy toy_solved (Some 0) = Ok (MDP.set_policy toy_solved P) ∧
    length P = length (MDP.s toy_solved) ∧
    ∀ i, (i < length (MDP.s toy_solved) - 1)%nat →
      P !! i = Some (replicate (length (MDP.a toy_solved)) NaN).
Proof.
  apply (extractPolicy_zero_tau toy_solved [1; 95 / 100; 0]).
  - exact toy_shaped.
  - reflexivity.
  - reflexivity.
Defined.

(** ** The policy prefers the better actions *)

Lemma exp_le (x y : R) : x <= y → exp x <= exp y.
Proof.
  intros [H| ->]; [left; by apply exp_increasing | lra].
Qed.

Lemma softmax_lookup (tau mx : R) (q : list R) (a : nat) (qa : R) :
  q !! a = Some qa →
  Spec.softmax tau mx q !! a
  = Some (exp ((qa - mx) / tau)
          / Rsum ((fun x => exp ((x - mx) / tau)) <$> q)).
Proof.
  intros Hqa. unfold Spec.softmax. by rewrite !list_lookup_fmap, Hqa.
Qed.

Lemma softmax_entries (tau mx : R) (q : list R) (a : nat) (pa : R) :
  Spec.softmax tau mx q !! a = Some pa → 0 < pa <= 1.
Proof.
  intros Hpa.
  destruct (lookup_lt_is_Some_2 q a) as [qa Hqa].
  { apply lookup_lt_Some in Hpa. unfold Spec.softmax in Hpa.
    by rewrite !length_fmap in Hpa. }
  rewrite (softmax_lookup _ _ _ _ _ Hqa) in Hpa. injection Hpa as <-.
  set (e := (fun x => exp ((x - mx) / tau)) <$> q).
  assert (HF : Forall (fun x => 0 <= x) e).
  { apply Forall_fmap, Forall_forall. intros x _. left. apply exp_pos. }
  assert (He : e !! a = Some (exp ((qa - mx) / tau))).
  { unfold e. by rewrite list_lookup_fmap, Hqa. }
  pose proof (exp_pos ((qa - mx) / tau)) as Hpos.
  pose proof (Rsum_ge_elem e a _ HF He) as Hle.
  split.
  - apply Rdiv_lt_0_compat; lra.
  - apply (Rmult_le_reg_r (Rsum e)); [lra|]. field_simplify; lra.
Qed.

Lemma softmax_monotone (tau mx : R) (q : list R) (a b : nat)
    (qa qb pa pb : R) :
  q !! a = Some qa → q !! b = Some qb →
  Spec.softmax tau mx q !! a = Some pa →
  Spec.softmax tau mx q !! b = Some pb →
  qa <= qb → (0 < tau → pa <= pb) ∧ (tau < 0 → pb <= pa).
Proof.
  intros Hqa Hqb Hpa Hpb Hle.
  rewrite (softmax_lookup _ _ _ _ _ Hqa) in Hpa. injection Hpa as <-.
  rewrite (softmax_lookup _ _ _ _ _ Hqb) in Hpb. injection Hpb as <-.
  set (e := (fun x => exp ((x - mx) / tau)) <$> q).
  assert (HS : 0 < Rsum e).
  { apply Rsum_pos.
    - unfold e. destruct q; [done | done].
    - apply Forall_fmap, Forall_forall. intros x _. apply exp_pos. }
  assert (Hinv : 0 < / Rsum e) by by apply Rinv_0_lt_compat.
  split; intros Htau; unfold Rdiv at 1 3;
    apply Rmult_le_compat_r; try lra; apply exp_le; unfold Rdiv.
  - apply Rmult_le_compat_r; [|lra]. left. by apply Rinv_0_lt_compat.
  - assert (H : / tau < 0) by by apply Rinv_lt_0_compat. nra.
Qed.

(** X8: at a positive temperature every policy row of a state other than
    the last has one finite entry per action, each between 0 and 1, and
    an action with a higher action value never has the lower
    probability. *)
Theorem policy_prefers_better_actions (m : MDP.model) (V : list R) (tau : R) :
  shaped m → MDP.values m = Some V → length V = length (MDP.s m) →
  0 < tau →
  ∃ m2 P, MDP.extractPolicy m (Some tau) = Ok m2 ∧
    MDP.policy m2 = Some P ∧
    ∀ i, (i < length (MDP.s m) - 1)%nat →
      ∃ ri ti row,
        MDP.r m !! i = Some ri ∧ MDP.t m !! i = Some ti ∧
        P !! i = Some (Real <$> row) ∧
        length row = length (MDP.a m) ∧
        (∀ a pa, row !! a = Some pa → 0 <= pa <= 1) ∧
        (∀ a b qa qb pa pb,
           Spec.action_values m V ri ti !! a = Some qa →
           Spec.action_values m V ri ti !! b = Some qb →
           row !! a = Some pa → row !! b = Some pb → qa <= qb →
           pa <= pb).
Proof.
  intros Hsh HV Hlen Htau.
  destruct (extractPolicy_total m V tau) as (P & HP & HlP & Hrows); [done..|].
  exists (MDP.set_policy m P), P. split_and!; [done..|]. intros i Hi.
  destruct (state_policy_Ok m V tau i)
    as (ri & ti & mx & Hri & Hti & Hl & Hmx & Hsp); [done..|].
  destruct (Hrows i Hi) as (row & Hrow & HPi).
  rewrite Hsp in Hrow. injection Hrow as <-.
  exists ri, ti, (Spec.softmax tau mx (Spec.action_values m V ri ti)).
  split_and!; [done..| | |].
  - unfold Spec.softmax, Spec.action_values. by rewrite !length_fmap.
  - intros a pa Hpa. apply softmax_entries in Hpa. lra.
  - intros a b qa qb pa pb Hqa Hqb Hpa Hpb Hle.
    by apply (softmax_monotone tau mx _ a b qa qb pa pb Hqa Hqb Hpa Hpb Hle).
Qed.

Lemma policy_prefers_better_actions_witness :
  ∃ m2 P, MDP.extractPolicy toy_solved (Some (1 / 10)) = Ok m2 ∧
    MDP.policy m2 = Some P ∧
    ∀ i, (i < length (MDP.s toy_solved) - 1)%nat →
      ∃ ri ti row,
        MDP.r toy_solved !! i = Some ri ∧ MDP.t toy_solved !! i = Some ti ∧
        P !! i = Some (Real <$> row) ∧
        length row = length (MDP.a toy_solved) ∧
        (∀ a pa, row !! a = Some pa → 0 <= pa <= 1) ∧
        (∀ a b qa qb pa pb,
           Spec.action_values toy_solved [1; 95 / 100; 0] ri ti !! a = Some qa →
           Spec.action_values toy_solved [1; 95 / 100; 0] ri ti !! b = Some qb →
           row !! a = Some pa → row !! b = Some pb → qa <= qb →
           pa <= pb).
Proof.
  apply (policy_prefers_better_actions toy_solved [1; 95 / 100; 0] (1 / 10)).
  - exact toy_shaped.
  - reflexivity.
  - reflexivity.
  - lra.
Defined.

(** ** The values stay bounded *)

Lemma bellman_zeros (m : MDP.model) (i : nat) (ri : R) :
  shaped m → (i < length (MDP.s m) - 1)%nat → MDP.r m !! i = Some ri →
  Spec.bellman m (replicate (length (MDP.s m)) 0) i (ri + MDP.discount m * 0).
Proof.
  intros (HA & Hr & Ht & Hrows) Hi Hri.
  destruct (lookup_lt_is_Some_2 (MDP.t m) i) as [ti Hti]; [lia|].
  destruct (Hrows i ti Hi Hti) as [Hlti HF].
  apply (Spec.bellman_intro m _ i ri ti 0 Hri Hti).
  - by rewrite length_replicate.
  - split.
    + destruct ti as [|row ti]; [simpl in Hlti; lia|].
      cbn [fmap list_fmap]. rewrite expected_zeros. apply elem_of_cons. by left.
    + intros x Hx. apply list_elem_of_fmap in Hx as (row & -> & _).
      rewrite expected_zeros. lra.
Qed.

Lemma sweep_bounded (m : MDP.model) (M : R) (V V' : list R) :
  shaped m → substochastic m → 0 <= MDP.discount m < 1 → 0 <= M →
  (1 <= length (MDP.s m))%nat →
  (∀ i ri, (i < length (MDP.s m) - 1)%nat → MDP.r m !! i = Some ri →
           Rabs ri <= M) →
  close (length (MDP.s m)) (M / (1 - MDP.discount m)) V
        (replicate (length (MDP.s m)) 0) →
  MDP.sweep m V = Ok V' →
  close (length (MDP.s m)) (M / (1 - MDP.discount m)) V'
        (replicate (length (MDP.s m)) 0).
Proof.
  intros Hsh Hsub Hd HM Hn Hr Hcl Hs.
  assert (HB : 0 <= M / (1 - MDP.discount m)).
  { apply Rmult_le_pos; [done|]. left. apply Rinv_0_lt_compat. lra. }
  assert (HMB : M + MDP.discount m * (M / (1 - MDP.discount m))
                = M / (1 - MDP.discount m)) by (field; lra).
  revert HB HMB Hcl. generalize (M / (1 - MDP.discount m)). intros B HB HMB Hcl.
  apply sweep_Ok in Hs as (HlV' & _ & Hin & Hout); [|lra].
  pose proof Hcl as (HlV & HlZ & Hclose).
  assert (Hlow : ∀ j, (j < length (MDP.s m) - 1)%nat →
            ∀ x, V' !! j = Some x → Rabs x <= B).
  { intros j. induction j as [j IH] using lt_wf_ind. intros Hj x Hx.
    destruct (Hin j Hj) as (x' & Hx' & Hbx).
    rewrite Hx in Hx'. injection Hx' as <-.
    destruct (lookup_lt_is_Some_2 (MDP.r m) j) as [rj Hrj].
    { destruct Hsh as (_ & Hlr & _). lia. }
    pose proof (bellman_zeros m j rj Hsh Hj Hrj) as Hbz.
    assert (Hmix : close (length (MDP.s m)) B (take j V' ++ drop j V)
                     (replicate (length (MDP.s m)) 0)).
    { rewrite <- (take_drop j (replicate (length (MDP.s m)) 0)).
      apply (mixed_close (length (MDP.s m)) j B B);
        [done | lra | done | lia | |].
      - apply length_replicate.
      - intros k a b Hk Ha Hb. apply lookup_replicate in Hb as [-> _].
        rewrite Rminus_0_r. apply (IH k); [done | lia | done]. }
    pose proof (bellman_lipschitz m _ _ j x _ B Hsub ltac:(lra) Hn Hj
                  Hmix Hbx Hbz) as Hlip.
    pose proof (Hr j rj Hj Hrj) as Hrb.
    apply Rabs_bounds in Hlip. apply Rabs_bounds in Hrb.
    apply Rabs_le. lra. }
  split_and!; [lia | done |].
  intros j x y Hx Hy. case_decide as Hj.
  - apply lookup_replicate in Hy as [-> _]. rewrite Rminus_0_r.
    by apply (Hlow j Hj x).
  - rewrite Hout in Hx by lia.
    pose proof (Hclose j x y Hx Hy) as H. by rewrite decide_False in H.
Qed.

Lemma vi_loop_bounded (m : MDP.model) (M eps : R) (fuel : nat)
    (V V'' : list R) :
  shaped m → substochastic m → 0 <= MDP.discount m < 1 → 0 <= M →
  (1 <= length (MDP.s m))%nat →
  (∀ i ri, (i < length (MDP.s m) - 1)%nat → MDP.r m !! i = Some ri →
           Rabs ri <= M) →
  close (length (MDP.s m)) (M / (1 - MDP.discount m)) V
        (replicate (length (MDP.s m)) 0) →
  MDP.vi_loop fuel m eps V = Some (Ok V'') →
  close (length (MDP.s m)) (M / (1 - MDP.discount m)) V''
        (replicate (length (MDP.s m)) 0).
Proof.
  intros Hsh Hsub Hd HM Hn Hr. revert V.
  induction fuel as [|fuel IH]; intros V Hcl; [done|].
  cbn [MDP.vi_loop].
  destruct (MDP.sweep m V) as [V'|e] eqn:Hs; [|done].
  pose proof (sweep_bounded m M V V' Hsh Hsub Hd HM Hn Hr Hcl Hs) as Hcl'.
  destruct (MDP.delta V' V) as [d|e]; [|done].
  destruct (Rle_dec d eps); [by intros [= <-] | by apply IH].
Qed.

(** X9: when the rewards of the states other than the last are bounded
    by [M] in absolute value, the values returned by value iteration are
    bounded by [M / (1 - discount)], under the conditions of convergence
    on the rows and the discount. *)
Theorem values_bounded (m m1 : MDP.model) (M : R) (fuel : nat)
    (epsilon : option R) :
  shaped m → substochastic m → 0 <= MDP.discount m < 1 → 0 <= M →
  (∀ i ri, (i < length (MDP.s m) - 1)%nat → MDP.r m !! i = Some ri →
           Rabs ri <= M) →
  MDP.valueIteration fuel m epsilon = Some (Ok m1) →
  ∃ V, MDP.values m1 = Some V ∧
       ∀ j x, V !! j = Some x → Rabs x <= M / (1 - MDP.discount m).
Proof.
  intros Hsh Hsub Hd HM Hr Hvi.
  destruct (valueIteration_last _ _ _ _ Hvi) as (V & -> & HlV & Hn & _).
  exists V. split; [done|].
  unfold MDP.valueIteration in Hvi.
  destruct (MDP.vi_loop fuel m _ _) as [[V1|e]|] eqn:E; [|done..].
  assert (V1 = V) as -> by (injection Hvi; congruence).
  assert (HB : 0 <= M / (1 - MDP.discount m)).
  { apply Rmult_le_pos; [done|]. left. apply Rinv_0_lt_compat. lra. }
  assert (Hcl : close (length (MDP.s m)) (M / (1 - MDP.discount m)) V
                  (replicate (length (MDP.s m)) 0)).
  { eapply (vi_loop_bounded m M _ fuel _ V Hsh Hsub Hd HM Hn Hr); [|exact E].
    split_and!; [apply length_replicate..|].
    intros j x y Hx Hy. apply lookup_replicate in Hx as [-> _].
    apply lookup_replicate in Hy as [-> _].
    rewrite Rminus_diag, Rabs_R0. case_decide; lra. }
  destruct Hcl as (_ & _ & Hcl). intros j x Hx.
  pose proof (lookup_lt_Some _ _ _ Hx) as Hj.
  assert (Hz : replicate (length (MDP.s m)) 0 !! j = Some 0).
  { apply lookup_replicate. split; [done | lia]. }
  pose proof (Hcl j x 0 Hx Hz) as H. rewrite Rminus_0_r in H.
  case_decide; lra.
Qed.

Lemma values_bounded_witness :
  ∃ V, MDP.values toy_solved = Some V ∧
       ∀ j x, V !! j = Some x → Rabs x <= 1 / (1 - MDP.discount toy).
Proof.
  apply (values_bounded toy toy_solved 1 2 None).
  - exact toy_is_shaped.
  - exact toy_substochastic.
  - simpl; lra.
  - lra.
  - intros i ri Hi Hri. simpl in Hi.
    destruct i as [|[|i]]; [| |lia]; injection Hri as <-; eval_Rmax; lra.
  - exact toy_valueIteration.
Defined.

(** ** Random choice *)

Lemma Rsum_app (l k : list R) : Rsum (l ++ k) = Rsum l + Rsum k.
Proof.
  induction l as [|x l IH]; simpl; [lra|].
  unfold Rsum in *. simpl. rewrite IH. lra.
Qed.

Lemma Rsum_take_S (p : list R) (i : nat) (x : R) :
  p !! i = Some x → Rsum (take (S i) p) = Rsum (take i p) + x.
Proof.
  intros Hx. rewrite (take_S_r _ _ _ Hx), Rsum_app. unfold Rsum. simpl. lra.
Qed.

Lemma Rsum_take_mono (p : list R) (i j : nat) :
  Forall (fun x => 0 <= x) p → (i <= j)%nat →
  Rsum (take i p) <= Rsum (take j p).
Proof.
  intros HF Hij. induction Hij as [|j Hij IH]; [lra|].
  destruct (p !! j) as [x|] eqn:Hx.
  - rewrite (Rsum_take_S _ _ _ Hx).
    pose proof (Forall_lookup_1 _ _ _ _ HF Hx). simpl in *. lra.
  - apply lookup_ge_None in Hx.
    rewrite (take_ge p (S j)) by lia. by rewrite (take_ge p j) in IH by lia.
Qed.

Lemma cumsum_length (acc : R) (p : list R) : length (cumsum acc p) = length p.
Proof. revert acc. induction p as [|x p IH]; intros acc; simpl; [done|]. by rewrite IH. Qed.

Lemma cumsum_lookup (acc : R) (p : list R) (i : nat) :
  (i < length p)%nat →
  cumsum acc p !! i = Some (acc + Rsum (take (S i) p)).
Proof.
  revert acc i. induction p as [|x p IH]; intros acc i Hi; simpl in Hi; [lia|].
  destruct i as [|i].
  - simpl. try rewrite take_0. unfold Rsum. simpl. do 2 f_equal. lra.
  - cbn [cumsum lookup list_lookup]. rewrite IH by lia. f_equal.
    change (take (S (S i)) (x :: p)) with (x :: take (S i) p).
    change (Rsum (x :: take (S i) p)) with (x + Rsum (take (S i) p)). lra.
Qed.

Lemma cumsum_last (p : list R) :
  p ≠ [] → last (cumsum 0 p) = Some (Rsum p).
Proof.
  intros Hp. rewrite last_lookup, cumsum_length.
  destruct p as [|x p]; [done|]. cbn [length Nat.pred].
  rewrite cumsum_lookup by (simpl; lia).
  rewrite take_ge by (simpl; lia). do 2 f_equal. lra.
Qed.

(** The first entry above [u] is at [i]. *)
Lemma searchsorted_right_at (cdf : list R) (u : R) (i : nat) (c : R) :
  (∀ j x, (j < i)%nat → cdf !! j = Some x → x <= u) →
  cdf !! i = Some c → u < c →
  searchsorted_right cdf u = i.
Proof.
  revert i. induction cdf as [|x cdf IH]; intros i Hlow Hi Hc; [done|].
  cbn [searchsorted_right]. destruct i as [|i].
  - injection Hi as ->. by destruct (Rlt_dec u c).
  - pose proof (Hlow 0%nat x ltac:(lia) eq_refl) as Hx.
    destruct (Rlt_dec u x); [lra|]. f_equal.
    apply IH; [|done..]. intros j y Hj Hy. apply (Hlow (S j)); [lia | done].
Qed.

Lemma atol_small : 0 < atol < 1.
Proof.
  unfold atol. assert (H26 : 1 < 2 ^ 26) by (simpl; lra).
  assert (0 < / 2 ^ 26) by (apply Rinv_0_lt_compat; lra).
  assert (/ 2 ^ 26 * 2 ^ 26 = 1) by (apply Rinv_l; lra).
  nra.
Qed.

Lemma accepted_sum_pos (n : nat) (p : list R) : accepted n p → 0 < Rsum p.
Proof.
  intros (_ & _ & _ & H). apply Rabs_bounds in H.
  pose proof atol_small. lra.
Qed.

Lemma choice_unfold {A} (a : list A) (p : list R) (u : R) :
  accepted (length a) p →
  choice a p u
  = index a (searchsorted_right ((fun c => c / Rsum p) <$> cumsum 0 p) u).
Proof.
  intros Hacc. pose proof Hacc as (Hn & Hl & HF & Hsum).
  unfold choice. rewrite decide_False by done. rewrite decide_True by done.
  assert (existsb (fun x => Rltb x 0) p = false) as ->.
  { apply not_true_is_false. intros H.
    apply existsb_exists in H as (x & Hin & Hx).
    apply list_elem_of_In in Hin. rewrite Forall_forall in HF.
    pose proof (HF x Hin). unfold Rltb in Hx. destruct (Rlt_dec x 0); [lra | done]. }
  assert (Rltb atol (Rabs (Rsum p - 1)) = false) as ->.
  { unfold Rltb. destruct (Rlt_dec _ _); [lra | done]. }
  rewrite cumsum_last; [done|]. intros ->. simpl in Hl. lia.
Qed.

(** The element at the place where the cumulative sums pass [u]. *)
Lemma choice_at {A} (a : list A) (p : list R) (u : R) (i : nat) (x : A) :
  accepted (length a) p → a !! i = Some x →
  Rsum (take i p) <= u * Rsum p < Rsum (take (S i) p) →
  choice a p u = Ok x.
Proof.
  intros Hacc Hx [Hlo Hhi]. rewrite choice_unfold by done.
  pose proof (accepted_sum_pos _ _ Hacc) as HS.
  pose proof Hacc as (Hn & Hl & HF & Hsum).
  pose proof (lookup_lt_Some _ _ _ Hx) as Hi.
  rewrite (searchsorted_right_at _ u i (Rsum (take (S i) p) / Rsum p)).
  - by apply index_Ok.
  - intros j c Hj Hc. rewrite list_lookup_fmap, cumsum_lookup in Hc by lia.
    injection Hc as <-. rewrite Rplus_0_l.
    pose proof (Rsum_take_mono p (S j) i HF ltac:(lia)).
    apply (Rmult_le_reg_r (Rsum p)); [done|]. field_simplify; lra.
  - rewrite list_lookup_fmap, cumsum_lookup by lia. simpl.
    by rewrite Rplus_0_l.
  - apply (Rmult_lt_reg_r (Rsum p)); [done|]. field_simplify; lra.
Qed.

(** The cumulative sums pass every [u] below 1 somewhere. *)
Lemma crossing (p : list R) (c : R) (k : nat) :
  (k <= length p)%nat → 0 <= c < Rsum (take k p) →
  ∃ i pi, (i < k)%nat ∧ p !! i = Some pi ∧
          Rsum (take i p) <= c < Rsum (take (S i) p).
Proof.
  induction k as [|k IH]; intros Hk Hc.
  - rewrite take_0 in Hc. unfold Rsum in Hc. simpl in Hc. lra.
  - destruct (lookup_lt_is_Some_2 p k) as [x Hx]; [lia|].
    destruct (Rlt_dec c (Rsum (take k p))) as [Hlt|Hge].
    + destruct IH as (i & pi & Hi & Hpi & Hb1 & Hb2); [lia | lra |].
      exists i, pi. split_and!; [lia | done..].
    + exists k, x. split_and!; [lia | done | lra | lra].
Qed.

Lemma choice_accepted {A} (a : list A) (p : list R) (u : R) :
  accepted (length a) p → 0 <= u < 1 →
  ∃ i x pi, choice a p u = Ok x ∧ a !! i = Some x ∧ p !! i = Some pi ∧
            0 < pi ∧
            Rsum (take i p) <= u * Rsum p < Rsum (take (S i) p).
Proof.
  intros Hacc Hu. pose proof (accepted_sum_pos _ _ Hacc) as HS.
  pose proof Hacc as (Hn & Hl & HF & Hsum).
  destruct (crossing p (u * Rsum p) (length p)) as (i & pi & Hi & Hpi & Hb);
    [done | rewrite take_ge by lia; nra |].
  destruct (lookup_lt_is_Some_2 a i) as [x Hx]; [lia|].
  exists i, x, pi.
  split; [by apply (choice_at a p u i)|]. split; [done|]. split; [done|].
  split; [|done]. rewrite (Rsum_take_S _ _ _ Hpi) in Hb. lra.
Qed.

Lemma choice_refused {A} (a : list A) (p : list R) (u : R) :
  ¬ accepted (length a) p → choice a p u = Raise ValueError.
Proof.
  intros Hacc. unfold choice.
  destruct (decide (length a = 0%nat)) as [|Hn]; [done|].
  destruct (decide (length p = length a)) as [Hl|]; [|done].
  destruct (existsb _ p) eqn:Hneg; [done|].
  unfold Rltb. destruct (Rlt_dec atol _) as [|Hsum]; [done|].
  destruct Hacc. split_and!; [done | done | | lra].
  apply Forall_forall. intros x Hx.
  destruct (Rle_dec 0 x) as [|Hlt]; [done|].
  assert (existsb (fun x => Rltb x 0) p = true); [|congruence].
  apply existsb_exists. exists x. split; [by apply list_elem_of_In|].
  unfold Rltb. destruct (Rlt_dec x 0); [done | lra].
Qed.

(** X10: [takeAction] samples the transition row by inversion.  When the
    row has one non-negative entry per state and sums to 1 within the
    tolerance, the state returned for the uniform draw [u] is the state
    [j] whose interval of cumulative probability holds [u] times the sum
    of the row, so its probability is positive; any other row raises
    [ValueError]. *)
Theorem takeAction_follows_row (m : MDP.model) (state action : nat)
    (row : list R) (u : R) :
  MDP.getTransitionStatesAndProbs m state action = Ok row → 0 <= u < 1 →
  (accepted (length (MDP.s m)) row →
   ∃ j z pj, MDP.takeAction m state action u = Ok z ∧
             MDP.s m !! j = Some z ∧ row !! j = Some pj ∧ 0 < pj ∧
             Rsum (take j row) <= u * Rsum row < Rsum (take j row) + pj) ∧
  (¬ accepted (length (MDP.s m)) row →
   MDP.takeAction m state action u = Raise ValueError).
Proof.
  intros Hrow Hu. unfold MDP.takeAction. rewrite Hrow.
  cbn [mbind result_bind]. split.
  - intros Hacc.
    destruct (choice_accepted (MDP.s m) row u Hacc Hu)
      as (i & x & pi & Hc & Hx & Hpi & Hpos & Hb).
    exists i, x, pi. rewrite (Rsum_take_S _ _ _ Hpi) in Hb. done.
  - apply choice_refused.
Qed.

Lemma takeAction_follows_row_witness :
  (accepted (length (MDP.s toy)) [1; 0; 0] →
   ∃ j z pj, MDP.takeAction toy 1 0 (1 / 2) = Ok z ∧
             MDP.s toy !! j = Some z ∧ [1; 0; 0] !! j = Some pj ∧ 0 < pj ∧
             Rsum (take j [1; 0; 0]) <= 1 / 2 * Rsum [1; 0; 0]
             < Rsum (take j [1; 0; 0]) + pj) ∧
  (¬ accepted (length (MDP.s toy)) [1; 0; 0] →
   MDP.takeAction toy 1 0 (1 / 2) = Raise ValueError).
Proof.
  apply (takeAction_follows_row toy 1 0 [1; 0; 0] (1 / 2)).
  - reflexivity.
  - lra.
Defined.

(** ** The moves of the betting game *)

Lemma tally_is_eq (c d : nat * nat * nat) : tally_is c d = true → c = d.
Proof.
  destruct c as [[s l] w], d as [[s' l'] w']. unfold tally_is.
  rewrite !andb_true_iff, !Nat.eqb_eq. intros [[-> ->] ->]. done.
Qed.

Lemma stake_rows :
  forallb (fun x => forallb (fun y =>
      implb (coverable x y) (stake_row x y))
    (seq 0 101)) (seq 0 102) = true.
Proof. vm_compute. reflexivity. Qed.

Lemma overshoot_rows :
  forallb (fun x => forallb (fun y =>
      implb (overshoots x y && negb (x =? 100)%nat) (overshoot_row x y))
    (seq 0 101)) (seq 0 102) = true.
Proof. vm_compute. reflexivity. Qed.

Lemma arange_take (i n : nat) :
  (i <= n)%nat → take i (BettingGame.arange n) = BettingGame.arange i.
Proof.
  intros Hi. unfold BettingGame.arange. rewrite <- fmap_take. f_equal.
  replace n with (i + (n - i))%nat by lia.
  by rewrite seq_app, take_app_length' by (by rewrite length_seq).
Qed.

Lemma arange_lookup (n i : nat) :
  (i < n)%nat → BettingGame.arange n !! i = Some (Z.of_nat i).
Proof.
  intros Hi. unfold BettingGame.arange.
  by rewrite list_lookup_fmap, lookup_seq_lt by done.
Qed.

(** The mass of the first [i] entries of a row of the tensor. *)
Lemma row_prefix (p : R) (x y i : nat) :
  (i <= 102)%nat →
  Rsum (take i ((fun z => BettingGame.tHelper (Z.of_nat x) (Z.of_nat y) z p)
                  <$> BettingGame.arange 102))
  = let '(s, l, w) := tally (outcomes i x y) in
    INR s + INR l * (1 - p) + INR w * p.
Proof.
  intros Hi. by rewrite <- fmap_take, arange_take, row_mass, Rsum_tally.
Qed.

Lemma row_nonneg (p : R) (x y : Z) (n : nat) :
  0 <= p <= 1 →
  Forall (fun v => 0 <= v)
    ((fun z => BettingGame.tHelper x y z p) <$> BettingGame.arange n).
Proof.
  intros Hp. apply Forall_fmap, Forall_forall. intros z _. simpl.
  rewrite tHelper_branch. by apply probability_nonneg.
Qed.

Lemma game_states (p : R) : MDP.s (game p) = BettingGame.arange 102.
Proof. reflexivity. Qed.

Lemma arange_length (n : nat) : length (BettingGame.arange n) = n.
Proof. unfold BettingGame.arange. by rewrite length_fmap, length_seq. Qed.

Lemma accepted_distribution (n : nat) (row : list R) :
  n ≠ 0%nat → length row = n → Forall (fun v => 0 <= v) row → Rsum row = 1 →
  accepted n row.
Proof.
  intros Hn Hl HF Hs. split_and!; [done..|]. rewrite Hs, Rminus_diag, Rabs_R0.
  pose proof atol_small. lra.
Qed.

Lemma tensor_row_sum (p : R) (x y : nat) :
  (x < 102)%nat → (y < 101)%nat → overshoots x y = false →
  Rsum ((fun z => BettingGame.tHelper (Z.of_nat x) (Z.of_nat y) z p)
          <$> BettingGame.arange 102) = 1.
Proof.
  intros Hx Hy Hov. rewrite row_mass, Rsum_tally.
  pose proof (forallb_seq _ _ y (forallb_seq _ _ x tally_all Hx) Hy) as H.
  cbn beta in H. rewrite Hov in H. cbn [negb] in H. apply eqb_prop in H.
  destruct (tally (outcomes 102 x y)) as [[s l] w].
  unfold distribution_tally in H.
  destruct s as [|[|s]], l as [|[|l]], w as [|[|w]]; try done; simpl; lra.
Qed.

Lemma coverable_inv (x y : nat) :
  coverable x y = true →
  (1 <= y <= x)%nat ∧ x ≠ 100%nat ∧ overshoots x y = false.
Proof.
  unfold coverable. rewrite !andb_true_iff, !negb_true_iff.
  rewrite !Nat.leb_le, Nat.eqb_neq. tauto.
Qed.

Lemma stake_row_inv (x y : nat) :
  (x < 102)%nat → (y < 101)%nat → coverable x y = true →
  tally (outcomes (loss x y) x y) = (0, 0, 0)%nat ∧
  tally (outcomes (S (loss x y)) x y) = (0, 1, 0)%nat ∧
  tally (outcomes (gain x y) x y) = (0, 1, 0)%nat ∧
  tally (outcomes (S (gain x y)) x y) = (0, 1, 1)%nat.
Proof.
  intros Hx Hy Hc.
  pose proof (forallb_seq _ _ y (forallb_seq _ _ x stake_rows Hx) Hy) as H.
  cbn beta in H. rewrite Hc in H. cbn [implb] in H. unfold stake_row in H.
  rewrite !andb_true_iff in H. destruct H as [[[H1 H2] H3] H4].
  split_and!; by apply tally_is_eq.
Qed.

(** X11: a stake the gambler can cover is lost when the uniform draw is
    below [1 - pHeads] and won otherwise: [takeAction] returns the state
    less the stake or the state plus the stake, capped at 100.  This holds
    for every bias in [0, 1], away from the end-game states and from the
    stakes that would bring the gambler to exactly 101. *)
Theorem game_takeAction_stake (p u : R) (x y : nat) :
  0 <= p <= 1 → 0 <= u < 1 → (x < 102)%nat → (y < 101)%nat →
  coverable x y = true →
  MDP.takeAction (game p) x y u
  = Ok (Z.of_nat (if Rlt_dec u (1 - p) then loss x y else gain x y)).
Proof.
  intros Hp Hu Hx Hy Hc.
  destruct (coverable_inv x y Hc) as (Hyx & H100 & Hov).
  destruct (stake_row_inv x y Hx Hy Hc) as (T1 & T2 & T3 & T4).
  assert (Hl : (loss x y < 102)%nat) by (unfold loss; lia).
  assert (Hg : (gain x y < 102)%nat) by (unfold gain; lia).
  unfold MDP.takeAction. rewrite game_row by lia. cbn [mbind result_bind].
  pose proof (tensor_row_sum p x y Hx Hy Hov) as Hsum.
  pose proof (row_prefix p x y (loss x y) ltac:(lia)) as P1.
  pose proof (row_prefix p x y (S (loss x y)) ltac:(lia)) as P2.
  pose proof (row_prefix p x y (gain x y) ltac:(lia)) as P3.
  pose proof (row_prefix p x y (S (gain x y)) ltac:(lia)) as P4.
  rewrite T1 in P1. rewrite T2 in P2. rewrite T3 in P3. rewrite T4 in P4.
  change (INR 0) with 0 in *. change (INR 1) with 1 in *.
  pose proof (row_nonneg p (Z.of_nat x) (Z.of_nat y) 102 Hp) as HF.
  set (row := (fun z => BettingGame.tHelper (Z.of_nat x) (Z.of_nat y) z p)
                <$> BettingGame.arange 102) in *.
  assert (Hacc : accepted (length (MDP.s (game p))) row).
  { rewrite game_states, arange_length.
    apply accepted_distribution; [lia | | done..].
    unfold row. by rewrite length_fmap, arange_length. }
  destruct (Rlt_dec u (1 - p)) as [Hlt|Hge].
  - apply (choice_at _ row u (loss x y)); [done | |].
    + rewrite game_states. by apply arange_lookup.
    + rewrite Hsum, P1, P2. lra.
  - apply (choice_at _ row u (gain x y)); [done | |].
    + rewrite game_states. by apply arange_lookup.
    + rewrite Hsum, P3, P4. lra.
Qed.

Lemma game_takeAction_stake_witness :
  MDP.takeAction (game (1 / 2)) 60 50 (3 / 4)
  = Ok (Z.of_nat (if Rlt_dec (3 / 4) (1 - 1 / 2) then loss 60 50
                  else gain 60 50)).
Proof.
  apply (game_takeAction_stake (1 / 2) (3 / 4) 60 50).
  - lra.
  - lra.
  - lia.
  - lia.
  - reflexivity.
Defined.

Lemma idle_rows :
  forallb (fun x => forallb (fun y => implb (idle x y) (idle_row x y))
    (seq 0 101)) (seq 0 102) = true.
Proof. vm_compute. reflexivity. Qed.

Lemma idle_inv (x y : nat) :
  idle x y = true → (1 <= x <= 99)%nat ∧ (y = 0%nat ∨ (x < y)%nat).
Proof.
  unfold idle. rewrite !andb_true_iff, orb_true_iff, !Nat.leb_le.
  rewrite Nat.eqb_eq, Nat.ltb_lt. tauto.
Qed.

(** Without a stake that counts, [tHelper] does not look at [pHeads]. *)
Lemma branch_idle (x y z : Z) :
  (0 <= x <= 99)%Z → (y = 0 ∨ x < y)%Z →
  branch x y z = if (z =? x)%Z then Surely else Never.
Proof.
  intros Hx Hy. unfold branch.
  repeat match goal with
  | |- context [(?a =? ?b)%Z] => destruct (Z.eqb_spec a b)
  | |- context [(?a >? ?b)%Z] => destruct (Z.gtb_spec a b)
  end; cbn; try reflexivity; lia.
Qed.

Lemma idle_row_nonneg (p : R) (x y : nat) (n : nat) :
  idle x y = true →
  Forall (fun v => 0 <= v)
    ((fun z => BettingGame.tHelper (Z.of_nat x) (Z.of_nat y) z p)
       <$> BettingGame.arange n).
Proof.
  intros Hi. apply idle_inv in Hi as [Hx Hy].
  apply Forall_fmap, Forall_forall. intros z _. simpl.
  rewrite tHelper_branch, branch_idle by lia.
  destruct (z =? Z.of_nat x)%Z; simpl; lra.
Qed.

Lemma dead_row_prefix : Rsum (take 101 BettingGame.dead_row) = 0.
Proof.
  unfold BettingGame.dead_row.
  rewrite take_insert_ge, take_replicate by lia.
  apply Rsum_zero. by apply Forall_replicate.
Qed.

(** X12: the moves of the betting game without chance.  From the
    end-game states 0 and 100 [takeAction] returns the dead state 101
    under every action; without a stake, or with a stake above the cash,
    it returns the state it was given.  Neither depends on [pHeads]. *)
Theorem game_takeAction_sure (p u : R) (x y : nat) :
  0 <= u < 1 → (y < 101)%nat →
  (x = 0%nat ∨ x = 100%nat → MDP.takeAction (game p) x y u = Ok 101%Z) ∧
  (idle x y = true → MDP.takeAction (game p) x y u = Ok (Z.of_nat x)).
Proof.
  intros Hu Hy. split.
  - intros Hx. unfold MDP.takeAction. rewrite end_state_row by done.
    cbn [mbind result_bind].
    apply (choice_at _ _ u 101); [| by rewrite game_states |].
    + rewrite game_states, arange_length.
      apply accepted_distribution;
        [lia | apply dead_row_length | apply dead_row_ok | apply dead_row_sum].
    + rewrite dead_row_sum, dead_row_prefix.
      rewrite take_ge by (rewrite dead_row_length; lia).
      rewrite dead_row_sum. lra.
  - intros Hi. pose proof (idle_inv x y Hi) as [Hx Hyx].
    pose proof (forallb_seq _ _ y
                  (forallb_seq _ _ x idle_rows ltac:(lia)) Hy) as H.
    cbn beta in H. rewrite Hi in H. cbn [implb] in H. unfold idle_row in H.
    apply andb_true_iff in H as [T1%tally_is_eq T2%tally_is_eq].
    unfold MDP.takeAction. rewrite game_row by lia. cbn [mbind result_bind].
    assert (Hov : overshoots x y = false).
    { unfold overshoots. apply orb_false_iff. split.
      - apply andb_false_iff. destruct Hyx as [-> | Hlt].
        + left. apply andb_false_iff. by right.
        + right. apply Nat.leb_gt. lia.
      - apply andb_false_iff. left. apply Nat.eqb_neq. lia. }
    pose proof (tensor_row_sum p x y ltac:(lia) Hy Hov) as Hsum.
    pose proof (row_prefix p x y x ltac:(lia)) as P1.
    pose proof (row_prefix p x y (S x) ltac:(lia)) as P2.
    rewrite T1 in P1. rewrite T2 in P2.
    change (INR 0) with 0 in *. change (INR 1) with 1 in *.
    pose proof (idle_row_nonneg p x y 102 Hi) as HF.
    set (row := (fun z => BettingGame.tHelper (Z.of_nat x) (Z.of_nat y) z p)
                  <$> BettingGame.arange 102) in *.
    apply (choice_at _ row u x).
    + rewrite game_states, arange_length.
      apply accepted_distribution; [lia | | done..].
      unfold row. by rewrite length_fmap, arange_length.
    + rewrite game_states. apply arange_lookup. lia.
    + rewrite Hsum, P1, P2. lra.
Qed.

Lemma game_takeAction_sure_witness :
  (100%nat = 0%nat ∨ 100%nat = 100%nat →
   MDP.takeAction (game (1 / 2)) 100 7 (1 / 3) = Ok 101%Z) ∧
  (idle 100 7 = true →
   MDP.takeAction (game (1 / 2)) 100 7 (1 / 3) = Ok (Z.of_nat 100)).
Proof.
  apply (game_takeAction_sure (1 / 2) (1 / 3) 100 7).
  - lra.
  - lia.
Defined.

Lemma atol_tiny : atol < 1 / 100.
Proof.
  unfold atol. assert (H26 : 100 < 2 ^ 26) by (simpl; lra).
  assert (0 < / 2 ^ 26) by (apply Rinv_0_lt_compat; lra).
  assert (/ 2 ^ 26 * 2 ^ 26 = 1) by (apply Rinv_l; lra).
  nra.
Qed.

Lemma overshoots_inv (x y : nat) :
  overshoots x y = true → x ≠ 0%nat.
Proof.
  unfold overshoots. rewrite orb_true_iff, !andb_true_iff.
  rewrite !Nat.leb_le, !Nat.eqb_eq. lia.
Qed.

(** X13: [takeAction] raises [ValueError] for the pairs whose row
    [tHelper] fills wrongly, a covered stake that would bring the gambler
    to exactly 101 and the first two actions of the dead state, as soon
    as [pHeads] exceeds the tolerance of [np.random.choice] in absolute
    value: the row sums to [1 + pHeads] or to [1 - pHeads]. *)
Theorem game_takeAction_overshoot (p u : R) (x y : nat) :
  (x < 102)%nat → (y < 101)%nat → x ≠ 100%nat → overshoots x y = true →
  atol < Rabs p →
  MDP.takeAction (game p) x y u = Raise ValueError.
Proof.
  intros Hx Hy H100 Hov Hp. pose proof (overshoots_inv x y Hov) as H0.
  unfold MDP.takeAction. rewrite game_row by done. cbn [mbind result_bind].
  apply choice_refused. intros (_ & _ & _ & Hs).
  rewrite row_mass, Rsum_tally in Hs.
  pose proof (forallb_seq _ _ y
                (forallb_seq _ _ x overshoot_rows Hx) Hy) as H.
  cbn beta in H. rewrite Hov in H.
  assert (E : (x =? 100)%nat = false) by (by apply Nat.eqb_neq).
  rewrite E in H. cbn [negb andb implb] in H. unfold overshoot_row in H.
  apply Rabs_bounds in Hs.
  assert (Hp' : atol < p ∨ atol < - p).
  { unfold Rabs in Hp. destruct (Rcase_abs p); lra. }
  apply orb_true_iff in H as [H|H]; [apply orb_true_iff in H as [H|H]|];
    apply tally_is_eq in H; rewrite H in Hs;
    change (INR 0) with 0 in Hs; change (INR 1) with 1 in Hs;
    change (INR 2) with (1 + 1) in Hs; lra.
Qed.

Lemma game_takeAction_overshoot_witness :
  MDP.takeAction (game (1 / 2)) 51 50 0 = Raise ValueError.
Proof.
  apply (game_takeAction_overshoot (1 / 2) 0 51 50).
  - lia.
  - lia.
  - lia.
  - reflexivity.
  - rewrite Rabs_right by lra. pose proof atol_tiny. lra.
Defined.

(** ** The solved betting game *)

Lemma vi_loop_end_values (p eps : R) (fuel : nat) (V V'' : list R) :
  length V = 102%nat → V !! 101%nat = Some 0 →
  MDP.vi_loop fuel (game p) eps V = Some (Ok V'') →
  V'' !! 0%nat = Some (-10) ∧ V'' !! 100%nat = Some 100 ∧
  V'' !! 101%nat = Some 0.
Proof.
  revert V. induction fuel as [|fuel IH]; intros V Hl H101; [done|].
  cbn [MDP.vi_loop].
  destruct (MDP.sweep (game p) V) as [V'|e] eqn:Hs; [|done].
  pose proof (sweep_length _ _ _ _ _ Hs) as Hl'.
  pose proof (sweep_last _ _ _ Hs) as Hlast.
  destruct (game_lengths p) as (Hls & _). rewrite Hls in Hlast.
  change (102 - 1)%nat with 101%nat in Hlast. rewrite H101 in Hlast.
  destruct (MDP.delta V' V) as [d|e]; [|done].
  destruct (Rle_dec d eps).
  - intros [= <-].
    destruct (end_states_backed_up p V V' Hl Hs) as (d0 & Hd0 & H0 & H100).
    rewrite H101 in Hd0. injection Hd0 as <-.
    rewrite H0, H100. split_and!; [f_equal; f_equal; lra.. | done].
  - apply IH; [lia | done].
Qed.

Lemma Rsum_replicate (n : nat) (c : R) : Rsum (replicate n c) = INR n * c.
Proof.
  induction n as [|n IH]; [unfold Rsum; simpl; lra|].
  change (Rsum (replicate (S n) c)) with (c + Rsum (replicate n c)).
  rewrite IH, S_INR. lra.
Qed.

(** Equal action values give a uniform row. *)
Lemma softmax_replicate (tau mx q : R) (n : nat) :
  (0 < n)%nat →
  Spec.softmax tau mx (replicate n q) = replicate n (1 / INR n).
Proof.
  intros Hn. unfold Spec.softmax. rewrite !fmap_replicate, Rsum_replicate.
  f_equal. pose proof (exp_pos ((q - mx) / tau)).
  assert (INR n ≠ 0) by (apply not_0_INR; lia). field. split; lra.
Qed.

Lemma end_state_block (p : R) (x : nat) (ti : list (list R)) :
  x = 0%nat ∨ x = 100%nat → MDP.t (game p) !! x = Some ti →
  ti = replicate 101 BettingGame.dead_row.
Proof.
  intros Hx Hti.
  assert (Hl : length ti = 101%nat).
  { destruct (tensor_shape p) as [_ HFt].
    destruct (redirect_all_shape (seq 0 101) _ HFt) as [_ HFt'].
    rewrite Forall_lookup in HFt'. by destruct (HFt' x ti Hti) as [Hl _]. }
  apply list_eq. intros y. destruct (decide (y < 101)%nat) as [Hy|Hy].
  - pose proof (end_state_row p x y Hx Hy) as Hrow.
    unfold MDP.getTransitionStatesAndProbs in Hrow.
    apply bind_Ok in Hrow as (ti' & Hti'%index_Ok & Hrow%index_Ok).
    assert (ti' = ti) as -> by congruence.
    rewrite Hrow. symmetry. by apply lookup_replicate_2.
  - rewrite lookup_ge_None_2 by lia. symmetry.
    apply lookup_replicate_None. lia.
Qed.

Lemma end_state_policy (p : R) (V : list R) (x : nat) :
  x = 0%nat ∨ x = 100%nat → length V = 102%nat →
  MDP.state_policy (MDP.set_values (game p) V) (1 / 10) x
  = Ok (replicate 101 (Real (1 / 101))).
Proof.
  intros Hx Hl. destruct (game_lengths p) as (Hls & _).
  destruct (state_policy_Ok (MDP.set_values (game p) V) V (1 / 10) x)
    as (ri & ti & mx & Hri & Hti & Hlti & Hmx & ->);
    [apply (game_shaped p (Some V)) | done | by rewrite Hl | lra
    | cbn [MDP.set_values MDP.s]; rewrite Hls; lia |].
  cbn [MDP.set_values MDP.t] in Hti.
  rewrite (end_state_block p x ti Hx Hti).
  unfold Spec.action_values. rewrite fmap_replicate.
  rewrite softmax_replicate by lia. rewrite fmap_replicate.
  replace (INR 101) with 101 by (rewrite INR_IZR_INZ; done). done.
Qed.

Lemma valueIteration_vi_loop (m : MDP.model) (fuel : nat) (eps : option R)
    (V : list R) :
  MDP.valueIteration fuel m eps = Some (Ok (MDP.set_values m V)) →
  MDP.vi_loop fuel m (default (1 / 10) eps) (replicate (length (MDP.s m)) 0)
  = Some (Ok V).
Proof.
  unfold MDP.valueIteration. intros H.
  destruct (MDP.vi_loop fuel m _ _) as [[V1|e]|]; [|done..].
  by injection H as ->.
Qed.

Lemma set_policy_inj (m : MDP.model) (P P' : list (list npfloat)) :
  MDP.set_policy m P = MDP.set_policy m P' → P = P'.
Proof. by intros [= ->]. Qed.

(** X14: the game that the constructor returns for a bias in [0, 1],
    whatever the number of sweeps allowed beyond those it needs.  Its 102
    values are -10 at state 0, 100 at state 100 and 0 at the dead state
    101; its policy has 102 rows; at the end-game states 0 and 100, where
    every action leads to the dead state, the row is uniform over the 101
    actions, and the row of the dead state is all zeros. *)
Theorem solved_game_end_states (p : R) (epsilon tau : option R) :
  0 <= p <= 1 →
  ∃ sweeps g V P,
    (∀ k, BettingGame.init (sweeps + k) (Some p) epsilon tau = Some (Ok g)) ∧
    BettingGame.pHeads g = p ∧
    MDP.values (BettingGame.mdp g) = Some V ∧
    MDP.policy (BettingGame.mdp g) = Some P ∧
    length V = 102%nat ∧ length P = 102%nat ∧
    V !! 0%nat = Some (-10) ∧ V !! 100%nat = Some 100 ∧
    V !! 101%nat = Some 0 ∧
    P !! 0%nat = Some (replicate 101 (Real (1 / 101))) ∧
    P !! 100%nat = Some (replicate 101 (Real (1 / 101))) ∧
    P !! 101%nat = Some (replicate 101 (Real 0)).
Proof.
  intros Hp. destruct (game_lengths p) as (Hls & Hla & _).
  destruct (valueIteration_terminates (game p) None) as (fuel & V & HV & Hlen);
    [apply (game_shaped p None) | by apply (game_substochastic p None)
    | simpl; lra | lia | simpl; lra |].
  rewrite Hls in Hlen.
  destruct (extractPolicy_total (MDP.set_values (game p) V) V (1 / 10))
    as (P & HP & HlP & Hrows);
    [apply (game_shaped p (Some V)) | done | by rewrite Hlen | lra |].
  cbn [MDP.set_values MDP.s] in HlP, Hrows. rewrite Hls in HlP, Hrows.
  exists fuel, (BettingGame.mk (MDP.set_policy (MDP.set_values (game p) V) P) p),
    V, P.
  assert (Hend : V !! 0%nat = Some (-10) ∧ V !! 100%nat = Some 100 ∧
                 V !! 101%nat = Some 0).
  { apply valueIteration_vi_loop in HV as E. rewrite Hls in E.
    apply (vi_loop_end_values p _ fuel _ V) in E; [exact E | |].
    - apply length_replicate.
    - apply lookup_replicate_2. lia. }
  assert (Hrow : ∀ x, x = 0%nat ∨ x = 100%nat →
            P !! x = Some (replicate 101 (Real (1 / 101)))).
  { intros x Hx. destruct (Hrows x) as (row & Hsp & ->); [lia|].
    rewrite end_state_policy in Hsp by done. by injection Hsp as <-. }
  destruct (extractPolicy_last _ _ _ HP) as (P' & HP' & Hlast).
  apply set_policy_inj in HP' as ->.
  cbn [MDP.set_values MDP.s MDP.a] in Hlast. rewrite Hls, Hla in Hlast.
  destruct Hend as (H0 & H100 & H101).
  split.
  { intros k. rewrite init_unfold. change (default (1 / 2) (Some p)) with p.
    rewrite (valueIteration_more _ _ _ k _ HV).
    cbn [mbind result_bind]. by rewrite HP. }
  split; [reflexivity|]. split; [reflexivity|]. split; [reflexivity|].
  split; [exact Hlen|]. split; [exact HlP|].
  split; [exact H0|]. split; [exact H100|]. split; [exact H101|].
  split; [apply Hrow; by left|]. split; [apply Hrow; by right|].
  apply Hlast. lia.
Qed.

Lemma solved_game_end_states_witness :
  ∃ sweeps g V P,
    (∀ k, BettingGame.init (sweeps + k) (Some (1 / 2)) None None
          = Some (Ok g)) ∧
    BettingGame.pHeads g = 1 / 2 ∧
    MDP.values (BettingGame.mdp g) = Some V ∧
    MDP.policy (BettingGame.mdp g) = Some P ∧
    length V = 102%nat ∧ length P = 102%nat ∧
    V !! 0%nat = Some (-10) ∧ V !! 100%nat = Some 100 ∧
    V !! 101%nat = Some 0 ∧
    P !! 0%nat = Some (replicate 101 (Real (1 / 101))) ∧
    P !! 100%nat = Some (replicate 101 (Real (1 / 101))) ∧
    P !! 101%nat = Some (replicate 101 (Real 0)).
Proof.
  apply (solved_game_end_states (1 / 2) None None). lra.
Defined.

(** ** The games of the inference machine *)

Lemma extractPolicy_rows (m : MDP.model) (V : list R) (tau : R) :
  shaped m → MDP.values m = Some V → length V = length (MDP.s m) →
  0 < tau →
  ∃ P, MDP.extractPolicy m (Some tau) = Ok (MDP.set_policy m P) ∧
    length P = length (MDP.s m) ∧
    (∀ i, (i < length (MDP.s m) - 1)%nat →
       ∃ row, P !! i = Some (Real <$> row) ∧
              length row = length (MDP.a m) ∧
              Forall (fun x => 0 < x <= 1) row) ∧
    ((1 <= length (MDP.s m))%nat →
     P !! (length (MDP.s m) - 1)%nat
     = Some (replicate (length (MDP.a m)) (Real 0))).
Proof.
  intros Hsh HV Hlen Htau.
  destruct (extractPolicy_total m V tau) as (P & HP & HlP & Hrows); [done..|].
  exists P. split_and!; [done | done | |].
  - intros i Hi.
    destruct (state_policy_Ok m V tau i)
      as (ri & ti & mx & Hri & Hti & Hl & Hmx & Hsp); [done..|].
    destruct (Hrows i Hi) as (row & Hrow & HPi).
    rewrite Hsp in Hrow. injection Hrow as <-.
    eexists. split_and!; [done | |].
    + unfold Spec.softmax, Spec.action_values. by rewrite !length_fmap.
    + apply Forall_lookup. intros a pa. apply softmax_entries.
  - destruct (extractPolicy_last _ _ _ HP) as (P' & HP' & Hlast).
    apply set_policy_inj in HP' as <-. done.
Qed.

Lemma init_solved (p : R) (epsilon tau : option R) :
  0 <= p <= 1 →
  ∃ fuel g,
    (∀ k, BettingGame.init (fuel + k) (Some p) epsilon tau = Some (Ok g)) ∧
    BettingGame.pHeads g = p ∧ solved g.
Proof.
  intros Hp. destruct (game_lengths p) as (Hls & Hla & _).
  destruct (valueIteration_terminates (game p) None) as (fuel & V & HV & Hlen);
    [apply (game_shaped p None) | by apply (game_substochastic p None)
    | simpl; lra | lia | simpl; lra |].
  destruct (extractPolicy_rows (MDP.set_values (game p) V) V (1 / 10))
    as (P & HP & HlP & Hrows & Hlast);
    [apply (game_shaped p (Some V)) | reflexivity | exact Hlen | lra |].
  cbn [MDP.set_values MDP.s MDP.a] in HlP, Hrows, Hlast.
  rewrite Hls in HlP, Hrows, Hlast. rewrite Hla in Hrows, Hlast.
  exists fuel,
    (BettingGame.mk (MDP.set_policy (MDP.set_values (game p) V) P) p).
  split; [|split; [reflexivity|]].
  - intros k. rewrite init_unfold. change (default (1 / 2) (Some p)) with p.
    rewrite (valueIteration_more _ _ _ k _ HV).
    cbn [mbind result_bind]. by rewrite HP.
  - split; [by exists V|].
    exists P. split; [reflexivity|]. split; [exact HlP|].
    split; [exact Hrows|]. apply Hlast. lia.
Qed.

Lemma build_returns (grid : list R) :
  Forall (fun p => 0 <= p <= 1) grid →
  ∃ fuel gs,
    (∀ k, InferenceMachine.build (fuel + k) grid = Some (Ok gs)) ∧
    BettingGame.pHeads <$> gs = grid ∧ Forall solved gs.
Proof.
  induction 1 as [|p grid Hp _ IH].
  - exists 0%nat, []. by split_and!.
  - destruct (init_solved p None None Hp) as (f1 & g & Hg & Hpg & Hsg).
    destruct IH as (f2 & gs & Hgs & Hpgs & Hsgs).
    exists (f1 + f2)%nat, (g :: gs). split_and!.
    + intros k. cbn [InferenceMachine.build].
      replace (f1 + f2 + k)%nat with (f1 + (f2 + k))%nat at 1 by lia.
      rewrite Hg.
      replace (f1 + f2 + k)%nat with (f2 + (f1 + k))%nat by lia.
      by rewrite Hgs.
    + cbn [fmap list_fmap]. by rewrite Hpg, Hpgs.
    + by constructor.
Qed.

Lemma bias_grid_range :
  Forall (fun p => 0 <= p <= 1) InferenceMachine.bias_grid.
Proof.
  unfold InferenceMachine.bias_grid. apply Forall_fmap, Forall_forall.
  intros i Hi%elem_of_seq. simpl.
  assert (0 <= INR i) by apply pos_INR.
  assert (INR i <= 100).
  { replace 100 with (INR 100) by (rewrite INR_IZR_INZ; done).
    apply le_INR. lia. }
  lra.
Qed.

Lemma buildBiasEngine_returns :
  ∃ fuel gs,
    (∀ k, InferenceMachine.buildBiasEngine (fuel + k)
          = Some (Ok (InferenceMachine.mk gs None None None))) ∧
    BettingGame.pHeads <$> gs = InferenceMachine.bias_grid ∧
    length gs = 101%nat ∧ Forall solved gs.
Proof.
  destruct (build_returns _ bias_grid_range) as (fuel & gs & Hgs & Hp & Hs).
  exists fuel, gs. split_and!; [|done| |done].
  - intros k. unfold InferenceMachine.buildBiasEngine. by rewrite Hgs.
  - rewrite <- (length_fmap BettingGame.pHeads), Hp.
    unfold InferenceMachine.bias_grid. by rewrite length_fmap, length_seq.
Qed.

(** X15: the constructor of the inference machine returns, whatever the
    number of sweeps allowed beyond those it needs: it builds 101 games,
    one for each bias 0, 0.01, ..., 1 in this order, each with values and
    a policy, and leaves the likelihood, the posterior and the prior
    unset, so that [inferPosterior] and [expectedPosterior] raise
    [TypeError] on it until [inferLikelihood] has run. *)
Theorem buildBiasEngine_builds_the_grid :
  ∃ sweeps m,
    (∀ k, InferenceMachine.buildBiasEngine (sweeps + k) = Some (Ok m)) ∧
    BettingGame.pHeads <$> InferenceMachine.sims m
    = InferenceMachine.bias_grid ∧
    length (InferenceMachine.sims m) = 101%nat ∧
    Forall (fun g => is_Some (MDP.values (BettingGame.mdp g)) ∧
                     is_Some (MDP.policy (BettingGame.mdp g)))
           (InferenceMachine.sims m) ∧
    InferenceMachine.likelihood m = None ∧
    InferenceMachine.posterior m = None ∧
    InferenceMachine.prior m = None ∧
    (∀ B state action,
       InferenceMachine.inferPosterior B m state action = Raise TypeError) ∧
    InferenceMachine.expectedPosterior m = Raise TypeError.
Proof.
  destruct buildBiasEngine_returns as (fuel & gs & Hb & Hp & Hl & Hs).
  exists fuel, (InferenceMachine.mk gs None None None).
  split_and!; [done | done | done | | done..].
  cbn [InferenceMachine.sims]. eapply Forall_impl; [exact Hs|].
  intros g (HV & P & HP & _). split; [done | by exists P].
Qed.

(** ** The likelihood *)

Lemma index_None {A} (l : list A) (i : nat) :
  (length l <= i)%nat → index l i = Raise IndexError.
Proof. intros H. unfold index. by rewrite lookup_ge_None_2. Qed.

Lemma policy_entry_inner (g : BettingGame.model) (state action : nat) :
  solved g → (state < 101)%nat → (action < 101)%nat →
  ∃ x, InferenceMachine.policy_entry state action g = Ok (Real x) ∧
       0 < x <= 1.
Proof.
  intros (_ & P & HP & HlP & Hrows & _) Hs Ha.
  destruct (Hrows state Hs) as (row & Hrow & Hlen & HF).
  destruct (lookup_lt_is_Some_2 row action) as [x Hx]; [lia|].
  exists x. split; [|by apply (Forall_lookup_1 _ _ _ _ HF Hx)].
  unfold InferenceMachine.policy_entry. rewrite HP.
  cbn [from_option mbind result_bind]. apply index_Ok in Hrow as ->.
  cbn [mbind result_bind]. apply index_Ok.
  by rewrite list_lookup_fmap, Hx.
Qed.

Lemma policy_entry_dead (g : BettingGame.model) (action : nat) :
  solved g → (action < 101)%nat →
  InferenceMachine.policy_entry 101 action g = Ok (Real 0).
Proof.
  intros (_ & P & HP & HlP & _ & Hlast) Ha.
  unfold InferenceMachine.policy_entry. rewrite HP.
  cbn [from_option mbind result_bind]. apply index_Ok in Hlast as ->.
  cbn [mbind result_bind]. apply index_Ok. by apply lookup_replicate_2.
Qed.

Lemma policy_entry_out (g : BettingGame.model) (state action : nat) :
  solved g → (102 <= state)%nat ∨ (101 <= action)%nat →
  InferenceMachine.policy_entry state action g = Raise IndexError.
Proof.
  intros (_ & P & HP & HlP & Hrows & Hlast) Hout.
  unfold InferenceMachine.policy_entry. rewrite HP.
  cbn [from_option mbind result_bind].
  destruct (decide (102 <= state)%nat) as [Hs|Hs].
  { rewrite index_None by lia. done. }
  destruct Hout as [?|Ha]; [lia|].
  destruct (decide (state = 101%nat)) as [->|Hne].
  - apply index_Ok in Hlast as ->. cbn [mbind result_bind].
    apply index_None. rewrite length_replicate. lia.
  - destruct (Hrows state) as (row & Hrow & Hlen & _); [lia|].
    apply index_Ok in Hrow as ->. cbn [mbind result_bind].
    apply index_None. rewrite length_fmap. lia.
Qed.

Lemma mapR_Real {A} (f : A → result npfloat) (P : R → Prop) (gs : list A) :
  Forall (fun g => ∃ x, f g = Ok (Real x) ∧ P x) gs →
  ∃ l, mapR f gs = Ok (Real <$> l) ∧ length l = length gs ∧ Forall P l.
Proof.
  induction 1 as [|g gs (x & Hx & HPx) _ (l & Hl & Hlen & HF)].
  - by exists [].
  - exists (x :: l). split_and!; [|simpl; lia | by constructor].
    cbn [mapR]. rewrite Hx. cbn [mbind result_bind]. rewrite Hl. done.
Qed.

Lemma mapR_const {A B} (f : A → result B) (c : B) (gs : list A) :
  Forall (fun g => f g = Ok c) gs → mapR f gs = Ok (replicate (length gs) c).
Proof.
  induction 1 as [|g gs Hg _ IH]; [done|].
  cbn [mapR]. rewrite Hg. cbn [mbind result_bind]. rewrite IH. done.
Qed.

Lemma mapR_raise {A B} (f : A → result B) (e : pyerror) (g : A) (gs : list A) :
  f g = Raise e → mapR f (g :: gs) = Raise e.
Proof. intros Hg. cbn [mapR]. by rewrite Hg. Qed.

Lemma inferLikelihood_built (gs : list BettingGame.model)
    (state action : nat) :
  length gs = 101%nat → Forall solved gs →
  let m := InferenceMachine.mk gs None None None in
  ((state <= 100)%nat → (action <= 100)%nat →
   ∃ l, InferenceMachine.inferLikelihood m state action
        = Ok (InferenceMachine.mk gs (Some (Real <$> l)) None None) ∧
        length l = 101%nat ∧ Forall (fun x => 0 < x <= 1) l) ∧
  (state = 101%nat → (action <= 100)%nat →
   InferenceMachine.inferLikelihood m state action
   = Ok (InferenceMachine.mk gs (Some (Real <$> replicate 101 0)) None None)) ∧
  ((102 <= state)%nat ∨ (101 <= action)%nat →
   InferenceMachine.inferLikelihood m state action = Raise IndexError).
Proof.
  intros Hlen Hs m. unfold InferenceMachine.inferLikelihood.
  cbn [InferenceMachine.sims InferenceMachine.posterior InferenceMachine.prior m].
  split_and!.
  - intros Hst Ha.
    destruct (mapR_Real (InferenceMachine.policy_entry state action)
                (fun x => 0 < x <= 1) gs) as (l & -> & Hl & HF).
    { eapply Forall_impl; [exact Hs|]. intros g Hg.
      apply policy_entry_inner; (done || lia). }
    exists l. split_and!; [done | lia | done].
  - intros -> Ha.
    rewrite (mapR_const _ (Real 0)).
    + rewrite Hlen, fmap_replicate. done.
    + eapply Forall_impl; [exact Hs|]. intros g Hg.
      apply policy_entry_dead; (done || lia).
  - intros Hout. destruct Hs as [|g gs' Hg _]; [done|].
    rewrite (mapR_raise _ IndexError); [done|].
    by apply policy_entry_out.
Qed.

(** X16: on the machine that the constructor returns, [inferLikelihood]
    stores 101 finite values, one for each game.  For a state from 0 to
    100 and an action from 0 to 100 each of them lies in (0, 1]; for the
    dead state 101 they are all 0; for a state above 101 or an action
    above 100 the call raises [IndexError]. *)
Theorem inferLikelihood_reads_the_policies :
  ∃ sweeps m,
    (∀ k, InferenceMachine.buildBiasEngine (sweeps + k) = Some (Ok m)) ∧
    ∀ state action,
      ((state <= 100)%nat → (action <= 100)%nat →
       ∃ l, InferenceMachine.inferLikelihood m state action
            = Ok (InferenceMachine.mk (InferenceMachine.sims m)
                    (Some (Real <$> l)) None None) ∧
            length l = 101%nat ∧ Forall (fun x => 0 < x <= 1) l) ∧
      (state = 101%nat → (action <= 100)%nat →
       InferenceMachine.inferLikelihood m state action
       = Ok (InferenceMachine.mk (InferenceMachine.sims m)
               (Some (Real <$> replicate 101 0)) None None)) ∧
      ((102 <= state)%nat ∨ (101 <= action)%nat →
       InferenceMachine.inferLikelihood m state action = Raise IndexError).
Proof.
  destruct buildBiasEngine_returns as (fuel & gs & Hb & _ & Hl & Hs).
  exists fuel, (InferenceMachine.mk gs None None None).
  split; [done|]. intros state action.
  apply (inferLikelihood_built gs state action Hl Hs).
Qed.
(** ** The summary of an inference *)

Lemma weighted_mean_bounds (w x : list R) (a b : R) :
  length w = length x → Forall (fun v => 0 <= v) w →
  Forall (fun v => a <= v <= b) x →
  a * Rsum w <= Rsum (zip_with Rmult w x) <= b * Rsum w.
Proof.
  intros Hl Hw. revert x Hl.
  induction Hw as [|v w Hv _ IH]; intros [|u x] Hl Hx; try done.
  - unfold Rsum. simpl. lra.
  - apply Forall_cons in Hx as [Hu Hx]. simpl in Hl.
    specialize (IH x ltac:(lia) Hx).
    change (Rsum (v :: w)) with (v + Rsum w).
    change (Rsum (zip_with Rmult (v :: w) (u :: x)))
      with (v * u + Rsum (zip_with Rmult w x)).
    nra.
Qed.

Lemma prior_grid_range :
  Forall (fun v => 1 / 100 <= v <= 1) InferenceMachine.prior_grid.
Proof.
  apply Forall_lookup. intros i v Hv.
  assert (Hi : (i < 101)%nat).
  { apply lookup_lt_Some in Hv.
    unfold InferenceMachine.prior_grid, InferenceMachine.linspace in Hv.
    by rewrite length_fmap, length_seq in Hv. }
  rewrite prior_grid_lookup in Hv by done. injection Hv as <-.
  assert (0 <= INR i) by apply pos_INR.
  assert (INR i <= 100).
  { replace 100 with (INR 100) by (rewrite INR_IZR_INZ; done).
    apply le_INR. lia. }
  lra.
Qed.

Lemma prior_grid_length : length InferenceMachine.prior_grid = 101%nat.
Proof.
  unfold InferenceMachine.prior_grid, InferenceMachine.linspace.
  by rewrite length_fmap, length_seq.
Qed.

Lemma products_nonneg (B : R) (l : list R) :
  0 < B → Forall (fun x => 0 <= x) l →
  Forall (fun x => 0 <= x) (zip_with Rmult l (InferenceMachine.prior_reals B)).
Proof.
  intros HB HF. apply Forall_lookup. intros j y Hy.
  apply lookup_zip_with_Some in Hy as (a & b & -> & Ha & Hb).
  rewrite Forall_lookup in HF. specialize (HF j a Ha).
  destruct (prior_reals_lookup B HB j) as (w' & Hw' & Hnn & _).
  { apply lookup_lt_Some in Hb. by rewrite prior_reals_length in Hb. }
  rewrite Hw' in Hb. injection Hb as <-. by apply Rmult_le_pos.
Qed.

(** The expectation of a posterior of NaN. *)
Lemma expect_nan (x : list R) (n k a : nat) (acc : npfloat) :
  (a + k <= n)%nat → (a + k <= length x)%nat →
  foldR (InferenceMachine.expect_body (replicate n NaN) x) (seq a k) acc
  = Ok (if decide (k = 0)%nat then acc else NaN).
Proof.
  revert a acc. induction k as [|k IH]; intros a acc Hn Hx; [done|].
  cbn [foldR seq].
  destruct (lookup_lt_is_Some_2 x a) as [xa Hxa]; [lia|].
  assert (InferenceMachine.expect_body (replicate n NaN) x acc a = Ok NaN)
    as ->.
  { unfold InferenceMachine.expect_body, index.
    rewrite lookup_replicate_2, Hxa by lia. cbn [mbind result_bind].
    by destruct acc. }
  cbn [mbind result_bind]. rewrite IH by lia.
  repeat case_decide; (done || lia).
Qed.

Lemma inferSummary_inner (B : R) (gs : list BettingGame.model) (l : list R)
    (state action : nat) :
  0 < B → length l = 101%nat → Forall (fun x => 0 < x <= 1) l →
  InferenceMachine.inferLikelihood
    (InferenceMachine.mk gs None None None) state action
  = Ok (InferenceMachine.mk gs (Some (Real <$> l)) None None) →
  ∃ m' post e,
    InferenceMachine.inferSummary B (InferenceMachine.mk gs None None None) state action
    = Ok (m', Real e) ∧
    InferenceMachine.likelihood m' = Some (Real <$> l) ∧
    InferenceMachine.posterior m' = Some (Real <$> post) ∧
    length post = 101%nat ∧ Forall (fun x => 0 <= x) post ∧
    Rsum post = 1 ∧ 1 / 100 <= e <= 1.
Proof.
  intros HB Hlen HF HL.
  assert (HF0 : Forall (fun x => 0 <= x) l).
  { eapply Forall_impl; [exact HF|]. intros x Hx. simpl in Hx. lra. }
  destruct (lookup_lt_is_Some_2 l 0) as [x0 Hx0]; [lia|].
  pose proof (Forall_lookup_1 _ _ _ _ HF Hx0) as Hx0pos. simpl in Hx0pos.
  pose proof (products_sum_pos B l 0 x0 HB Hlen HF0 ltac:(lia) Hx0
                ltac:(lra)) as HS.
  pose proof (products_nonneg B l HB HF0) as Hnn.
  pose proof (prior_reals_length B) as Hpl.
  remember (zip_with Rmult l (InferenceMachine.prior_reals B)) as prod
    eqn:Hprod.
  assert (Hlp : length prod = 101%nat).
  { subst prod. rewrite length_zip_with. lia. }
  set (post := (fun y => y / Rsum prod) <$> prod).
  assert (Hlpost : length post = 101%nat) by (unfold post; by rewrite length_fmap).
  assert (Hpost_nn : Forall (fun x => 0 <= x) post).
  { unfold post. apply Forall_fmap. eapply Forall_impl; [exact Hnn|].
    intros y Hy. simpl. apply Rmult_le_pos; [done|].
    left. by apply Rinv_0_lt_compat. }
  assert (Hpost_sum : Rsum post = 1).
  { unfold post. rewrite Rsum_scale. field. lra. }
  pose proof (weighted_mean_bounds post InferenceMachine.prior_grid
                (1 / 100) 1 ltac:(rewrite prior_grid_length; lia) Hpost_nn
                prior_grid_range) as Hmean.
  rewrite Hpost_sum in Hmean.
  eexists _, post, (Rsum (zip_with Rmult post InferenceMachine.prior_grid)).
  split_and!; [| | | exact Hlpost | exact Hpost_nn | exact Hpost_sum | lra | lra].
  - unfold InferenceMachine.inferSummary. rewrite HL. cbn [mbind result_bind].
    rewrite (inferPosterior_Real B _ l) by done.
    cbn [mbind result_bind InferenceMachine.sims InferenceMachine.likelihood].
    rewrite <- Hprod, normalize_Real_ne by lra. fold post.
    rewrite (expectedPosterior_Real _ post) by done.
    cbn [mbind result_bind]. reflexivity.
  - reflexivity.
  - reflexivity.
Qed.

Lemma inferSummary_dead (B : R) (gs : list BettingGame.model)
    (state action : nat) :
  0 < B →
  InferenceMachine.inferLikelihood
    (InferenceMachine.mk gs None None None) state action
  = Ok (InferenceMachine.mk gs (Some (Real <$> replicate 101 0)) None None) →
  ∃ m',
    InferenceMachine.inferSummary B (InferenceMachine.mk gs None None None) state action
    = Ok (m', NaN) ∧
    InferenceMachine.posterior m' = Some (replicate 101 NaN).
Proof.
  intros HB HL.
  assert (HN : InferenceMachine.normalize
                 (Real <$> zip_with Rmult (replicate 101 0)
                             (InferenceMachine.prior_reals B))
               = replicate 101 NaN).
  { rewrite normalize_zero.
    - by rewrite length_zip_with, length_replicate, prior_reals_length.
    - apply Forall_lookup. intros j y Hy.
      apply lookup_zip_with_Some in Hy as (a & b & -> & Ha & _).
      apply lookup_replicate in Ha as [-> _]. lra. }
  eexists. split.
  - unfold InferenceMachine.inferSummary. rewrite HL. cbn [mbind result_bind].
    rewrite (inferPosterior_Real B _ (replicate 101 0))
      by (done || by rewrite length_replicate).
    cbn [mbind result_bind InferenceMachine.sims InferenceMachine.likelihood].
    rewrite HN. unfold InferenceMachine.expectedPosterior.
    cbn [InferenceMachine.posterior from_option mbind result_bind].
    rewrite length_replicate, expect_nan
      by (rewrite ?prior_grid_length; lia).
    cbn [mbind result_bind]. reflexivity.
  - reflexivity.
Qed.

(** X17: [inferSummary] on the machine that the constructor returns.
    For a state from 0 to 100 and an action from 0 to 100 the posterior
    it stores has 101 finite non-negative entries that sum to 1, and the
    expectation it prints lies between 0.01 and 1.  For the dead state
    101 every game gives the likelihood 0, the posterior is NaN
    throughout and so is the expectation; nothing is raised.  A state
    above 101 or an action above 100 raises [IndexError]. *)
Theorem inferSummary_on_the_built_machine (B : R) :
  0 < B →
  ∃ sweeps m,
    (∀ k, InferenceMachine.buildBiasEngine (sweeps + k) = Some (Ok m)) ∧
    ∀ state action,
      ((state <= 100)%nat → (action <= 100)%nat →
       ∃ m' post e,
         InferenceMachine.inferSummary B m state action = Ok (m', Real e) ∧
         InferenceMachine.posterior m' = Some (Real <$> post) ∧
         length post = 101%nat ∧ Forall (fun x => 0 <= x) post ∧
         Rsum post = 1 ∧ 1 / 100 <= e <= 1) ∧
      (state = 101%nat → (action <= 100)%nat →
       ∃ m', InferenceMachine.inferSummary B m state action = Ok (m', NaN) ∧
             InferenceMachine.posterior m' = Some (replicate 101 NaN)) ∧
      ((102 <= state)%nat ∨ (101 <= action)%nat →
       InferenceMachine.inferSummary B m state action = Raise IndexError).
Proof.
  intros HB.
  destruct buildBiasEngine_returns as (fuel & gs & Hb & _ & Hl & Hs).
  exists fuel, (InferenceMachine.mk gs None None None).
  split; [done|]. intros state action.
  destruct (inferLikelihood_built gs state action Hl Hs)
    as (Hin & Hdead & Hout).
  split_and!.
  - intros Hst Ha. destruct (Hin Hst Ha) as (l & HL & Hlen & HF).
    destruct (inferSummary_inner B gs l state action HB Hlen HF HL)
      as (m' & post & e & H1 & _ & H2).
    by exists m', post, e.
  - intros Hst Ha. apply (inferSummary_dead B gs state action HB).
    by apply Hdead.
  - intros H. unfold InferenceMachine.inferSummary. by rewrite (Hout H).
Qed.

Lemma inferSummary_on_the_built_machine_witness :
  ∃ sweeps m,
    (∀ k, InferenceMachine.buildBiasEngine (sweeps + k) = Some (Ok m)) ∧
    ∀ state action,
      ((state <= 100)%nat → (action <= 100)%nat →
       ∃ m' post e,
         InferenceMachine.inferSummary 1 m state action = Ok (m', Real e) ∧
         InferenceMachine.posterior m' = Some (Real <$> post) ∧
         length post = 101%nat ∧ Forall (fun x => 0 <= x) post ∧
         Rsum post = 1 ∧ 1 / 100 <= e <= 1) ∧
      (state = 101%nat → (action <= 100)%nat →
       ∃ m', InferenceMachine.inferSummary 1 m state action = Ok (m', NaN) ∧
             InferenceMachine.posterior m' = Some (replicate 101 NaN)) ∧
      ((102 <= state)%nat ∨ (101 <= action)%nat →
       InferenceMachine.inferSummary 1 m state action = Raise IndexError).
Proof.
  apply (inferSummary_on_the_built_machine 1). lra.
Defined.

(** ** A negative temperature *)

Lemma softmax_row_unfold (tau mx : R) (q : list R) :
  Spec.is_max mx q →
  MDP.softmax_row tau q
  = Ok ((fun x =>
           fdiv x (fsum ((fun x => fexp (fdiv (Real (x - mx)) (Real tau)))
                           <$> q)))
          <$> ((fun x => fexp (fdiv (Real (x - mx)) (Real tau))) <$> q)).
Proof.
  intros Hmx. unfold MDP.softmax_row.
  apply np_max_Ok in Hmx as ->. cbn [mbind result_bind]. cbn zeta.
  rewrite <- (list_fmap_compose (fun x => x - mx)
                (fun x => fexp (fdiv (Real x) (Real tau))) q).
  reflexivity.
Qed.



(** A sum that holds [inf] and otherwise finite values. *)
Lemma fsum_PInf (l : list npfloat) :
  Forall (fun x => x = PInf ∨ ∃ r, x = Real r) l → PInf ∈ l → fsum l = PInf.
Proof.
  induction 1 as [|x l Hx HF IH]; intros Hin; [by apply elem_of_nil in Hin|].
  cbn [fsum foldr]. fold (fsum l).
  assert (Hl : fsum l = PInf ∨ ∃ r, fsum l = Real r).
  { clear -HF. induction HF as [|y l Hy _ IH]; [right; by exists 0|].
    cbn [fsum foldr]. fold (fsum l).
    destruct Hy as [->|[r ->]], IH as [->|[r' ->]]; cbn; eauto. }
  apply elem_of_cons in Hin as [<-|Hin].
  - destruct Hl as [->|[r ->]]; done.
  - rewrite (IH Hin). by destruct Hx as [->|[r ->]].
Qed.

Lemma fexp_values (x tau : R) :
  tau ≠ 0 →
  fexp (fdiv (Real x) (Real tau))
  = if Rltb exp_max (x / tau) then PInf else Real (exp (x / tau)).
Proof. intros Htau. cbn [fdiv]. by rewrite Reqb_false. Qed.

(** The row that [softmax_row] computes when an exponential overflows. *)
Lemma softmax_row_overflow (tau mx : R) (q : list R) (a : nat) (qa : R) :
  tau ≠ 0 → Spec.is_max mx q →
  q !! a = Some qa → exp_max < (qa - mx) / tau →
  ∃ row, MDP.softmax_row tau q = Ok row ∧ length row = length q ∧
    ∀ b qb, q !! b = Some qb →
      row !! b = Some (if Rltb exp_max ((qb - mx) / tau) then NaN
                       else Real 0).
Proof.
  intros Htau Hmx Hqa Hover. rewrite (softmax_row_unfold tau mx) by done.
  eexists. split; [done|]. cbn zeta. split; [by rewrite !length_fmap|].
  set (e := (fun x => fexp (fdiv (Real (x - mx)) (Real tau))) <$> q).
  assert (Htot : fsum e = PInf).
  { apply fsum_PInf.
    - apply Forall_fmap, Forall_forall. intros x _. unfold compose. cbn beta.
      rewrite fexp_values by done. destruct (Rltb _ _); eauto.
    - apply list_elem_of_lookup. exists a. unfold e.
      rewrite list_lookup_fmap, Hqa. cbn [fmap option_fmap option_map].
      f_equal. rewrite fexp_values by done. by rewrite Rltb_true. }
  rewrite Htot. intros b qb Hqb. unfold e.
  rewrite !list_lookup_fmap, Hqb. cbn [fmap option_fmap option_map].
  f_equal. rewrite fexp_values by done. by destruct (Rltb _ _).
Qed.



(** On the small model at temperature -0.001 the row of state 1 is 0
    for the better action and NaN for the other one. *)
Lemma toy_negative_tau :
  MDP.state_policy toy_solved (- (1 / 1000)) 1 = Ok [Real 0; NaN].
Proof.
  assert (E0 : (95 / 100 - 95 / 100) / - (1 / 1000) = 0) by (field; lra).
  assert (E1 : (0 - 95 / 100) / - (1 / 1000) = 950) by (field; lra).
  destruct (softmax_row_overflow (- (1 / 1000)) (95 / 100) [95 / 100; 0]
              1 0) as (row & Hrow & Hlen & Hent);
    [lra | apply is_max_pair_l; lra | done
    | rewrite E1; unfold exp_max; lra |].
  assert (MDP.state_policy toy_solved (- (1 / 1000)) 1
          = MDP.softmax_row (- (1 / 1000)) [95 / 100; 0]) as ->.
  { unfold MDP.state_policy. cbn -[MDP.softmax_row]. unfold dot.
    cbn -[MDP.softmax_row]. f_equal. unfold Rsum. simpl. repeat f_equal; lra. }
  rewrite Hrow. f_equal.
  pose proof (Hent 0%nat (95 / 100) eq_refl) as H0.
  pose proof (Hent 1%nat 0 eq_refl) as H1.
  rewrite E0, Rltb_false in H0 by (unfold exp_max; lra).
  rewrite E1, Rltb_true in H1 by (unfold exp_max; lra).
  destruct row as [|x [|y [|z row]]]; try done.
  simpl in H0, H1. by injection H0 as ->; injection H1 as ->.
Qed.

(** ** Simulation *)

Lemma finite_Real (l : list R) : finite (Real <$> l) = Some l.
Proof. induction l as [|x l IH]; [done|]. cbn. by rewrite IH. Qed.

Lemma where_first_seq (a k j : nat) :
  (j < k)%nat →
  where_first (Z.of_nat <$> seq a k) (Z.of_nat (a + j)) = Ok j.
Proof.
  revert a j. induction k as [|k IH]; intros a j Hj; [lia|].
  cbn [seq fmap list_fmap where_first]. destruct j as [|j].
  - rewrite Nat.add_0_r, Z.eqb_refl. done.
  - destruct (Z.eqb_spec (Z.of_nat a) (Z.of_nat (a + S j))) as [?|_]; [lia|].
    replace (a + S j)%nat with (S a + j)%nat by lia.
    rewrite IH by lia. done.
Qed.

Lemma where_first_arange (n x : nat) :
  (x < n)%nat → where_first (BettingGame.arange n) (Z.of_nat x) = Ok x.
Proof. intros Hx. apply (where_first_seq 0 n x Hx). Qed.

Lemma where_first_absent (s : list Z) (z : Z) :
  z ∉ s → where_first s z = Raise IndexError.
Proof.
  induction s as [|y s IH]; intros Hz; [done|].
  apply not_elem_of_cons in Hz as [Hne Hz]. cbn [where_first].
  destruct (Z.eqb_spec y z) as [?|_]; [done|]. by rewrite IH.
Qed.

Lemma where_first_present (s : list Z) (z : Z) :
  z ∈ s → ∃ i, where_first s z = Ok i ∧ s !! i = Some z.
Proof.
  induction s as [|y s IH]; intros Hz; [by apply elem_of_nil in Hz|].
  cbn [where_first]. destruct (Z.eqb_spec y z) as [->|Hne].
  - by exists 0%nat.
  - apply elem_of_cons in Hz as [?|Hz]; [done|].
    destruct (IH Hz) as (i & -> & Hi). by exists (S i).
Qed.

Lemma where_eq_replicate (n j : nat) (c : R) :
  where_eq (replicate n (Real c)) (Real c) j = seq j n.
Proof.
  revert j. induction n as [|n IH]; intros j; [done|].
  cbn [replicate where_eq feqb seq]. by rewrite Reqb_true, IH.
Qed.

Lemma where_eq_elem (row : list npfloat) (c : R) (j0 j : nat) :
  row !! j = Some (Real c) → (j0 + j)%nat ∈ where_eq row (Real c) j0.
Proof.
  revert j0 j. induction row as [|x row IH]; intros j0 j Hj; [done|].
  cbn [where_eq]. destruct j as [|j].
  - injection Hj as ->. cbn [feqb]. rewrite Reqb_true, Nat.add_0_r.
    apply elem_of_cons. by left.
  - replace (j0 + S j)%nat with (S j0 + j)%nat by lia.
    destruct (feqb x (Real c)); [apply elem_of_cons; right|]; by apply IH.
Qed.

Lemma choice_uniform_at {A} (l : list A) (k : nat) (x : A) :
  l !! k = Some x → choice_uniform l k = Ok x.
Proof.
  intros Hk. pose proof (lookup_lt_Some _ _ _ Hk) as Hlt.
  unfold choice_uniform. rewrite decide_False by lia.
  rewrite Nat.mod_small by done. by apply index_Ok.
Qed.

(** Every element of positive probability is drawn for some [u]. *)
Lemma choice_onto {A} (a : list A) (p : list R) (j : nat) (x : A) (pj : R) :
  accepted (length a) p → a !! j = Some x → p !! j = Some pj → 0 < pj →
  ∃ u, 0 <= u < 1 ∧ choice a p u = Ok x.
Proof.
  intros Hacc Hx Hpj Hpos. pose proof (accepted_sum_pos _ _ Hacc) as HS.
  pose proof Hacc as (Hn & Hl & HF & Hsum).
  pose proof (Rsum_nonneg (take j p) (Forall_take _ _ _ HF)) as H0.
  pose proof (Rsum_take_S _ _ _ Hpj) as HSj.
  pose proof (Rsum_take_mono p (S j) (length p) HF
                ltac:(apply lookup_lt_Some in Hpj; lia)) as Hle.
  rewrite (take_ge p (length p)) in Hle by lia.
  assert (Hinv : 0 < / Rsum p) by (by apply Rinv_0_lt_compat).
  exists (Rsum (take j p) / Rsum p). split.
  - split.
    + apply Rmult_le_pos; lra.
    + apply (Rmult_lt_reg_r (Rsum p)); [done|]. field_simplify; lra.
  - apply (choice_at a p _ j); [done..|].
    replace (Rsum (take j p) / Rsum p * Rsum p) with (Rsum (take j p))
      by (field; lra).
    lra.
Qed.

Lemma takeAction_frame (m : MDP.model) (V : list R)
    (P : list (list npfloat)) (state action : nat) (u : R) :
  MDP.takeAction (MDP.set_policy (MDP.set_values m V) P) state action u
  = MDP.takeAction m state action u.
Proof. reflexivity. Qed.

(** X19: the edge cases of [simulate].  From a terminal state the loop
    is not entered: nothing is printed and Python's [None] is returned,
    whatever the model holds.  From a state that is not terminal, a state
    that the state array does not hold raises [IndexError], and a model
    without a policy raises [TypeError]. *)
Theorem simulate_edge_cases (isTerminal : Z → bool) (m : MDP.model)
    (state : Z) (d : MDP.draws) (ds : list MDP.draws) :
  (isTerminal state = true →
   MDP.simulate isTerminal m state (d :: ds) = Some (Ok ([], None))) ∧
  (isTerminal state = false → state ∉ MDP.s m →
   MDP.simulate isTerminal m state (d :: ds) = Some (Raise IndexError)) ∧
  (isTerminal state = false → state ∈ MDP.s m → MDP.policy m = None →
   MDP.simulate isTerminal m state (d :: ds) = Some (Raise TypeError)).
Proof.
  unfold MDP.simulate. split_and!.
  - by intros ->.
  - intros -> Hs. cbn [MDP.simulate_loop]. unfold MDP.simulate_step.
    by rewrite where_first_absent.
  - intros -> Hs HP. cbn [MDP.simulate_loop]. unfold MDP.simulate_step.
    destruct (where_first_present _ _ Hs) as (i & -> & _).
    by rewrite HP.
Qed.

Lemma end_state_move (p u : R) (x y : nat) :
  0 <= u < 1 → (y < 101)%nat → x = 0%nat ∨ x = 100%nat →
  MDP.takeAction (game p) x y u = Ok 101%Z.
Proof.
  intros Hu Hy Hx. unfold MDP.takeAction. rewrite end_state_row by done.
  cbn [mbind result_bind].
  apply (choice_at _ _ u 101); [| by rewrite game_states |].
  - rewrite game_states, arange_length.
    apply accepted_distribution;
      [lia | apply dead_row_length | apply dead_row_ok | apply dead_row_sum].
  - rewrite dead_row_sum, dead_row_prefix.
    rewrite take_ge by (rewrite dead_row_length; lia).
    rewrite dead_row_sum. lra.
Qed.

Lemma overshoot_refused (p u : R) (x y : nat) :
  (x < 102)%nat → (y < 101)%nat → x ≠ 100%nat → overshoots x y = true →
  atol < Rabs p →
  MDP.takeAction (game p) x y u = Raise ValueError.
Proof.
  intros Hx Hy H100 Hov Hp. pose proof (overshoots_inv x y Hov) as H0.
  unfold MDP.takeAction. rewrite game_row by done. cbn [mbind result_bind].
  apply choice_refused. intros (_ & _ & _ & Hs).
  rewrite row_mass, Rsum_tally in Hs.
  pose proof (forallb_seq _ _ y
                (forallb_seq _ _ x overshoot_rows Hx) Hy) as H.
  cbn beta in H. rewrite Hov in H.
  assert (E : (x =? 100)%nat = false) by (by apply Nat.eqb_neq).
  rewrite E in H. cbn [negb andb implb] in H. unfold overshoot_row in H.
  apply Rabs_bounds in Hs.
  assert (Hp' : atol < p ∨ atol < - p).
  { unfold Rabs in Hp. destruct (Rcase_abs p); lra. }
  apply orb_true_iff in H as [H|H]; [apply orb_true_iff in H as [H|H]|];
    apply tally_is_eq in H; rewrite H in Hs;
    change (INR 0) with 0 in Hs; change (INR 1) with 1 in Hs;
    change (INR 2) with (1 + 1) in Hs; lra.
Qed.

Lemma extractPolicy_rows_sum (m : MDP.model) (V : list R) (tau : R) :
  shaped m → MDP.values m = Some V → length V = length (MDP.s m) →
  0 < tau →
  ∃ P, MDP.extractPolicy m (Some tau) = Ok (MDP.set_policy m P) ∧
    length P = length (MDP.s m) ∧
    ∀ i, (i < length (MDP.s m) - 1)%nat →
      ∃ row, MDP.state_policy m tau i = Ok (Real <$> row) ∧
             P !! i = Some (Real <$> row) ∧
             length row = length (MDP.a m) ∧
             Forall (fun x => 0 < x <= 1) row ∧ Rsum row = 1.
Proof.
  intros Hsh HV Hlen Htau.
  destruct (extractPolicy_total m V tau) as (P & HP & HlP & Hrows); [done..|].
  exists P. split_and!; [done | done |].
  intros i Hi.
  destruct (state_policy_Ok m V tau i)
    as (ri & ti & mx & Hri & Hti & Hl & Hmx & Hsp); [done..|].
  destruct (Hrows i Hi) as (row & Hrow & HPi).
  rewrite Hsp in Hrow. injection Hrow as <-.
  eexists. split_and!; [done | done | | |].
  - unfold Spec.softmax, Spec.action_values. by rewrite !length_fmap.
  - apply Forall_lookup. intros a pa. apply softmax_entries.
  - apply softmax_sum. unfold Spec.action_values.
    destruct Hsh as (Ha & _). destruct ti; [simpl in Hl; lia | done].
Qed.

(** The game that the constructor returns. *)
Lemma init_game (p : R) (epsilon tau : option R) :
  0 <= p <= 1 →
  ∃ fuel V P,
    (∀ k, BettingGame.init (fuel + k) (Some p) epsilon tau
          = Some (Ok (BettingGame.mk
                        (MDP.set_policy (MDP.set_values (game p) V) P) p))) ∧
    length P = 102%nat ∧
    (∀ i, (i < 101)%nat →
       ∃ row, P !! i = Some (Real <$> row) ∧ length row = 101%nat ∧
              Forall (fun x => 0 < x <= 1) row ∧ Rsum row = 1) ∧
    (∀ x, x = 0%nat ∨ x = 100%nat →
       P !! x = Some (replicate 101 (Real (1 / 101)))).
Proof.
  intros Hp. destruct (game_lengths p) as (Hls & Hla & _).
  destruct (valueIteration_terminates (game p) None) as (fuel & V & HV & Hlen);
    [apply (game_shaped p None) | by apply (game_substochastic p None)
    | simpl; lra | lia | simpl; lra |].
  destruct (extractPolicy_rows_sum (MDP.set_values (game p) V) V (1 / 10))
    as (P & HP & HlP & Hrows);
    [apply (game_shaped p (Some V)) | reflexivity | exact Hlen | lra |].
  cbn [MDP.set_values MDP.s MDP.a] in HlP, Hrows.
  rewrite Hls in HlP, Hrows, Hlen. rewrite Hla in Hrows.
  exists fuel, V, P. split; [|split; [exact HlP|split]].
  - intros k. rewrite init_unfold. change (default (1 / 2) (Some p)) with p.
    rewrite (valueIteration_more _ _ _ k _ HV).
    cbn [mbind result_bind]. by rewrite HP.
  - intros i Hi. destruct (Hrows i ltac:(lia)) as (row & _ & H).
    by exists row.
  - intros x Hx. destruct (Hrows x ltac:(lia)) as (row & Hsp & -> & _).
    rewrite end_state_policy in Hsp by done. by injection Hsp as <-.
Qed.

Lemma game_isTerminal (x : nat) :
  x ≠ 101%nat → BettingGame.isTerminal (Z.of_nat x) = false.
Proof. intros Hx. unfold BettingGame.isTerminal. apply Z.eqb_neq. lia. Qed.

Lemma subscript_nat {A} (l : list A) (x : nat) :
  subscript l (Z.of_nat x) = index l x.
Proof.
  unfold subscript.
  destruct (Z.leb_spec 0 (Z.of_nat x)) as [_|?]; [|lia]. by rewrite Nat2Z.id.
Qed.

(** The probabilities that [simulate] hands to the generator for a row
    of the policy that sums to 1. *)
Lemma policy_row_accepted (row : list R) :
  row ≠ [] → Forall (fun x => 0 < x <= 1) row → Rsum row = 1 →
  (fun x => fdiv x (fsum (Real <$> row))) <$> (Real <$> row) = Real <$> row ∧
  accepted (length (Real <$> row)) row.
Proof.
  intros Hne HF Hs. split.
  - rewrite normalize_Real by lra. f_equal. rewrite Hs.
    rewrite <- (list_fmap_id row) at 2. apply list_fmap_ext.
    intros _ x _. simpl. lra.
  - rewrite length_fmap. apply accepted_distribution; [|done| |done].
    + by destruct row.
    + eapply Forall_impl; [exact HF|]. intros x Hx. simpl in Hx. lra.
Qed.

Lemma simulate_step_at (p : R) (V : list R) (P : list (list npfloat))
    (x y k : nat) (row : list R) (py : R) (d : MDP.draws) :
  (x < 101)%nat → (y < 101)%nat →
  P !! x = Some (Real <$> row) → length row = 101%nat →
  Forall (fun v => 0 < v <= 1) row → Rsum row = 1 →
  choice (Real <$> row) row (MDP.pick d) = Ok (Real py) →
  choice_uniform (where_eq (Real <$> row) (Real py) 0) (MDP.tie d) = Ok y →
  MDP.simulate_step (MDP.set_policy (MDP.set_values (game p) V) P)
    (Z.of_nat x) d
  = (nextState ← MDP.takeAction (game p) x y (MDP.move d);
     Ok (Z.of_nat y, nextState)).
Proof.
  intros Hx Hy HPx Hl HF Hs Hc Hw.
  destruct (policy_row_accepted row) as [Hnorm _]; [by destruct row | done..|].
  unfold MDP.simulate_step.
  cbn [MDP.set_policy MDP.set_values MDP.s MDP.policy MDP.a].
  rewrite game_states, where_first_arange by lia.
  cbn [mbind result_bind from_option]. apply index_Ok in HPx as HPx'.
  rewrite HPx'. cbn [mbind result_bind].
  rewrite Hnorm. unfold choice_float. rewrite finite_Real, Hc.
  cbn [mbind result_bind]. rewrite subscript_nat, HPx'.
  cbn [mbind result_bind]. rewrite Hw.
  cbn [mbind result_bind]. rewrite takeAction_frame.
  destruct (MDP.takeAction (game p) x y (MDP.move d)) as [z|e]; [|done].
  cbn [mbind result_bind].
  change (MDP.a (game p)) with (BettingGame.arange 101).
  rewrite (proj2 (index_Ok _ _ _) (arange_lookup 101 y Hy)). done.
Qed.

(** X20: a simulation of the game that the constructor returns, started
    in an end-game state, 0 or 100: whatever the generator draws, one
    line is printed, with an action that the draw picks among all 101,
    and [simulate] returns the dead state 101. *)
Theorem simulate_from_end_state (p : R) :
  0 <= p <= 1 →
  ∃ sweeps g,
    (∀ k, BettingGame.init (sweeps + k) (Some p) None None = Some (Ok g)) ∧
    ∀ (x : nat) (d : MDP.draws) (ds : list MDP.draws),
      x = 0%nat ∨ x = 100%nat →
      0 <= MDP.pick d < 1 → 0 <= MDP.move d < 1 →
      MDP.simulate BettingGame.isTerminal (BettingGame.mdp g)
        (Z.of_nat x) (d :: ds)
      = Some (Ok ([(Z.of_nat x, Z.of_nat (MDP.tie d mod 101), 101%Z)],
                  Some 101%Z)).
Proof.
  intros Hp.
  destruct (init_game p None None Hp) as (fuel & V & P & Hg & HlP & _ & Hend).
  eexists fuel, _. split; [exact Hg|].
  intros x d ds Hx Hpick Hmove. cbn [BettingGame.mdp].
  pose proof (Hend x Hx) as HPx.
  rewrite <- (fmap_replicate Real) in HPx.
  assert (Hk : (MDP.tie d mod 101 < 101)%nat) by (apply Nat.mod_upper_bound; lia).
  assert (Hsum : Rsum (replicate 101 (1 / 101)) = 1).
  { rewrite Rsum_replicate.
    replace (INR 101) with 101 by (rewrite INR_IZR_INZ; done). lra. }
  assert (HF : Forall (fun v => 0 < v <= 1) (replicate 101 (1 / 101))).
  { apply Forall_replicate. lra. }
  destruct (policy_row_accepted (replicate 101 (1 / 101))) as [_ Hacc];
    [discriminate | exact HF | exact Hsum |].
  destruct (choice_accepted _ _ (MDP.pick d) Hacc Hpick)
    as (i & v & pi & Hc & Hv & _).
  rewrite list_lookup_fmap in Hv.
  destruct (replicate 101 (1 / 101) !! i) as [c|] eqn:Hi; [|done].
  apply lookup_replicate in Hi as [-> _]. injection Hv as <-.
  unfold MDP.simulate. rewrite game_isTerminal by lia.
  cbn [MDP.simulate_loop].
  rewrite (simulate_step_at p V P x (MDP.tie d mod 101) 0
             (replicate 101 (1 / 101)) (1 / 101));
    [| lia | done | done | apply length_replicate | done | done | done |].
  - rewrite end_state_move by done. cbn [mbind result_bind].
    change (BettingGame.isTerminal 101) with true. done.
  - rewrite fmap_replicate, where_eq_replicate. unfold choice_uniform.
    rewrite length_seq, decide_False by lia. apply index_Ok.
    by rewrite lookup_seq_lt.
Qed.

Lemma simulate_from_end_state_witness :
  ∃ sweeps g,
    (∀ k, BettingGame.init (sweeps + k) (Some (1 / 2)) None None
          = Some (Ok g)) ∧
    ∀ (x : nat) (d : MDP.draws) (ds : list MDP.draws),
      x = 0%nat ∨ x = 100%nat →
      0 <= MDP.pick d < 1 → 0 <= MDP.move d < 1 →
      MDP.simulate BettingGame.isTerminal (BettingGame.mdp g)
        (Z.of_nat x) (d :: ds)
      = Some (Ok ([(Z.of_nat x, Z.of_nat (MDP.tie d mod 101), 101%Z)],
                  Some 101%Z)).
Proof.
  apply (simulate_from_end_state (1 / 2)). lra.
Defined.

(** X21: a simulation of the game that the constructor returns can
    fail.  For a bias above the tolerance of [np.random.choice] and every
    state from 51 to 99 there are draws of the generator, within their
    ranges, for which the policy picks the stake that would bring the
    gambler to exactly 101; [takeAction] then raises [ValueError] and so
    does [simulate]. *)
Theorem simulate_can_raise (p : R) :
  atol < p <= 1 →
  ∃ sweeps g,
    (∀ k, BettingGame.init (sweeps + k) (Some p) None None = Some (Ok g)) ∧
    ∀ x : nat, (51 <= x <= 99)%nat →
      ∃ d, 0 <= MDP.pick d < 1 ∧ 0 <= MDP.move d < 1 ∧
        ∀ ds, MDP.simulate BettingGame.isTerminal (BettingGame.mdp g)
                (Z.of_nat x) (d :: ds)
              = Some (Raise ValueError).
Proof.
  intros Hp. pose proof atol_small as Hat.
  destruct (init_game p None None ltac:(lra))
    as (fuel & V & P & Hg & HlP & Hrows & _).
  eexists fuel, _. split; [exact Hg|].
  intros x Hx. cbn [BettingGame.mdp].
  destruct (Hrows x ltac:(lia)) as (row & HPx & Hl & HF & Hs).
  set (y := (101 - x)%nat).
  destruct (lookup_lt_is_Some_2 row y) as [py Hpy]; [unfold y; lia|].
  pose proof (Forall_lookup_1 _ _ _ _ HF Hpy) as Hpos. simpl in Hpos.
  destruct (policy_row_accepted row) as [_ Hacc]; [by destruct row | done..|].
  destruct (choice_onto (Real <$> row) row y (Real py) py Hacc)
    as (u & Hu & Hc); [by rewrite list_lookup_fmap, Hpy | done | lra |].
  assert (Hin : y ∈ where_eq (Real <$> row) (Real py) 0).
  { apply (where_eq_elem _ py 0 y). by rewrite list_lookup_fmap, Hpy. }
  apply list_elem_of_lookup in Hin as [k Hk].
  exists (MDP.mk_draws u k 0).
  cbn [MDP.pick MDP.move]. split; [done|]. split; [lra|].
  intros ds. unfold MDP.simulate. rewrite game_isTerminal by lia.
  cbn [MDP.simulate_loop].
  rewrite (simulate_step_at p V P x y k row py);
    [| lia | unfold y; lia | done.. | by apply choice_uniform_at].
  cbn [MDP.move].
  rewrite overshoot_refused; [done | lia | unfold y; lia | lia | |].
  - unfold overshoots, y. apply orb_true_iff. left.
    rewrite !andb_true_iff, Nat.eqb_eq, !Nat.leb_le. lia.
  - rewrite Rabs_right by lra. lra.
Qed.

Lemma simulate_can_raise_witness :
  ∃ sweeps g,
    (∀ k, BettingGame.init (sweeps + k) (Some (1 / 2)) None None
          = Some (Ok g)) ∧
    ∀ x : nat, (51 <= x <= 99)%nat →
      ∃ d, 0 <= MDP.pick d < 1 ∧ 0 <= MDP.move d < 1 ∧
        ∀ ds, MDP.simulate BettingGame.isTerminal (BettingGame.mdp g)
                (Z.of_nat x) (d :: ds)
              = Some (Raise ValueError).
Proof.
  apply (simulate_can_raise (1 / 2)). pose proof atol_tiny. lra.
Defined.
